(** * API resource collector: discovery, fetch, reconciliation, persistence

    A shallow embedding of the resource collector of the compliance operator
    (package [manager], file with [scapContentDataStream]) and the properties
    of its discovery step ([FigureResources]), its fetch loop ([fetch],
    [filter]), the kubelet configuration reconciliation
    ([saveConsistentKubeletResult]) and the file layout of the persisted
    results ([getSaveDirectoryAndFileName]).

    Conventions of the embedding:
    - a Go [string] and a Go [[]byte] are both a [string] (a sequence of
      8-bit characters);
    - a Go [map[string]T] is a [gmap string T];
    - a Go [range] over a map visits the entries in an unspecified order:
      where the order can be observed the function takes the visiting order
      as an argument (a [RangeOrder]), and the theorems quantify over every
      valid one;
    - a Go [(value, error)] result is a sum or a pair, as the callers of the
      function need it. *)

From Stdlib Require Import String Ascii List Bool Arith Lia.
From stdpp Require Import base option list strings gmap fin_maps.

Local Open Scope string_scope.
Local Open Scope list_scope.

(** ** Go strings *)

Module GoStrings.

(** [strings.HasPrefix(s, prefix)] *)
Definition HasPrefix (s pre : string) : bool := String.prefix pre s.

(** [strings.TrimPrefix(s, prefix)] *)
Definition TrimPrefix (s pre : string) : string :=
  if HasPrefix s pre
  then String.substring (String.length pre) (String.length s - String.length pre) s
  else s.

(** [strings.Split(s, sep)] for a separator of one character: the pieces
    between the separators, n+1 pieces for n separators. *)
Fixpoint SplitOn (c : ascii) (s : string) : list string :=
  match s with
  | EmptyString => [EmptyString]
  | String a rest =>
      if Ascii.eqb a c then EmptyString :: SplitOn c rest
      else match SplitOn c rest with
           | h :: t => String a h :: t
           | [] => [String a EmptyString]
           end
  end.

Definition slash : ascii := "/"%char.

Definition Split_slash (s : string) : list string := SplitOn slash s.

(** [strings.Join(elems, sep)] *)
Fixpoint Join (elems : list string) (sep : string) : string :=
  match elems with
  | [] => ""
  | [e] => e
  | e :: rest => e +:+ sep +:+ Join rest sep
  end.

(** A name with no slash in it. *)
Fixpoint no_slash (s : string) : bool :=
  match s with
  | EmptyString => true
  | String a r => negb (Ascii.eqb a slash) && no_slash r
  end.

End GoStrings.

(** ** Go errors

    The errors the collector sees come from the cluster client (observed
    only through the predicates of [k8s.io/apimachinery]), from
    [errors.New] and from [fmt.Errorf], which may wrap another error with
    the verb [%w]. *)

Module GoErrors.

(** What the code observes of an error of the cluster client. *)
Record ApiErr := mkApiErr {
  IsNoMatchError : bool;   (* meta.IsNoMatchError(err) *)
  IsForbidden : bool;      (* kerrors.IsForbidden(err) *)
  IsNotFound : bool;       (* kerrors.IsNotFound(err) *)
  ReasonForError : string; (* kerrors.ReasonForError(err) *)
  ApiMessage : string      (* err.Error() *)
}.

Inductive error : Type :=
| External (e : ApiErr)
| New (msg : string)
| Wrapf (pre : string) (inner : error) (post : string)
| MoreThanOneObjErr.

(** [err.Error()]; [Wrapf pre inner post] is the error of
    [fmt.Errorf] whose format holds [pre], the verb [%w] and [post]. *)
Fixpoint Error (e : error) : string :=
  match e with
  | External a => ApiMessage a
  | New msg => msg
  | Wrapf pre inner post => pre +:+ Error inner +:+ post
  | MoreThanOneObjErr => "more than one object returned from the filter"
  end.

(** [errors.Is(err, MoreThanOneObjErr)]: the chain of wrapped errors is
    searched for the sentinel, which is compared by identity. *)
Fixpoint Is_MoreThanOneObjErr (e : error) : bool :=
  match e with
  | External _ => false
  | New _ => false
  | Wrapf _ inner _ => Is_MoreThanOneObjErr inner
  | MoreThanOneObjErr => true
  end.

End GoErrors.

(** ** Go [path] package (standard library)

    [path.Clean], [path.Base], [path.Dir], [path.Split] and [path.Join],
    written over the slash-separated elements of the path, following the
    rules of the package documentation. *)

Module GoPath.
Import GoStrings.

Definition rooted (p : string) : bool :=
  match p with
  | String a _ => Ascii.eqb a slash
  | EmptyString => false
  end.

(** One element of the path, against the elements kept so far (last
    element first): empty and [.] elements are dropped, a [..] removes
    the element before it, is dropped at the root and is kept at the
    start of a relative path. *)
Definition clean_step (isRooted : bool) (kept : list string) (e : string) : list string :=
  if String.eqb e "" then kept
  else if String.eqb e "." then kept
  else if String.eqb e ".." then
    match kept with
    | top :: below => if String.eqb top ".." then e :: kept else below
    | [] => if isRooted then [] else [e]
    end
  else e :: kept.

Definition Clean (p : string) : string :=
  if String.eqb p "" then "."
  else
    let r := rooted p in
    let kept := rev (fold_left (clean_step r) (Split_slash p) []) in
    let body := Join kept "/" in
    if r then "/" +:+ body
    else if String.eqb body "" then "." else body.

(** [path.Split]: the path up to and including the last slash, and the
    rest. *)
Fixpoint Split (p : string) : string * string :=
  match p with
  | EmptyString => ("", "")
  | String a r =>
      let '(d, f) := Split r in
      if String.eqb d "" then
        if Ascii.eqb a slash then ("/", r) else ("", String a f)
      else (String a d, f)
  end.

Definition Dir (p : string) : string := Clean (fst (Split p)).

(** Removes the slashes at the end of the path. *)
Fixpoint trimTrailingSlashes (s : string) : string :=
  match s with
  | EmptyString => ""
  | String a r =>
      match trimTrailingSlashes r with
      | EmptyString => if Ascii.eqb a slash then "" else String a ""
      | r' => String a r'
      end
  end.

Definition Base (p : string) : string :=
  if String.eqb p "" then "."
  else
    let p1 := trimTrailingSlashes p in
    let p2 := snd (Split p1) in
    if String.eqb p2 "" then "/" else p2.

(** [path.Join]: the elements joined with slashes and cleaned; empty
    elements at the start are ignored, and the result is empty when all
    of them are. *)
Fixpoint PathJoin (elems : list string) : string :=
  match elems with
  | [] => ""
  | e :: rest => if String.eqb e "" then PathJoin rest else Clean (Join elems "/")
  end.

End GoPath.

(** ** [utils.ResourcePath] *)

Record ResourcePath := mkResourcePath {
  ObjPath : string;
  DumpPath : string;
  Filter : string
}.

Module Persist.
Import GoStrings GoErrors GoPath.

(** [getSaveDirectoryAndFileName]: the directory (under [rootDir]) and
    the file name for [apiPath]. *)
Definition getSaveDirectoryAndFileName (rootDir apiPath : string)
  : error + (string * string) :=
  let base := Base apiPath in
  if String.eqb base "." || String.eqb base "/" then
    inl (New ("bad object path: " +:+ apiPath))
  else
    let subDirs := Dir apiPath in
    if String.eqb subDirs "." then
      inl (New ("bad object path: " +:+ apiPath))
    else inr (PathJoin [rootDir; subDirs], base).

End Persist.

(** ** Ranging over a Go map

    The Go runtime visits the entries of a map in an order it does not
    specify and that changes from one loop to the next.  A [RangeOrder]
    chooses the order in which a loop visits a map; it is valid when it
    visits every entry once. *)

Definition RangeOrder (V : Type) : Type := gmap string V → list (string * V).

Definition valid_order {V : Type} (σ : RangeOrder V) : Prop :=
  ∀ m, σ m ≡ₚ map_to_list m.

(** The order of the keys, and the opposite one. *)
Definition key_order {V : Type} : RangeOrder V := map_to_list.
Definition rev_key_order {V : Type} : RangeOrder V := fun m => rev (map_to_list m).

(** ** The benchmark documents

    The collector reads the XCCDF documents through queries of the
    [xmlquery] library only.  A [Document] holds what these queries return,
    in document order: the [Value] elements with their [value] descendants,
    the [set-value] elements, the [Profile] elements with their [select]
    descendants, and the [Rule] elements with their [warning] descendants.
    An attribute that is absent reads as the empty string, as [SelectAttr]
    returns it. *)

Module Xccdf.

Record ValueEntry := mkValueEntry {
  ve_hidden : string;     (* SelectAttr("hidden") *)
  ve_selector : string;   (* SelectAttr("selector") *)
  ve_text : string        (* OutputXML(false) *)
}.

Record Value := mkValue {
  v_id : string;
  v_values : list ValueEntry
}.

Record SetValue := mkSetValue {
  sv_idref : string;
  sv_text : string
}.

Record Select := mkSelect {
  sel_selected : string;
  sel_idref : string
}.

Record Profile := mkProfile {
  p_id : string;
  p_extends : string;
  p_selects : list Select
}.

(** A [warning] element is kept as its XML text; it is only handed to
    [utils.GetPathFromWarningXML]. *)
Record Rule := mkRule {
  r_id : string;
  r_warnings : list string
}.

Record Document := mkDocument {
  Values : list Value;
  SetValues : list SetValue;
  Profiles : list Profile;
  Rules : list Rule
}.

End Xccdf.

(** ** The cluster, as discovery sees it *)

Record Node := mkNode {
  Name : string;
  Labels : gmap string string
}.

(** ** Functions of other packages

    Taken as they are: [html.UnescapeString]; [utils.GetNodeRoles], the
    roles in the labels of a node; [utils.GetPathFromWarningXML], the paths
    in a [warning] element with the variables replaced (its error is only
    logged by the caller). *)

Class Utils := {
  UnescapeString : string → string;
  GetNodeRoles : gmap string string → list string;
  GetPathFromWarningXML : string → gmap string string → list ResourcePath
}.

Module Discovery.
Import GoStrings GoErrors Xccdf.

Definition valuePrefix : string := "xccdf_org.ssgproject.content_value_".
Definition kubeletConfigPathPrefix : string := "/kubeletconfig/".
Definition kubeletConfigRolePathPrefix : string := "/kubeletconfig/role/".

(** The staging object [scapContentDataStream]: the parsed documents (the
    tailoring is a nil pointer when there is none) and the answer of the
    cluster to the listing of the nodes. *)
Record scapContentDataStream := mkContent {
  dataStream : Document;
  tailoring : option Document;
  clientListNodes : error + list Node
}.

Definition fixedPaths : list ResourcePath :=
  [ mkResourcePath "/version" "/version" "";
    mkResourcePath "/apis/config.openshift.io/v1/clusteroperators/openshift-apiserver"
                   "/apis/config.openshift.io/v1/clusteroperators/openshift-apiserver" "";
    mkResourcePath "/apis/config.openshift.io/v1/infrastructures/cluster"
                   "/apis/config.openshift.io/v1/infrastructures/cluster" "";
    mkResourcePath "/apis/config.openshift.io/v1/networks/cluster"
                   "/apis/config.openshift.io/v1/networks/cluster" "";
    mkResourcePath "/api/v1/nodes" "/api/v1/nodes" "" ].

(** The double quote character, for the string literals that hold one. *)
Definition dquote : string := String (Ascii.ascii_of_nat 34) EmptyString.

Definition kubeletConfigFilter : string :=
  ".kubeletconfig|.kind=" +:+ dquote +:+ "KubeletConfiguration" +:+ dquote
  +:+ "|.apiVersion=" +:+ dquote +:+ "kubelet.config.k8s.io/v1beta1" +:+ dquote.

(** The [ResourcePath] that [getKubeletConfigResourcePath] appends for one
    node of one role. *)
Definition kubeletConfigPath (role node : string) : ResourcePath :=
  {| ObjPath := "/api/v1/nodes/" +:+ node +:+ "/proxy/configz";
     DumpPath := kubeletConfigPathPrefix +:+ role +:+ "/" +:+ node;
     Filter := kubeletConfigFilter |}.

(** [getKubeletConfigResourcePath]: the roles are visited in the order of
    the range over the map, the nodes of a role in the order of its list. *)
Definition getKubeletConfigResourcePath (σ : RangeOrder (list string))
    (roleNodesList : gmap string (list string)) : list ResourcePath :=
  flat_map (fun '(role, nodeList) => map (kubeletConfigPath role) nodeList)
           (σ roleNodesList).

(** [getRoleNodeNameFromDumpPath]: role and node of a path
    [/kubeletconfig/<role>/<node>], two empty names for any other path. *)
Definition getRoleNodeNameFromDumpPath (dumpPath : string) : string * string :=
  if HasPrefix dumpPath kubeletConfigPathPrefix then
    match Split_slash dumpPath with
    | [_; _; roleName; nodeName] => (roleName, nodeName)
    | _ => ("", "")
    end
  else ("", "").

Section WithUtils.
Context `{Utils}.

(** [roleNodesList[role] = append(roleNodesList[role], nodeName)] *)
Definition addNodeToRole (nodeName : string) (m : gmap string (list string)) (role : string)
  : gmap string (list string) :=
  <[role := default [] (m !! role) ++ [nodeName]]> m.

Definition addNode (m : gmap string (list string)) (node : Node) : gmap string (list string) :=
  fold_left (addNodeToRole (Name node)) (GetNodeRoles (Labels node)) m.

Definition roleNodesOf (items : list Node) : gmap string (list string) :=
  fold_left addNode items ∅.

Definition fetchNodesWithRole (c : scapContentDataStream)
  : error + gmap string (list string) :=
  match clientListNodes c with
  | inl err => inl (Wrapf "failed to list nodes: " err "")
  | inr items => inr (roleNodesOf items)
  end.

(** The variables of one document: the default of every [Value] (the
    [value] children that are not hidden and carry no selector), then the
    [set-value] elements; a later entry replaces an earlier one. *)
Definition addDefault (variable : Value) (valuesList : gmap string string) (val : ValueEntry)
  : gmap string string :=
  if String.eqb (ve_hidden val) "true" then valuesList
  else if String.eqb (ve_selector val) "" then
    if HasPrefix (v_id variable) valuePrefix
    then <[TrimPrefix (v_id variable) valuePrefix := UnescapeString (ve_text val)]> valuesList
    else valuesList
  else valuesList.

Definition addDefaults (valuesList : gmap string string) (variable : Value) : gmap string string :=
  fold_left (addDefault variable) (v_values variable) valuesList.

Definition addSetValue (valuesList : gmap string string) (variable : SetValue) : gmap string string :=
  if HasPrefix (sv_idref variable) valuePrefix
  then <[TrimPrefix (sv_idref variable) valuePrefix := UnescapeString (sv_text variable)]> valuesList
  else valuesList.

Definition collectValues (valuesList : gmap string string) (def : Document) : gmap string string :=
  fold_left addSetValue (SetValues def) (fold_left addDefaults (Values def) valuesList).

Definition definedValues (ruleDefs profileDefs : Document) : gmap string string :=
  fold_left collectValues [ruleDefs; profileDefs] ∅.

(** The loop over [overrideValueList]: an id is overwritten when the table
    has it, and is not inserted when it has not. *)
Definition overrideValue (valuesList : gmap string string) (kv : string * string)
  : gmap string string :=
  match valuesList !! kv.1 with
  | Some _ => <[kv.1 := kv.2]> valuesList
  | None => valuesList
  end.

Definition overrideValues (σ : RangeOrder string) (overrideValueList : option (gmap string string))
    (valuesList : gmap string string) : gmap string string :=
  match overrideValueList with
  | Some ov => fold_left overrideValue (σ ov) valuesList
  | None => valuesList
  end.

(** The ids selected by the profiles named [profile], in document order. *)
Definition selectedOf (check : Select) : list string :=
  if negb (String.eqb (sel_selected check) "true") then []
  else if negb (String.eqb (sel_idref check) "") then [sel_idref check]
  else [].

Definition selectedChecksOf (profileDefs : Document) (profile : string) : list string :=
  flat_map (fun node =>
              if negb (String.eqb (p_id node) profile) then []
              else flat_map selectedOf (p_selects node))
           (Profiles profileDefs).

Definition findRule (checkDefinitions : list Rule) (checkID : string) : option Rule :=
  List.find (fun rule => String.eqb (r_id rule) checkID) checkDefinitions.

(** The paths of the first [warning] element that has some (the elements
    that a query returns are never nil). *)
Fixpoint firstPaths (warningObjs : list string) (valuesList : gmap string string)
  : list ResourcePath :=
  match warningObjs with
  | [] => []
  | warn :: rest =>
      let apiPaths := GetPathFromWarningXML warn valuesList in
      if Nat.eqb (length apiPaths) 0 then firstPaths rest valuesList else apiPaths
  end.

Definition pathsOfCheck (checkDefinitions : list Rule) (valuesList : gmap string string)
    (checkID : string) : list ResourcePath :=
  match findRule checkDefinitions checkID with
  | None => []
  | Some found => firstPaths (r_warnings found) valuesList
  end.

Definition getResourcePaths (σ : RangeOrder string) (profileDefs ruleDefs : Document)
    (profile : string) (overrideValueList : option (gmap string string))
  : list ResourcePath * gmap string string :=
  let valuesList := overrideValues σ overrideValueList (definedValues ruleDefs profileDefs) in
  let selectedChecks := selectedChecksOf profileDefs profile in
  let checkDefinitions := Rules ruleDefs in
  if Nat.eqb (length checkDefinitions) 0 then ([], valuesList)
  else (flat_map (pathsOfCheck checkDefinitions valuesList) selectedChecks, valuesList).

Definition extendsOf (tailoredProfile : string) (node : Profile) : option string :=
  if negb (String.eqb (p_id node) tailoredProfile) then None
  else if negb (String.eqb (p_extends node) "") then Some (p_extends node)
  else None.

Fixpoint getExtendedProfileFrom (nodes : list Profile) (tailoredProfile : string) : string :=
  match nodes with
  | [] => ""
  | node :: rest =>
      match extendsOf tailoredProfile node with
      | Some profileID => profileID
      | None => getExtendedProfileFrom rest tailoredProfile
      end
  end.

Definition getExtendedProfileFromTailoring (ds : Document) (tailoredProfile : string) : string :=
  getExtendedProfileFrom (Profiles ds) tailoredProfile.

(** [FigureResources]: the error of the listing of the nodes, or the paths
    it stores in [c.resources].  [σr] and [σv] are the orders of the ranges
    over the map of the roles and over the table of the variables. *)
Definition FigureResources (σr : RangeOrder (list string)) (σv : RangeOrder string)
    (c : scapContentDataStream) (profile : string) : error + list ResourcePath :=
  match fetchNodesWithRole c with
  | inl err => inl err
  | inr roleNodesList =>
      let found :=
        if Nat.ltb 0 (size roleNodesList)
        then fixedPaths ++ getKubeletConfigResourcePath σr roleNodesList
        else fixedPaths in
      match tailoring c with
      | Some t =>
          let '(selected, valuesList) := getResourcePaths σv t (dataStream c) profile None in
          let found := found ++ selected in
          let effectiveProfile := getExtendedProfileFromTailoring t profile in
          if String.eqb effectiveProfile "" then inr found
          else
            let '(selected, _) :=
              getResourcePaths σv (dataStream c) (dataStream c) effectiveProfile (Some valuesList) in
            inr (found ++ selected)
      | None =>
          let '(selected, _) :=
            getResourcePaths σv (dataStream c) (dataStream c) profile None in
          inr (found ++ selected)
      end
  end.

(** The variable table in effect at the end of [FigureResources]: the one
    its last call of [getResourcePaths] returns. *)
Definition effectiveValues (σv : RangeOrder string) (c : scapContentDataStream)
    (profile : string) : gmap string string :=
  match tailoring c with
  | Some t =>
      let '(_, valuesList) := getResourcePaths σv t (dataStream c) profile None in
      let effectiveProfile := getExtendedProfileFromTailoring t profile in
      if String.eqb effectiveProfile "" then valuesList
      else (getResourcePaths σv (dataStream c) (dataStream c) effectiveProfile (Some valuesList)).2
  | None => (getResourcePaths σv (dataStream c) (dataStream c) profile None).2
  end.

End WithUtils.
End Discovery.

(** ** Fetching *)

(** What streaming one URI gives: the error of [Stream], the error of
    reading the stream, or the body. *)
Inductive streamOutcome : Type :=
| StreamFailed (e : GoErrors.ApiErr)
| ReadFailed (e : GoErrors.error)
| Body (body : string).

(** The interface [resourceStreamer] behind the dispatcher: the cluster
    answers a URI. *)
Class Streamer := {
  Stream : string → streamOutcome
}.

(** The filter language ([gojq]) and [encoding/json], taken as they are:
    the parser of the expression, the decoder of the fetched object, the
    values the iterator of the query yields in order (a value or an error),
    and the encoder of a value. *)
Class FilterEngine := {
  Query : Type;
  JsonObject : Type;
  JsonValue : Type;
  gojq_Parse : string → GoErrors.error + Query;
  json_Unmarshal : string → GoErrors.error + JsonObject;
  gojq_Run : Query → JsonObject → list (GoErrors.error + JsonValue);
  json_Marshal : JsonValue → GoErrors.error + string
}.

(** The comparison of [jsondiff.CompareJSON] (no patch when the documents
    are equal), the text of a patch, and [utils.JSONIntersection]. *)
Class JsonDiff := {
  Patch : Type;
  PatchString : Patch → string;
  CompareJSON : string → string → GoErrors.error + option Patch;
  JSONIntersection : string → string → GoErrors.error + string
}.

Module Fetch.
Import GoStrings GoErrors Discovery.

(** What [fetch] and [saveConsistentKubeletResult] return: the map (nil on
    an error), the warnings and the error. *)
Definition FetchResult : Type := option (gmap string string) * list string * option error.

Section WithFilter.
Context `{FilterEngine}.

(** [filter]: the bytes of the first value and the error. *)
Definition filter (rawobj : string) (flt : string) : string * option error :=
  match gojq_Parse flt with
  | inl fltrErr =>
      ("", Some (Wrapf ("could not create filter '" +:+ flt +:+ "': ") fltrErr ""))
  | inr fltr =>
      match json_Unmarshal rawobj with
      | inl unmarshallErr =>
          ("", Some (Wrapf "Error unmarshalling json: " unmarshallErr ""))
      | inr obj =>
          match gojq_Run fltr obj with
          | [] => ("", Some (New "couldn't get filtered object"))
          | inl err :: _ => ("", Some err)
          | inr v :: more =>
              match json_Marshal v with
              | inl marshallErr =>
                  ("", Some (Wrapf "Error marshalling json: " marshallErr ""))
              | inr out =>
                  match more with
                  | _ :: _ =>
                      (out, Some (Wrapf ("Skipping extra results from filter '" +:+ flt +:+ "': ")
                                        MoreThanOneObjErr ""))
                  | [] => (out, None)
                  end
              end
          end
      end
  end.

Context `{Streamer}.

(** The body of the loop of [fetch] for one path, on the map of the results
    and the warnings so far. *)
Definition fetchOne (rpath : ResourcePath) (st : gmap string string * list string)
  : error + (gmap string string * list string) :=
  let '(results, warnings) := st in
  let uri := ObjPath rpath in
  match Stream uri with
  | StreamFailed e =>
      if IsNoMatchError e || IsForbidden e || IsNotFound e then
        let objerr := Wrapf ("could not fetch " +:+ uri +:+ ": ") (External e) "" in
        let warnings := warnings ++ [Error objerr] in
        if IsNotFound e
        then inr (<[DumpPath rpath := "# kube-api-error=" +:+ ReasonForError e]> results, warnings)
        else inr (results, warnings)
      else inl (Wrapf "streaming URIs failed: " (External e) "")
  | ReadFailed err => inl err
  | Body body =>
      if Nat.eqb (String.length body) 0 then inr (results, warnings)
      else if negb (String.eqb (Filter rpath) "") then
        let '(filteredBody, filterErr) := filter body (Filter rpath) in
        match filterErr with
        | Some fe =>
            if Is_MoreThanOneObjErr fe
            then inr (<[DumpPath rpath := filteredBody]> results, warnings ++ [Error fe])
            else inl (Wrapf ("couldn't filter '" +:+ body +:+ "': ") fe "")
        | None => inr (<[DumpPath rpath := filteredBody]> results, warnings)
        end
      else inr (<[DumpPath rpath := body]> results, warnings)
  end.

(** The loop of [fetch]: the first error stops it, with the warnings so
    far. *)
Fixpoint fetchLoop (objects : list ResourcePath) (st : gmap string string * list string)
  : (list string * error) + (gmap string string * list string) :=
  match objects with
  | [] => inr st
  | rpath :: rest =>
      match fetchOne rpath st with
      | inl err => inl (st.2, err)
      | inr st' => fetchLoop rest st'
      end
  end.

Context `{JsonDiff}.

(** The body of the first loop of [saveConsistentKubeletResult], on the
    baselines of the roles and the warnings so far. *)
Definition reconcileOne (st : gmap string string * list string) (entry : string * string)
  : error + (gmap string string * list string) :=
  let '(kubeletConfigsRole, warning) := st in
  let '(dumpPath, content) := entry in
  let '(role, node) := getRoleNodeNameFromDumpPath dumpPath in
  if String.eqb role "" then inr st
  else
    match kubeletConfigsRole !! role with
    | Some existingKC =>
        match CompareJSON existingKC content with
        | inl err =>
            inl (Wrapf "couldn't compare kubelet configs: " err (" for " +:+ node))
        | inr None => inr st
        | inr (Some diff) =>
            let why := "Kubelet configs for " +:+ node +:+ " are not consistent with role "
                       +:+ role +:+ ", Diff: " +:+ PatchString diff
                       +:+ " of KubeletConfigs for " +:+ role +:+ " role will not be saved." in
            let warning := warning ++ [why] in
            match JSONIntersection existingKC content with
            | inl err =>
                inl (Wrapf "couldn't get intersection of kubelet configs: " err (" for " +:+ node))
            | inr intersectionKC => inr (<[role := intersectionKC]> kubeletConfigsRole, warning)
            end
        end
    | None => inr (<[role := content]> kubeletConfigsRole, warning)
    end.

Fixpoint reconcileLoop (entries : list (string * string)) (st : gmap string string * list string)
  : error + (gmap string string * list string) :=
  match entries with
  | [] => inr st
  | entry :: rest =>
      match reconcileOne st entry with
      | inl err => inl err
      | inr st' => reconcileLoop rest st'
      end
  end.

(** The body of the second loop: the artifact of a role goes to its
    role-level key. *)
Definition saveRole (result : gmap string string) (entry : string * string) : gmap string string :=
  if String.eqb entry.1 "" then result
  else <[kubeletConfigRolePathPrefix +:+ entry.1 := entry.2]> result.

(** [saveConsistentKubeletResult]; [σ] is the order of its two ranges. *)
Definition saveConsistentKubeletResult (σ : RangeOrder string)
    (result : gmap string string) (warning : list string) : FetchResult :=
  if Nat.eqb (size result) 0 then (Some result, warning, None)
  else
    match reconcileLoop (σ result) (∅, warning) with
    | inl err => (None, [], Some err)
    | inr (kubeletConfigsRole, warning) =>
        (Some (fold_left saveRole (σ kubeletConfigsRole) result), warning, None)
    end.

(** [fetch] *)
Definition fetch (σ : RangeOrder string) (objects : list ResourcePath) : FetchResult :=
  match fetchLoop objects (∅, []) with
  | inl (warnings, err) => (None, warnings, Some err)
  | inr (results, warnings) => saveConsistentKubeletResult σ results warnings
  end.

End WithFilter.
End Fetch.

(** ** Kubelet configuration documents

    A kubelet configuration is a JSON object.  Decoded, it is a finite map
    from member names to values, whatever the values are, as long as their
    equality can be decided; two documents are compared member by member,
    so the order of the members in the bytes plays no part. *)

Module KubeletDocs.
Import GoErrors.

Section Docs.
Context {V : Type} `{EqDecision V}.

(** The decoder and the encoder of [encoding/json] for these objects, the
    error of the decoder for other bytes, and the text of a patch. *)
Variable Unmarshal : string → option (gmap string V).
Variable Marshal : gmap string V → string.
Variable syntaxError : error.
Variable render : list string → string.

(** The members on which two documents differ: the operations of the patch
    of [jsondiff.CompareJSON], one per member. *)
Definition doc_diff (x y : gmap string V) : list string :=
  List.filter (fun k => bool_decide (x !! k ≠ y !! k)) (elements (dom x ∪ dom y)).

Definition doc_compare (x y : gmap string V) : option (list string) :=
  match doc_diff x y with
  | [] => None
  | d => Some d
  end.

(** Modelled from the spec: [utils.JSONIntersection] is not among the
    sources; the structural intersection keeps only the members present
    and equal in both documents. *)
Definition doc_intersection (x y : gmap string V) : gmap string V :=
  filter (fun kv => y !! kv.1 = Some kv.2) x.

Definition docCompareJSON (a b : string) : error + option (list string) :=
  match Unmarshal a, Unmarshal b with
  | Some x, Some y => inr (doc_compare x y)
  | _, _ => inl syntaxError
  end.

Definition docJSONIntersection (a b : string) : error + string :=
  match Unmarshal a, Unmarshal b with
  | Some x, Some y => inr (Marshal (doc_intersection x y))
  | _, _ => inl syntaxError
  end.

Definition docJsonDiff : JsonDiff :=
  {| Patch := list string;
     PatchString := render;
     CompareJSON := docCompareJSON;
     JSONIntersection := docJSONIntersection |}.

End Docs.
End KubeletDocs.

(** ** Terms of the statements

    The names that the properties below use: proper path elements, the
    (role, node) pairs of a cluster, the texts of the warnings, the keys of
    the kubelet configurations, and the benchmark without its [extends]
    attributes. *)

Module Terms.
Import GoStrings GoErrors Xccdf Discovery.

(** A path element that [Clean] keeps as it is: not empty, without a
    slash, and neither [.] nor [..]. *)
Definition properName (s : string) : bool :=
  no_slash s && negb (String.eqb s "") && negb (String.eqb s ".") && negb (String.eqb s "..").

Definition nonEmpty (s : string) : bool := negb (String.eqb s "").

(** The (role, node) pairs of a map from roles to nodes. *)
Definition pairsOf (entries : list (string * list string)) : list (string * string) :=
  flat_map (fun e => map (pair e.1) e.2) entries.

(** The benchmark without the [extends] attributes of its profiles. *)
Definition clearExtends (ds : Document) : Document :=
  {| Values := Values ds;
     SetValues := SetValues ds;
     Profiles := map (fun p => mkProfile (p_id p) "" (p_selects p)) (Profiles ds);
     Rules := Rules ds |}.

Definition withClearedBenchmark (c : scapContentDataStream) : scapContentDataStream :=
  {| dataStream := clearExtends (dataStream c);
     tailoring := tailoring c;
     clientListNodes := clientListNodes c |}.

(** The warning of a filter that yields more than one value. *)
Definition moreThanOneWarning (flt : string) : string :=
  "Skipping extra results from filter '" +:+ flt +:+ "': "
  +:+ "more than one object returned from the filter".

(** The warning of a path that could not be fetched. *)
Definition couldNotFetch (uri : string) (e : ApiErr) : string :=
  "could not fetch " +:+ uri +:+ ": " +:+ ApiMessage e.

(** The warning of a node whose configuration differs from the baseline
    of its role. *)
Definition inconsistencyWarning (node role diff : string) : string :=
  "Kubelet configs for " +:+ node +:+ " are not consistent with role "
  +:+ role +:+ ", Diff: " +:+ diff
  +:+ " of KubeletConfigs for " +:+ role +:+ " role will not be saved.".

(** The node-level key of a node of a role. *)
Definition nodeKey (role node : string) : string :=
  kubeletConfigPathPrefix +:+ role +:+ "/" +:+ node.

(** A result where a node named [worker] of a role named [role] meets a
    node of the role [worker]. *)
Definition collidingResult : gmap string string :=
  {[ "/kubeletconfig/role/worker" := "X"; "/kubeletconfig/worker/n1" := "Y" ]}.

(** What the reconciliation makes of it. *)
Definition collidingReconciled : gmap string string :=
  {[ "/kubeletconfig/role/worker" := "Y"; "/kubeletconfig/worker/n1" := "Y";
     "/kubeletconfig/role/role" := "X" ]}.

Section WithUtils.
Context `{Utils}.

(** The (role, node) pairs that the labels of the nodes give, node by
    node. *)
Definition rolePairs (items : list Node) : list (string * string) :=
  flat_map (fun node => map (fun role => (role, Name node)) (GetNodeRoles (Labels node))) items.

(** The paths that [FigureResources] has before it reads the documents. *)
Definition stagedPaths (σr : RangeOrder (list string)) (items : list Node) : list ResourcePath :=
  fixedPaths ++ getKubeletConfigResourcePath σr (roleNodesOf items).

End WithUtils.
End Terms.

(** ** Stand-ins for the examples *)

(** A stand-in for the functions of [utils] in the examples: the roles are
    the label keys under the prefix of the node roles, and a [warning]
    element is read as the name of a variable that holds the path, or as
    the path itself. *)

Module Demo.
Import GoStrings GoErrors Xccdf Discovery.

Definition nodeRolePrefix : string := "node-role.kubernetes.io/".

(** Modelled from the spec: [utils.GetNodeRoles] is not among the sources;
    the roles of a node are derived from its labels, here from the label
    keys under the prefix of the node roles. *)
Definition demoGetNodeRoles (labels : gmap string string) : list string :=
  flat_map (fun k => if HasPrefix k nodeRolePrefix then [TrimPrefix k nodeRolePrefix] else [])
           (map_to_list labels).*1.

(** Modelled from the spec: [utils.GetPathFromWarningXML] is not among the
    sources; the path directive of a [warning] element is reduced here to
    one reference, the name of a variable that the table replaces by its
    value, or else a literal path, and an empty element has no directive. *)
Definition demoGetPath (warning : string) (valuesList : gmap string string) : list ResourcePath :=
  if String.eqb warning "" then []
  else
    let uri := default warning (valuesList !! warning) in
    [mkResourcePath uri uri ""].

Definition demoUtils : Utils :=
  {| UnescapeString := fun s => s;
     GetNodeRoles := demoGetNodeRoles;
     GetPathFromWarningXML := demoGetPath |}.

Definition roleLabel (role : string) : gmap string string :=
  {[ nodeRolePrefix +:+ role := "" ]}.

Definition demoNodes : list Node :=
  [ mkNode "m-0" (roleLabel "master"); mkNode "w-0" (roleLabel "worker");
    mkNode "w-1" (roleLabel "worker") ].

(** A benchmark with one variable, two rules and two profiles. *)
Definition demoBenchmark : Document :=
  {| Values := [ mkValue "xccdf_org.ssgproject.content_value_A" [mkValueEntry "" "" "1"] ];
     SetValues := [];
     Profiles := [ mkProfile "P" "Q" [mkSelect "true" "rule_a"; mkSelect "false" "rule_b"];
                   mkProfile "Q" "" [mkSelect "true" "rule_b"] ];
     Rules := [ mkRule "rule_a" ["A"]; mkRule "rule_b" ["/api/v1/namespaces"] ] |}.

(** A tailoring whose profile extends [P], selects nothing, and sets the
    variables [A] and [B]. *)
Definition demoTailoring : Document :=
  {| Values := [];
     SetValues := [ mkSetValue "xccdf_org.ssgproject.content_value_A" "2";
                    mkSetValue "xccdf_org.ssgproject.content_value_B" "3" ];
     Profiles := [ mkProfile "T" "P" [] ];
     Rules := [] |}.

Definition demoContent : scapContentDataStream :=
  {| dataStream := demoBenchmark; tailoring := Some demoTailoring;
     clientListNodes := inr demoNodes |}.

Definition twoNodes : list Node :=
  [ mkNode "m-0" (roleLabel "master"); mkNode "w-0" (roleLabel "worker") ].

Definition twoRoleContent : scapContentDataStream :=
  {| dataStream := demoBenchmark; tailoring := None; clientListNodes := inr twoNodes |}.

End Demo.

(** A stand-in for the cluster and for the filter language in the
    examples: a few URIs with fixed answers, and a filter that yields the
    whole object once ([.]), twice ([.,.]) or not at all ([empty]). *)

Module DemoFetch.
Import GoErrors.

Definition notFoundErr : ApiErr :=
  {| IsNoMatchError := false; IsForbidden := false; IsNotFound := true;
     ReasonForError := "NotFound"; ApiMessage := "the server could not find the requested resource" |}.

Definition forbiddenErr : ApiErr :=
  {| IsNoMatchError := false; IsForbidden := true; IsNotFound := false;
     ReasonForError := "Forbidden"; ApiMessage := "forbidden" |}.

Definition timeoutErr : ApiErr :=
  {| IsNoMatchError := false; IsForbidden := false; IsNotFound := false;
     ReasonForError := "Timeout"; ApiMessage := "request timed out" |}.

Definition demoStream (uri : string) : streamOutcome :=
  if String.eqb uri "/missing" then StreamFailed notFoundErr
  else if String.eqb uri "/forbidden" then StreamFailed forbiddenErr
  else if String.eqb uri "/timeout" then StreamFailed timeoutErr
  else if String.eqb uri "/empty" then Body ""
  else Body ("{" +:+ uri +:+ "}").

Definition demoStreamer : Streamer := {| Stream := demoStream |}.

Definition demoRun (q obj : string) : list (error + string) :=
  if String.eqb q "." then [inr obj]
  else if String.eqb q ".,." then [inr obj; inr obj]
  else [].

Definition demoFilter : FilterEngine :=
  {| Query := string; JsonObject := string; JsonValue := string;
     gojq_Parse := fun s => inr s;
     json_Unmarshal := fun b => inr b;
     gojq_Run := demoRun;
     json_Marshal := fun v => inr v |}.

(** A filter language that fails on every expression. *)
Definition brokenFilter : FilterEngine :=
  {| Query := string; JsonObject := string; JsonValue := string;
     gojq_Parse := fun s => inl (New "no filter");
     json_Unmarshal := fun b => inr b;
     gojq_Run := fun _ _ => [];
     json_Marshal := fun v => inr v |}.

(** Documents that never compare: no entry of the examples of the fetch
    loop is a kubelet configuration. *)
Definition demoJsonDiff : JsonDiff :=
  {| Patch := string;
     PatchString := fun d => d;
     CompareJSON := fun a b => if String.eqb a b then inr None else inr (Some "differ");
     JSONIntersection := fun a b => inr a |}.

End DemoFetch.

(** A stand-in for [encoding/json] on the three documents of the example:
    the configuration [A], the configuration [B] with another [maxPods],
    and their intersection. *)

Module DemoDocs.
Import GoErrors Discovery Fetch KubeletDocs Terms.

Definition docA : gmap string Z := {[ "maxPods" := 110%Z; "port" := 10250%Z ]}.
Definition docB : gmap string Z := <["maxPods" := 250%Z]> docA.
Definition docI : gmap string Z := delete "maxPods" docA.

Definition bytesA : string := "{maxPods:110,port:10250}".
Definition bytesB : string := "{maxPods:250,port:10250}".
Definition bytesI : string := "{port:10250}".

Definition demoUnmarshal (s : string) : option (gmap string Z) :=
  if String.eqb s bytesA then Some docA
  else if String.eqb s bytesB then Some docB
  else if String.eqb s bytesI then Some docI
  else None.

Definition demoMarshal (m : gmap string Z) : string :=
  if decide (m = docA) then bytesA
  else if decide (m = docB) then bytesB
  else bytesI.

Definition demoRender (d : list string) : string := String.concat "," d.

Definition demoDocs : JsonDiff :=
  docJsonDiff demoUnmarshal demoMarshal (New "invalid character") demoRender.

(** Three workers: [n1] and [n2] report [A], [n3] reports [B]. *)
Definition threeWorkers : gmap string string :=
  {[ nodeKey "worker" "n1" := bytesA; nodeKey "worker" "n2" := bytesA;
     nodeKey "worker" "n3" := bytesB ]}.

End DemoDocs.

(** * The rest of the collector *)

(** ** Persisting

    [saveResources] and [SaveWarningsIfAny] write with [os.MkdirAll] and
    [ioutil.WriteFile].  The file system is a state; a call returns the
    state after it and its error, as a failed call can leave a part of its
    work behind. *)

Class FileSystem := {
  Disk : Type;
  MkdirAll : string → Disk → Disk * option GoErrors.error;
  WriteFile : string → string → Disk → Disk * option GoErrors.error
}.

Module Persistence.
Import GoStrings GoErrors GoPath Persist.

Definition newline : ascii := Ascii.ascii_of_nat 10.

Section WithFileSystem.
Context `{FileSystem}.

(** The body of the loop of [saveResources] on the entries in the order of
    the range: the first error ends the loop, with the files written so
    far left on the disk. *)
Fixpoint saveLoop (rootDir : string) (entries : list (string * string)) (disk : Disk)
  : Disk * option error :=
  match entries with
  | [] => (disk, None)
  | (apiPath, fileContents) :: rest =>
      match getSaveDirectoryAndFileName rootDir apiPath with
      | inl err => (disk, Some err)
      | inr (saveDir, saveFile) =>
          let savePath := PathJoin [saveDir; saveFile] in
          match MkdirAll saveDir disk with
          | (disk, Some err) => (disk, Some err)
          | (disk, None) =>
              match WriteFile savePath fileContents disk with
              | (disk, Some err) => (disk, Some err)
              | (disk, None) => saveLoop rootDir rest disk
              end
          end
      end
  end.

(** [saveResources]; [σ] is the order of its range. *)
Definition saveResources (σ : RangeOrder string) (rootDir : string)
    (data : gmap string string) (disk : Disk) : Disk * option error :=
  saveLoop rootDir (σ data) disk.

(** [SaveWarningsIfAny] *)
Definition SaveWarningsIfAny (warnings : list string) (outputFile : string) (disk : Disk)
  : Disk * option error :=
  if Nat.eqb (length warnings) 0 then (disk, None)
  else WriteFile outputFile (Join warnings (String newline "")) disk.

End WithFileSystem.
End Persistence.

(** ** MachineConfigs

    The MachineConfigs are listed in pages.  What the code reads of a
    MachineConfig is its name and the raw Ignition configuration of its
    [Spec.Config]; of an Ignition configuration, the files of its storage;
    of the metadata of a list, the continue token.  The other fields are
    carried along. *)

Class MachineConfigTypes := {
  McRest : Type;        (* the other fields of a MachineConfig *)
  IgnFile : Type;       (* a file of the storage of an Ignition configuration *)
  IgnRest : Type;       (* the other fields of an Ignition configuration *)
  TypeMeta : Type;
  ListMeta : Type;
  Continue : ListMeta → string;
  (* the zero values of a new [MachineConfigList] *)
  zeroTypeMeta : TypeMeta;
  zeroListMeta : ListMeta
}.

Module MachineConfigs.
Import GoStrings GoErrors.

Section WithTypes.
Context `{MachineConfigTypes}.

Record MachineConfig := mkMachineConfig {
  Name : string;
  Raw : string;         (* [Spec.Config.Raw] *)
  mcRest : McRest
}.

Record Ignition := mkIgnition {
  StorageFiles : list IgnFile;
  ignRest : IgnRest
}.

Record MachineConfigList := mkMachineConfigList {
  listTypeMeta : TypeMeta;
  listListMeta : ListMeta;
  Items : list MachineConfig
}.

(** [mcfgcommon.ParseAndConvertConfig], [json.Marshal] on an Ignition
    configuration, the encoder of the serializer, and [client.List] with
    its limit and continue token. *)
Class MachineConfigApi := {
  ParseAndConvertConfig : string → error + Ignition;
  json_Marshal_Ignition : Ignition → error + string;
  Encode : MachineConfigList → error + string;
  client_List : Z → string → error + MachineConfigList
}.

Context `{MachineConfigApi}.

(** The body of the loop of [filterMcList] on one MachineConfig. *)
Definition filterMc (mc : MachineConfig) : error + MachineConfig :=
  if Nat.ltb 0 (String.length (Raw mc)) then
    match ParseAndConvertConfig (Raw mc) with
    | inl err => inl (Wrapf ("cannot parse MC " +:+ Name mc +:+ ": ") err "")
    | inr ign =>
        let ign := {| StorageFiles := []; ignRest := ignRest ign |} in
        match json_Marshal_Ignition ign with
        | inl err =>
            inl (Wrapf "failed to marshal Ignition object back to a a raw object: " err "")
        | inr rawOutIgn => inr {| Name := Name mc; Raw := rawOutIgn; mcRest := mcRest mc |}
        end
    end
  else inr mc.

Fixpoint filterMcItems (items acc : list MachineConfig) : error + list MachineConfig :=
  match items with
  | [] => inr acc
  | mc :: rest =>
      match filterMc mc with
      | inl err => inl err
      | inr mc' => filterMcItems rest (acc ++ [mc'])
      end
  end.

(** [filterMcList] *)
Definition filterMcList (mcListIn : MachineConfigList) : error + MachineConfigList :=
  match filterMcItems (Items mcListIn) [] with
  | inl err => inl err
  | inr items =>
      inr {| listTypeMeta := listTypeMeta mcListIn;
             listListMeta := listListMeta mcListIn;
             Items := items |}
  end.

Definition pageSize : Z := 5.

(** The loop of [mcStreamer.Stream]: one round for each unit of [fuel];
    [None] when the fuel ends before the loop does. *)
Fixpoint streamPages (fuel : nat) (continueToken : string) (items : list MachineConfig)
  : option (error + list MachineConfig) :=
  match fuel with
  | O => None
  | S fuel =>
      match client_List pageSize continueToken with
      | inl err => Some (inl (Wrapf "failed to list MachineConfigs: " err ""))
      | inr mcfgList =>
          match filterMcList mcfgList with
          | inl err => Some (inl (Wrapf "failed to filter machine configs: " err ""))
          | inr mcfgListNoFilesBatch =>
              let items := items ++ Items mcfgListNoFilesBatch in
              let continueToken := Continue (listListMeta mcfgList) in
              if String.eqb continueToken "" then Some (inr items)
              else streamPages fuel continueToken items
          end
      end
  end.

(** [mcStreamer.Stream]: the bytes of the stream that it returns. *)
Definition mcStream (fuel : nat) : option (error + string) :=
  match streamPages fuel "" [] with
  | None => None
  | Some (inl err) => Some (inl err)
  | Some (inr items) =>
      match Encode {| listTypeMeta := zeroTypeMeta; listListMeta := zeroListMeta;
                      Items := items |} with
      | inl err => Some (inl (Wrapf "failed to serialize MC list: " err ""))
      | inr buf => Some (inr buf)
      end
  end.

(** The streamers of [getStreamerFn]. *)
Inductive resourceStreamer : Type :=
| mcStreamer
| uriStreamer (uri : string).

Definition getStreamerFn (uri : string) : resourceStreamer :=
  if String.eqb uri "/apis/machineconfiguration.openshift.io/v1/machineconfigs"
  then mcStreamer
  else uriStreamer uri.

End WithTypes.
End MachineConfigs.

(** ** The staging object between fetching and saving

    [FetchResources] keeps the map of [fetch] in the field [found] of the
    staging object, from which [SaveResources] writes the files. *)

Module Collector.
Import GoStrings GoErrors Discovery Fetch Persistence.

(** The fields of [scapContentDataStream] that are used after discovery:
    the paths to fetch, and what was fetched (a nil map at the start,
    which ranges as the empty map). *)
Record staging := mkStaging {
  resources : list ResourcePath;
  found : gmap string string
}.

Section WithLibraries.
Context `{FilterEngine} `{Streamer} `{JsonDiff} `{FileSystem}.

(** [FetchResources]: the object after the call, the warnings and the
    error. *)
Definition FetchResources (σ : RangeOrder string) (c : staging)
  : staging * list string * option error :=
  match fetch σ (resources c) with
  | (_, warnings, Some err) => (c, warnings, Some err)
  | (found, warnings, None) =>
      ({| resources := resources c; found := default ∅ found |}, warnings, None)
  end.

(** [SaveResources] *)
Definition SaveResources (σ : RangeOrder string) (to : string) (c : staging) (disk : Disk)
  : Disk * option error :=
  saveResources σ to (found c) disk.

End WithLibraries.
End Collector.

(** ** Terms of the further properties *)

(** The terms of the further properties: what a node adds to the list of
    a role, what the elements of a document register in the table of the
    variables, and the paths that are fetched as they are. *)

Module CollectorTerms.
Import GoStrings GoErrors Xccdf Discovery Fetch.

Section WithUtils.
Context `{Utils}.

(** The names that a node adds to the list of a role: its name, once for
    each time the role is among its roles. *)
Definition namesFor (role : string) (node : Node) : list string :=
  flat_map (fun r => if String.eqb r role then [Name node] else []) (GetNodeRoles (Labels node)).

(** What one element registers in the table: the id without the prefix,
    and the unescaped text. *)
Definition valueBinding (variable : Value) (val : ValueEntry) : list (string * string) :=
  if String.eqb (ve_hidden val) "true" then []
  else if String.eqb (ve_selector val) "" then
    if HasPrefix (v_id variable) valuePrefix
    then [(TrimPrefix (v_id variable) valuePrefix, UnescapeString (ve_text val))]
    else []
  else [].

Definition setBinding (variable : SetValue) : list (string * string) :=
  if HasPrefix (sv_idref variable) valuePrefix
  then [(TrimPrefix (sv_idref variable) valuePrefix, UnescapeString (sv_text variable))]
  else [].

Definition bindings (def : Document) : list (string * string) :=
  flat_map (fun variable => flat_map (valueBinding variable) (v_values variable)) (Values def)
  ++ flat_map setBinding (SetValues def).

Definition bind (valuesList : gmap string string) (kv : string * string) : gmap string string :=
  <[kv.1 := kv.2]> valuesList.

End WithUtils.

Section WithStreamer.
Context `{Streamer}.

(** A path without a filter whose stream gives a body that is not empty. *)
Definition plainPath (rpath : ResourcePath) : Prop :=
  Filter rpath = "" ∧ ∃ body, Stream (ObjPath rpath) = Body body ∧ body ≠ "".

End WithStreamer.
End CollectorTerms.

Module PersistenceTerms.
Import GoStrings.

(** A rooted path of proper names: [/s1/.../sn]. *)
Definition rootedPath (segs : list string) : string := String slash (Join segs "/").

(** A text of one line. *)
Fixpoint oneLine (s : string) : bool :=
  match s with
  | EmptyString => true
  | String a r => negb (Ascii.eqb a Persistence.newline) && oneLine r
  end.

End PersistenceTerms.

Module MachineConfigTerms.
Import GoStrings GoErrors MachineConfigs.

Section WithApi.
Context `{MachineConfigTypes} `{!MachineConfigApi}.

(** The cluster serves [pages], one after the other, from the continue
    token [token] on: each page but the last has a continue token, with
    which the next page is served; [next] is the continue token of the
    last page. *)
Fixpoint follows (token : string) (pages : list MachineConfigList) (next : string) : Prop :=
  match pages with
  | [] => token = next
  | page :: rest =>
      client_List pageSize token = inr page
      ∧ match rest with
        | [] => Continue (listListMeta page) = next
        | _ :: _ =>
            Continue (listListMeta page) ≠ ""
            ∧ follows (Continue (listListMeta page)) rest next
        end
  end.

(** The list that [mcStreamer.Stream] encodes. *)
Definition collected (filtered : list MachineConfigList) : MachineConfigList :=
  {| listTypeMeta := zeroTypeMeta; listListMeta := zeroListMeta;
     Items := concat (map Items filtered) |}.

(** A MachineConfig and what [filterMcList] makes of it: the same but for
    the raw configuration, which is left when it is empty and is otherwise
    the encoding of the parsed configuration without its files. *)
Definition stripped (mc mc' : MachineConfig) : Prop :=
  Name mc' = Name mc ∧ mcRest mc' = mcRest mc
  ∧ (Raw mc = "" → Raw mc' = "")
  ∧ (Raw mc ≠ "" →
       ∃ ign, ParseAndConvertConfig (Raw mc) = inr ign
              ∧ json_Marshal_Ignition {| StorageFiles := []; ignRest := ignRest ign |}
                = inr (Raw mc')).

End WithApi.
End MachineConfigTerms.

(** ** Stand-ins for the further examples *)

Module DemoKubelet.
Import GoErrors Discovery Fetch KubeletDocs Terms.

(** A cluster where the kubelet of [n1] answers with the configuration
    [A] and every other URI is not found. *)
Definition kubeletStream (uri : string) : streamOutcome :=
  if String.eqb uri "/api/v1/nodes/n1/proxy/configz" then Body DemoDocs.bytesA
  else StreamFailed DemoFetch.notFoundErr.

Definition kubeletStreamer : Streamer := {| Stream := kubeletStream |}.

(** Two workers with the configuration [A], a master with [B], and an
    entry that is no kubelet configuration. *)
Definition agreeingNodes : gmap string string :=
  {[ nodeKey "worker" "n1" := DemoDocs.bytesA; nodeKey "worker" "n2" := DemoDocs.bytesA;
     nodeKey "master" "m1" := DemoDocs.bytesB; "/version" := "v" ]}.

Definition agreeingDoc (role : string) : string :=
  if String.eqb role "worker" then DemoDocs.bytesA else DemoDocs.bytesB.

End DemoKubelet.

Module DemoKubeletFilter.
Import GoErrors.

(** A filter language in which every expression yields the object
    itself, once. *)
Definition wholeObject : FilterEngine :=
  {| Query := string; JsonObject := string; JsonValue := string;
     gojq_Parse := fun s => inr s;
     json_Unmarshal := fun b => inr b;
     gojq_Run := fun _ obj => [inr obj];
     json_Marshal := fun v => inr v |}.

End DemoKubeletFilter.

Module DemoDisk.
Import GoErrors.

(** A disk in memory: the files by their paths; every directory can be
    made, and a file can be written unless its path is [/readonly]. *)
Definition memoryDisk : FileSystem :=
  {| Disk := gmap string string;
     MkdirAll := fun _ disk => (disk, None);
     WriteFile := fun p c disk =>
       if String.eqb p "/readonly" then (disk, Some (New "read-only file system"))
       else (<[p := c]> disk, None) |}.

Definition memoryRead (p : string) (disk : gmap string string) : option string := disk !! p.

(** A result with a key that has no directory. *)
Definition brokenData : gmap string string := {[ "/version" := "v"; "version" := "x" ]}.

End DemoDisk.

Module DemoMachineConfigs.
Import GoStrings GoErrors MachineConfigs.

(** Two pages of MachineConfigs; the continue token of the first page is
    [page-2].  A configuration parses unless it is [broken]; its files are
    the words [file]. *)
Definition demoTypes : MachineConfigTypes :=
  {| McRest := string; IgnFile := string; IgnRest := string;
     TypeMeta := string; ListMeta := string;
     Continue := fun m => m;
     zeroTypeMeta := ""; zeroListMeta := "" |}.

Definition mc (name raw : string) : @MachineConfig demoTypes :=
  @mkMachineConfig demoTypes name raw "osImageURL".

Definition page1 : @MachineConfigList demoTypes :=
  @mkMachineConfigList demoTypes "MachineConfigList" "page-2"
    [mc "00-master" "ign-a"; mc "00-worker" ""].

Definition page2 : @MachineConfigList demoTypes :=
  @mkMachineConfigList demoTypes "MachineConfigList" "" [mc "99-worker-ssh" "ign-b"].

(** A page with a MachineConfig that does not parse. *)
Definition badPage : @MachineConfigList demoTypes :=
  @mkMachineConfigList demoTypes "MachineConfigList" ""
    [mc "00-worker" ""; mc "50-bad" "broken"; mc "99-worker-ssh" "ign-b"].

(** The first page as [filterMcList] returns it. *)
Definition page1NoFiles : @MachineConfigList demoTypes :=
  @mkMachineConfigList demoTypes "MachineConfigList" "page-2"
    [mc "00-master" "ign-a"; mc "00-worker" ""].

Definition demoParse (raw : string) : error + @Ignition demoTypes :=
  if String.eqb raw "broken" then inl (New "parsing Ignition config failed")
  else inr (@mkIgnition demoTypes ["file"; "file"] raw).

Definition demoMarshal (ign : @Ignition demoTypes) : error + string :=
  inr (ignRest ign +:+ String.concat "" (StorageFiles ign)).

Definition demoEncode (l : @MachineConfigList demoTypes) : error + string :=
  inr (String.concat ";" (map (fun m => Name m +:+ "=" +:+ Raw m) (Items l))).

Definition demoList (limit : Z) (token : string) : error + @MachineConfigList demoTypes :=
  if String.eqb token "" then inr page1
  else if String.eqb token "page-2" then inr page2
  else inl (New "continue token expired").

Definition demoApi : @MachineConfigApi demoTypes :=
  {| ParseAndConvertConfig := demoParse;
     json_Marshal_Ignition := demoMarshal;
     Encode := demoEncode;
     client_List := demoList |}.

(** A cluster whose every page has a continue token. *)
Definition endlessApi : @MachineConfigApi demoTypes :=
  {| ParseAndConvertConfig := demoParse;
     json_Marshal_Ignition := demoMarshal;
     Encode := demoEncode;
     client_List := fun _ _ => inr page1 |}.

End DemoMachineConfigs.

(** * Properties *)

(** ** Facts about the strings of Go *)

Module GoStringsFacts.
Import GoStrings.

Lemma append_nil (b : string) : "" +:+ b = b.
Proof. reflexivity. Qed.

Lemma append_cons (x : ascii) (a b : string) : String x a +:+ b = String x (a +:+ b).
Proof. reflexivity. Qed.

(** Pushes the appends under the characters of literal prefixes. *)
Ltac sapp := rewrite ?append_cons, ?append_nil.

Lemma append_assoc (a b c : string) : (a +:+ b) +:+ c = a +:+ (b +:+ c).
Proof. induction a as [|x a IH]; sapp; [reflexivity | now rewrite IH]. Qed.

Lemma append_empty_r (a : string) : a +:+ "" = a.
Proof. induction a as [|x a IH]; sapp; [reflexivity | now rewrite IH]. Qed.

Lemma append_inj_l (p a b : string) : p +:+ a = p +:+ b → a = b.
Proof. induction p as [|x p IH]; sapp; intros E; [exact E | injection E; auto]. Qed.

Lemma length_append (a b : string) :
  String.length (a +:+ b) = String.length a + String.length b.
Proof. induction a as [|x a IH]; sapp; simpl; [reflexivity | now rewrite IH]. Qed.

Lemma append_inj_r (s a b : string) : a +:+ s = b +:+ s → a = b.
Proof.
  revert b. induction a as [|x a IH]; intros [|y b] E; sapp; rewrite ?append_cons, ?append_nil in E.
  - reflexivity.
  - apply (f_equal String.length) in E. simpl in E. rewrite length_append in E. lia.
  - apply (f_equal String.length) in E. simpl in E. rewrite length_append in E. lia.
  - injection E as -> E. f_equal. now apply IH.
Qed.

Lemma HasPrefix_append (pre s : string) : HasPrefix (pre +:+ s) pre = true.
Proof.
  unfold HasPrefix. induction pre as [|x p IH]; sapp; simpl.
  - now destruct s.
  - destruct (ascii_dec x x) as [_|N]; [exact IH | now destruct N].
Qed.

Lemma no_slash_SplitOn (s : string) : no_slash s = true → SplitOn slash s = [s].
Proof.
  induction s as [|a s IH]; simpl; [reflexivity|].
  intros [Ha Hs]%andb_prop. apply negb_true_iff in Ha. rewrite Ha, (IH Hs). reflexivity.
Qed.

Lemma SplitOn_sep (s t : string) :
  no_slash s = true → SplitOn slash (s +:+ String slash t) = s :: SplitOn slash t.
Proof.
  induction s as [|a s IH]; sapp; simpl.
  - reflexivity.
  - intros [Ha Hs]%andb_prop. apply negb_true_iff in Ha. rewrite Ha, (IH Hs). reflexivity.
Qed.

(** The pieces of a joined list of names without a slash are the names. *)
Lemma SplitOn_Join (segs : list string) :
  Forall (fun s => no_slash s = true) segs → segs ≠ [] →
  SplitOn slash (Join segs "/") = segs.
Proof.
  induction 1 as [|s segs Hs Hall IH]; [congruence|]. intros _.
  destruct segs as [|s' segs].
  - simpl. now apply no_slash_SplitOn.
  - change (Join (s :: s' :: segs) "/") with (s +:+ String slash (Join (s' :: segs) "/")).
    rewrite SplitOn_sep by exact Hs. f_equal. now apply IH.
Qed.

Lemma Join_snoc (segs : list string) (f : string) :
  segs ≠ [] → Join (segs ++ [f]) "/" = Join segs "/" +:+ "/" +:+ f.
Proof.
  induction segs as [|s segs IH]; [congruence|]. intros _.
  destruct segs as [|s' segs].
  - reflexivity.
  - change (Join ((s :: s' :: segs) ++ [f]) "/")
      with (s +:+ "/" +:+ Join ((s' :: segs) ++ [f]) "/").
    rewrite IH by congruence.
    change (Join (s :: s' :: segs) "/") with (s +:+ "/" +:+ Join (s' :: segs) "/").
    now rewrite !append_assoc.
Qed.

End GoStringsFacts.

(** ** Facts about the paths of Go *)

Module GoPathFacts.
Import Terms.
Import GoStrings GoStringsFacts GoPath.

Lemma properName_inv (s : string) :
  properName s = true →
  no_slash s = true ∧ String.eqb s "" = false ∧ String.eqb s "." = false
  ∧ String.eqb s ".." = false.
Proof.
  unfold properName. rewrite !andb_true_iff, !negb_true_iff. tauto.
Qed.

Lemma Split_no_slash (f : string) : no_slash f = true → Split f = ("", f).
Proof.
  induction f as [|a f IH]; simpl; [reflexivity|].
  intros [Ha Hf]%andb_prop. apply negb_true_iff in Ha. rewrite (IH Hf). simpl.
  now rewrite Ha.
Qed.

Lemma eqb_append_slash_empty (d : string) (t : string) :
  String.eqb (d +:+ String slash t) "" = false.
Proof. destruct d; reflexivity. Qed.

Lemma Split_sep (d f : string) :
  no_slash f = true → Split (d +:+ String slash f) = (d +:+ String slash "", f).
Proof.
  intros Hf. induction d as [|a d IH]; sapp.
  - simpl. rewrite (Split_no_slash f Hf). reflexivity.
  - simpl. rewrite IH. rewrite eqb_append_slash_empty. reflexivity.
Qed.

Lemma trim_no_slash (f : string) : no_slash f = true → trimTrailingSlashes f = f.
Proof.
  induction f as [|a f IH]; simpl; [reflexivity|].
  intros [Ha Hf]%andb_prop. apply negb_true_iff in Ha. rewrite (IH Hf).
  destruct f; [now rewrite Ha | reflexivity].
Qed.

Lemma trim_append (d f : string) :
  no_slash f = true → f ≠ "" → trimTrailingSlashes (d +:+ f) = d +:+ f.
Proof.
  intros Hf Hne. induction d as [|a d IH]; sapp.
  - now apply trim_no_slash.
  - simpl. rewrite IH. destruct (d +:+ f) eqn:E; [|reflexivity].
    destruct d; [now destruct Hne | discriminate].
Qed.

(** The base of a path that ends with a proper name after a slash. *)
Lemma Base_sep (d f : string) :
  properName f = true → Base (d +:+ String slash f) = f.
Proof.
  intros (Hs & He & _ & _)%properName_inv. unfold Base.
  rewrite eqb_append_slash_empty.
  assert (Hne : f ≠ "") by (intros ->; discriminate).
  change (String slash f) with ("/" +:+ f). rewrite <- append_assoc.
  rewrite trim_append by assumption.
  rewrite append_assoc. change ("/" +:+ f) with (String slash f).
  rewrite Split_sep by assumption. simpl. now rewrite He.
Qed.

Lemma clean_step_proper (r : bool) (kept : list string) (e : string) :
  properName e = true → clean_step r kept e = e :: kept.
Proof.
  intros (_ & He & Hd & Hdd)%properName_inv. unfold clean_step.
  now rewrite He, Hd, Hdd.
Qed.

Lemma fold_clean_proper (r : bool) (segs kept : list string) :
  Forall (fun s => properName s = true) segs →
  fold_left (clean_step r) segs kept = rev segs ++ kept.
Proof.
  intros Hall. revert kept. induction Hall as [|s segs Hs _ IH]; intros kept; simpl.
  - reflexivity.
  - rewrite clean_step_proper by exact Hs. rewrite IH, <- app_assoc. reflexivity.
Qed.

Lemma SplitOn_Join_sep (segs : list string) (t : string) :
  Forall (fun s => no_slash s = true) segs → segs ≠ [] →
  SplitOn slash (Join segs "/" +:+ String slash t) = segs ++ SplitOn slash t.
Proof.
  induction 1 as [|s segs Hs Hall IH]; [congruence|]. intros _.
  destruct segs as [|s' segs].
  - simpl Join. now rewrite SplitOn_sep.
  - change (Join (s :: s' :: segs) "/") with (s +:+ String slash (Join (s' :: segs) "/")).
    rewrite append_assoc. rewrite append_cons.
    rewrite SplitOn_sep by exact Hs. rewrite IH by congruence. reflexivity.
Qed.

Lemma proper_no_slash (segs : list string) :
  Forall (fun s => properName s = true) segs → Forall (fun s => no_slash s = true) segs.
Proof.
  intros Hall. eapply Forall_impl; [exact Hall|].
  intros s Hs. now apply properName_inv in Hs.
Qed.

(** [Clean] leaves a rooted path of proper names as it is, but for the
    slash at its end. *)
Lemma Clean_rooted_proper (segs : list string) :
  Forall (fun s => properName s = true) segs → segs ≠ [] →
  Clean (String slash (Join segs "/" +:+ String slash "")) = String slash (Join segs "/").
Proof.
  intros Hall Hne. unfold Clean.
  change (String.eqb (String slash _) "") with false. cbv iota.
  change (rooted (String slash (Join segs "/" +:+ String slash ""))) with true. cbv zeta iota.
  unfold Split_slash. change (SplitOn slash (String slash ?t)) with ("" :: SplitOn slash t).
  rewrite SplitOn_Join_sep by (auto using proper_no_slash).
  simpl fold_left. change (clean_step true [] "") with (@nil string).
  rewrite fold_left_app. rewrite (fold_clean_proper true segs) by exact Hall.
  simpl fold_left. change (clean_step true (rev segs ++ []) "") with (rev segs ++ []).
  rewrite app_nil_r, rev_involutive. reflexivity.
Qed.

Lemma Dir_rooted_proper (segs : list string) (f : string) :
  Forall (fun s => properName s = true) segs → properName f = true →
  Dir (String slash (Join (segs ++ [f]) "/")) = String slash (Join segs "/").
Proof.
  intros Hall Hf. pose proof (properName_inv _ Hf) as (Hs & _).
  unfold Dir. destruct segs as [|s segs].
  - simpl app. simpl Join. pose proof (Split_sep "" f Hs) as E.
    rewrite !append_nil in E. rewrite E. reflexivity.
  - rewrite Join_snoc by congruence.
    change ("/" +:+ f) with (String slash f).
    rewrite <- append_cons. rewrite Split_sep by assumption. cbn [fst].
    rewrite append_cons. now apply Clean_rooted_proper.
Qed.

Lemma Base_rooted_proper (segs : list string) (f : string) :
  properName f = true → Base (String slash (Join (segs ++ [f]) "/")) = f.
Proof.
  intros Hf. destruct segs as [|s segs].
  - simpl app. simpl Join. pose proof (Base_sep "" f Hf) as E.
    now rewrite append_nil in E.
  - rewrite Join_snoc by congruence. change ("/" +:+ f) with (String slash f).
    rewrite <- append_cons. now apply Base_sep.
Qed.

Example Clean_examples :
  map Clean ["a/b/.."; "../a"; "/.."; "a/../.."; "//a//b/./c/"; "/"; ""; "a/../../b"]
  = ["a"; "../a"; "/"; ".."; "/a/b/c"; "/"; "."; "../b"].
Proof. reflexivity. Qed.

Example Base_examples :
  map Base ["/api/v1/nodes/foo/proxy/configz"; ""; "/"; "///"; "a/b/"; "a/."; "version"]
  = ["configz"; "."; "/"; "/"; "b"; "."; "version"].
Proof. reflexivity. Qed.

Example Dir_examples :
  map Dir ["/api/v1/nodes/foo/proxy/configz"; ""; "/"; "/version"; "a/b/"; "version"; "./x"]
  = ["/api/v1/nodes/foo/proxy"; "."; "/"; "/"; "a/b"; "."; "."].
Proof. reflexivity. Qed.

Example PathJoin_examples :
  map PathJoin [["/out"; "/api/v1"]; [""; "a"]; ["a"; ""; "b"]; [""; ""]; ["/out"; "/"]]
  = ["/out/api/v1"; "a"; "a/b"; ""; "/out"].
Proof. reflexivity. Qed.

End GoPathFacts.

Module PersistFacts.
Import Terms.
Import GoStrings GoStringsFacts GoErrors GoPath GoPathFacts Persist.

Lemma fold_clean_elements (r : bool) (l kept : list string) :
  Forall (fun s => s = "" ∨ properName s = true) l →
  fold_left (clean_step r) l kept = rev (List.filter nonEmpty l) ++ kept.
Proof.
  intros Hall. revert kept. induction Hall as [|s l Hs _ IH]; intros kept; simpl.
  - reflexivity.
  - destruct Hs as [-> | Hs].
    + change (clean_step r kept "") with kept. simpl. apply IH.
    + rewrite clean_step_proper by exact Hs. unfold nonEmpty at 1.
      apply properName_inv in Hs as (_ & -> & _). simpl.
      rewrite IH, <- app_assoc. reflexivity.
Qed.

(** [Clean] on a rooted path made of proper names and empty elements:
    the proper names, each after one slash. *)
Lemma Clean_rooted_elements (t : string) :
  Forall (fun s => s = "" ∨ properName s = true) (SplitOn slash t) →
  Clean (String slash t) = String slash (Join (List.filter nonEmpty (SplitOn slash t)) "/").
Proof.
  intros Hall. unfold Clean.
  change (String.eqb (String slash t) "") with false. cbv iota.
  change (rooted (String slash t)) with true. cbv zeta iota.
  unfold Split_slash. change (SplitOn slash (String slash t)) with ("" :: SplitOn slash t).
  simpl fold_left. change (clean_step true [] "") with (@nil string).
  rewrite fold_clean_elements by exact Hall.
  rewrite app_nil_r, rev_involutive. reflexivity.
Qed.

Lemma filter_nonEmpty_proper (l : list string) :
  Forall (fun s => properName s = true) l → List.filter nonEmpty l = l.
Proof.
  induction 1 as [|s l Hs _ IH]; simpl; [reflexivity|].
  unfold nonEmpty at 1. apply properName_inv in Hs as (_ & -> & _). simpl. now rewrite IH.
Qed.

(** The directory of the file: the elements of the root, then those of
    the prefix. *)
Lemma PathJoin_rooted (rsegs segs : list string) :
  Forall (fun s => properName s = true) rsegs → rsegs ≠ [] →
  Forall (fun s => properName s = true) segs →
  PathJoin [String slash (Join rsegs "/"); String slash (Join segs "/")]
  = String slash (Join (rsegs ++ segs) "/").
Proof.
  intros Hr Hne Hs. unfold PathJoin.
  change (String.eqb (String slash (Join rsegs "/")) "") with false. cbv iota.
  change (Join [String slash (Join rsegs "/"); String slash (Join segs "/")] "/")
    with (String slash (Join rsegs "/") +:+ "/" +:+ String slash (Join segs "/")).
  rewrite append_cons. change ("/" +:+ ?x) with (String slash x).
  assert (E : SplitOn slash (Join rsegs "/" +:+ String slash (String slash (Join segs "/")))
              = rsegs ++ "" :: (if decide (segs = []) then [""] else segs)).
  { rewrite SplitOn_Join_sep by (auto using proper_no_slash).
    change (SplitOn slash (String slash ?t)) with ("" :: SplitOn slash t).
    destruct (decide (segs = [])) as [-> | Hn]; [reflexivity|].
    rewrite SplitOn_Join by (auto using proper_no_slash). reflexivity. }
  rewrite Clean_rooted_elements; rewrite E.
  - rewrite List.filter_app. rewrite filter_nonEmpty_proper by exact Hr.
    simpl. destruct (decide (segs = [])) as [-> | Hn]; [reflexivity|].
    now rewrite filter_nonEmpty_proper.
  - apply Forall_app. split.
    + eapply Forall_impl; [exact Hr | auto].
    + constructor; [now left|].
      destruct (decide (segs = [])) as [-> | Hn].
      * constructor; [now left | constructor].
      * eapply Forall_impl; [exact Hs | auto].
Qed.

(** C7, as the claim states it, fails: a DumpPath whose directory part is
    the root [/] is no error.  The fixed path [/version] is such a path
    and is saved as the file [version] of the output root. *)
Lemma root_directory_is_accepted :
  ¬ (∀ rootDir apiPath : string,
        Base apiPath = "." ∨ Base apiPath = "/" ∨ Dir apiPath = "." ∨ Dir apiPath = "/" →
        ∃ err, getSaveDirectoryAndFileName rootDir apiPath = inl err).
Proof.
  intros Hclaim.
  destruct (Hclaim "/out" "/version") as [err Herr].
  - right; right; right. reflexivity.
  - discriminate Herr.
Qed.

(** C7 (amended): the last element of a DumpPath is the file name and the
    elements before it, under the output root, are the directory, so
    [/api/v1/nodes/foo/proxy/configz] is the file [configz] of the
    directory [<root>/api/v1/nodes/foo/proxy]; a DumpPath whose base is [.]
    or [/], or whose directory part is [.], is an error; a directory part
    [/] is accepted, the file is then in the output root itself. *)
Theorem getSaveDirectoryAndFileName_layout (rootDir : string) :
  (∀ (segs : list string) (f : string),
      Forall (fun s => properName s = true) segs → properName f = true →
      getSaveDirectoryAndFileName rootDir (String slash (Join (segs ++ [f]) "/"))
      = inr (PathJoin [rootDir; String slash (Join segs "/")], f))
  ∧ (∀ (rsegs segs : list string) (f : string),
      rootDir = String slash (Join rsegs "/") →
      Forall (fun s => properName s = true) rsegs → rsegs ≠ [] →
      Forall (fun s => properName s = true) segs → properName f = true →
      getSaveDirectoryAndFileName rootDir (String slash (Join (segs ++ [f]) "/"))
      = inr (String slash (Join (rsegs ++ segs) "/"), f))
  ∧ getSaveDirectoryAndFileName rootDir "/api/v1/nodes/foo/proxy/configz"
    = inr (PathJoin [rootDir; "/api/v1/nodes/foo/proxy"], "configz")
  ∧ (∀ apiPath : string,
      Base apiPath = "." ∨ Base apiPath = "/" ∨ Dir apiPath = "." →
      getSaveDirectoryAndFileName rootDir apiPath = inl (New ("bad object path: " +:+ apiPath)))
  ∧ (∀ apiPath : string,
      Dir apiPath = "/" → Base apiPath ≠ "." → Base apiPath ≠ "/" →
      getSaveDirectoryAndFileName rootDir apiPath = inr (PathJoin [rootDir; "/"], Base apiPath)).
Proof.
  assert (General : ∀ (segs : list string) (f : string),
      Forall (fun s => properName s = true) segs → properName f = true →
      getSaveDirectoryAndFileName rootDir (String slash (Join (segs ++ [f]) "/"))
      = inr (PathJoin [rootDir; String slash (Join segs "/")], f)).
  { intros segs f Hall Hf. unfold getSaveDirectoryAndFileName.
    rewrite Base_rooted_proper by exact Hf.
    rewrite Dir_rooted_proper by assumption.
    apply properName_inv in Hf as (Hs & _ & Hd & _). rewrite Hd.
    assert (String.eqb f "/" = false) as ->.
    { apply String.eqb_neq. intros ->. discriminate Hs. }
    reflexivity. }
  split; [exact General|]. split; [|split; [|split]].
  - intros rsegs segs f -> Hr Hne Hs Hf. rewrite General by assumption.
    now rewrite PathJoin_rooted.
  - reflexivity.
  - intros apiPath Hdeg. unfold getSaveDirectoryAndFileName.
    destruct Hdeg as [-> | [-> | Hd]]; [reflexivity | reflexivity |].
    rewrite Hd. simpl. now destruct (_ || _).
  - intros apiPath Hd Hb1 Hb2. unfold getSaveDirectoryAndFileName.
    apply String.eqb_neq in Hb1, Hb2. rewrite Hb1, Hb2, Hd. reflexivity.
Qed.

Lemma getSaveDirectoryAndFileName_layout_witness :
  getSaveDirectoryAndFileName "/out" "/api/v1/nodes/foo/proxy/configz"
  = inr ("/out/api/v1/nodes/foo/proxy", "configz")
  ∧ getSaveDirectoryAndFileName "/out" "/version" = inr ("/out", "version")
  ∧ getSaveDirectoryAndFileName "/out" "version" = inl (New "bad object path: version")
  ∧ getSaveDirectoryAndFileName "/out" "/" = inl (New "bad object path: /").
Proof.
  destruct (getSaveDirectoryAndFileName_layout "/out") as (_ & Hroot & _ & Hbad & Hacc).
  split; [|split; [|split]].
  - apply (Hroot ["out"] ["api"; "v1"; "nodes"; "foo"; "proxy"] "configz");
      first [ reflexivity | discriminate | repeat constructor ].
  - apply (Hacc "/version"); [reflexivity | discriminate | discriminate].
  - apply (Hbad "version"). right; right. reflexivity.
  - apply (Hbad "/"). right; left. reflexivity.
Defined.

End PersistFacts.

(** ** Discovery *)

Module DiscoveryFacts.
Import Terms.
Import GoStrings GoStringsFacts GoErrors Xccdf Discovery.

Lemma valid_key_order {V : Type} : valid_order (@key_order V).
Proof. intros m. reflexivity. Qed.

Lemma valid_rev_key_order {V : Type} : valid_order (@rev_key_order V).
Proof. intros m. unfold rev_key_order. symmetry. apply Permutation_rev. Qed.

Lemma valid_order_empty {V : Type} (σ : RangeOrder V) : valid_order σ → σ ∅ = [].
Proof.
  intros Hσ. apply Permutation_nil. rewrite (Hσ ∅), map_to_list_empty. reflexivity.
Qed.

Lemma valid_order_NoDup_fst {V : Type} (σ : RangeOrder V) (m : gmap string V) :
  valid_order σ → NoDup (σ m).*1.
Proof. intros Hσ. rewrite (Hσ m). apply NoDup_fst_map_to_list. Qed.

Lemma valid_order_list_to_map {V : Type} (σ : RangeOrder V) (m : gmap string V) :
  valid_order σ → list_to_map (σ m) = m.
Proof.
  intros Hσ. rewrite <- (list_to_map_to_list m) at 2.
  apply list_to_map_proper; [now apply valid_order_NoDup_fst | apply Hσ].
Qed.

(** The path of a node of a role determines the role and the node. *)
Lemma kubeletConfigPath_inj (role node role' node' : string) :
  kubeletConfigPath role node = kubeletConfigPath role' node' → role = role' ∧ node = node'.
Proof.
  unfold kubeletConfigPath. intros E. injection E as Eobj Edump.
  apply append_inj_l, append_inj_r in Eobj. subst node'.
  apply append_inj_l, append_inj_r in Edump. now subst.
Qed.

Section WithUtils.
Context `{Utils}.

Lemma pairsOf_perm (l l' : list (string * list string)) : l ≡ₚ l' → pairsOf l ≡ₚ pairsOf l'.
Proof. intros Hl. unfold pairsOf. now apply Permutation_flat_map. Qed.

#[local] Instance pairsOf_Proper : Proper ((≡ₚ) ==> (≡ₚ)) pairsOf.
Proof. intros l l' Hl. now apply pairsOf_perm. Qed.

Lemma pairsOf_addNodeToRole (m : gmap string (list string)) (node role : string) :
  pairsOf (map_to_list (addNodeToRole node m role)) ≡ₚ pairsOf (map_to_list m) ++ [(role, node)].
Proof.
  unfold addNodeToRole. destruct (m !! role) as [ns|] eqn:E; simpl.
  - rewrite <- (insert_delete_eq m role (ns ++ [node])).
    rewrite map_to_list_insert by apply lookup_delete_eq.
    rewrite <- (insert_id m role ns E) at 2. rewrite <- (insert_delete_eq m role ns).
    rewrite (map_to_list_insert (delete role m) role ns) by apply lookup_delete_eq.
    unfold pairsOf. simpl. rewrite map_app. simpl.
    rewrite <- !app_assoc. apply Permutation_app_head. apply Permutation_app_comm.
  - rewrite map_to_list_insert by exact E. unfold pairsOf. simpl.
    apply Permutation_cons_append.
Qed.

Lemma pairsOf_addNode (m : gmap string (list string)) (node : Node) :
  pairsOf (map_to_list (addNode m node))
  ≡ₚ pairsOf (map_to_list m) ++ map (fun role => (role, Name node)) (GetNodeRoles (Labels node)).
Proof.
  unfold addNode. generalize (GetNodeRoles (Labels node)) as roles.
  intros roles. revert m. induction roles as [|role roles IH]; intros m; simpl.
  - now rewrite app_nil_r.
  - rewrite IH, pairsOf_addNodeToRole, <- app_assoc. reflexivity.
Qed.

Lemma pairsOf_fold_addNode (items : list Node) (m : gmap string (list string)) :
  pairsOf (map_to_list (fold_left addNode items m)) ≡ₚ pairsOf (map_to_list m) ++ rolePairs items.
Proof.
  revert m. induction items as [|node items IH]; intros m; simpl.
  - now rewrite app_nil_r.
  - rewrite IH, pairsOf_addNode, <- app_assoc. reflexivity.
Qed.

Lemma pairsOf_roleNodesOf (items : list Node) :
  pairsOf (map_to_list (roleNodesOf items)) ≡ₚ rolePairs items.
Proof.
  unfold roleNodesOf. rewrite pairsOf_fold_addNode, map_to_list_empty. reflexivity.
Qed.

Lemma getKubeletConfigResourcePath_pairs (σ : RangeOrder (list string))
    (m : gmap string (list string)) :
  getKubeletConfigResourcePath σ m
  = map (fun p => kubeletConfigPath p.1 p.2) (pairsOf (σ m)).
Proof.
  unfold getKubeletConfigResourcePath, pairsOf.
  induction (σ m) as [|[role nodes] l IH]; simpl; [reflexivity|].
  rewrite map_app, map_map, IH. reflexivity.
Qed.

(** One path per (role, node) pair that the labels give. *)
Lemma getKubeletConfigResourcePath_perm (σ : RangeOrder (list string)) (items : list Node) :
  valid_order σ →
  getKubeletConfigResourcePath σ (roleNodesOf items)
  ≡ₚ map (fun p => kubeletConfigPath p.1 p.2) (rolePairs items).
Proof.
  intros Hσ. rewrite getKubeletConfigResourcePath_pairs.
  apply Permutation_map. rewrite (pairsOf_perm _ _ (Hσ _)). apply pairsOf_roleNodesOf.
Qed.

Lemma staged_guard (σr : RangeOrder (list string)) (m : gmap string (list string)) :
  valid_order σr →
  (if Nat.ltb 0 (size m) then fixedPaths ++ getKubeletConfigResourcePath σr m else fixedPaths)
  = fixedPaths ++ getKubeletConfigResourcePath σr m.
Proof.
  intros Hσ. destruct (Nat.ltb_spec 0 (size m)) as [_|Hz]; [reflexivity|].
  assert (m = ∅) as -> by (apply map_size_empty_iff; lia).
  unfold getKubeletConfigResourcePath. rewrite (valid_order_empty σr Hσ).
  reflexivity.
Qed.

(** [FigureResources], unfolded for a cluster that lists its nodes. *)
Lemma FigureResources_unfold (σr : RangeOrder (list string)) (σv : RangeOrder string)
    (c : scapContentDataStream) (profile : string) (items : list Node) :
  valid_order σr → clientListNodes c = inr items →
  FigureResources σr σv c profile =
  inr (stagedPaths σr items ++
       match tailoring c with
       | Some t =>
           let r := getResourcePaths σv t (dataStream c) profile None in
           let effectiveProfile := getExtendedProfileFromTailoring t profile in
           if String.eqb effectiveProfile "" then r.1
           else r.1 ++ (getResourcePaths σv (dataStream c) (dataStream c)
                                         effectiveProfile (Some r.2)).1
       | None => (getResourcePaths σv (dataStream c) (dataStream c) profile None).1
       end).
Proof.
  intros Hσ Hitems. unfold FigureResources, fetchNodesWithRole, stagedPaths.
  rewrite Hitems. rewrite (staged_guard σr _ Hσ).
  destruct (tailoring c) as [t|].
  - destruct (getResourcePaths σv t (dataStream c) profile None) as [sel vals] eqn:E1.
    cbv zeta. cbn [fst snd].
    destruct (String.eqb (getExtendedProfileFromTailoring t profile) ""); [reflexivity|].
    destruct (getResourcePaths σv (dataStream c) (dataStream c) _ (Some vals)) as [sel2 vals2].
    cbn [fst]. now rewrite <- app_assoc.
  - destruct (getResourcePaths σv (dataStream c) (dataStream c) profile None) as [sel vals].
    reflexivity.
Qed.

(** The loop over the overrides, whatever the order of the range: an id of
    the table takes the value of its override, when it has one, and no id
    is added. *)
Lemma overrideValue_lookup (t : gmap string string) (kv : string * string) (k : string) :
  overrideValue t kv !! k
  = if decide (kv.1 = k) then (fun _ => kv.2) <$> t !! k else t !! k.
Proof.
  unfold overrideValue. destruct (t !! kv.1) as [old|] eqn:E.
  - destruct (decide (kv.1 = k)) as [<-|Hne].
    + now rewrite lookup_insert_eq, E.
    + now rewrite lookup_insert_ne.
  - destruct (decide (kv.1 = k)) as [<-|Hne]; [now rewrite E | reflexivity].
Qed.

Lemma fold_overrideValue_lookup (l : list (string * string)) (t : gmap string string)
    (k : string) :
  NoDup l.*1 →
  fold_left overrideValue l t !! k
  = (fun v => default v ((list_to_map l : gmap string string) !! k)) <$> t !! k.
Proof.
  revert t. induction l as [|[k' v'] l IH]; intros t Hnd; simpl.
  - rewrite lookup_empty. now destruct (t !! k).
  - apply NoDup_cons in Hnd as [Hnotin Hnd]. rewrite IH by exact Hnd.
    rewrite overrideValue_lookup. simpl. destruct (decide (k' = k)) as [->|Hne].
    + rewrite lookup_insert_eq.
      rewrite (not_elem_of_list_to_map_1 l k Hnotin).
      now destruct (t !! k).
    + now rewrite lookup_insert_ne.
Qed.

Lemma overrideValues_lookup (σ : RangeOrder string) (ov t : gmap string string) (k : string) :
  valid_order σ →
  overrideValues σ (Some ov) t !! k = (fun v => default v (ov !! k)) <$> t !! k.
Proof.
  intros Hσ. unfold overrideValues.
  rewrite fold_overrideValue_lookup by now apply valid_order_NoDup_fst.
  now rewrite valid_order_list_to_map.
Qed.

Lemma overrideValues_order (σ1 σ2 : RangeOrder string) (ov : option (gmap string string))
    (t : gmap string string) :
  valid_order σ1 → valid_order σ2 → overrideValues σ1 ov t = overrideValues σ2 ov t.
Proof.
  intros H1 H2. destruct ov as [ov|]; [|reflexivity].
  apply map_eq. intros k. now rewrite !overrideValues_lookup.
Qed.

Lemma pathsOfCheck_no_rules (valuesList : gmap string string) (checks : list string) :
  flat_map (pathsOfCheck [] valuesList) checks = [].
Proof. induction checks as [|check checks IH]; [reflexivity | exact IH]. Qed.

(** The two results of [getResourcePaths]: the paths of the selected
    checks and the table of the variables. *)
Lemma getResourcePaths_eq (σ : RangeOrder string) (profileDefs ruleDefs : Document)
    (profile : string) (ov : option (gmap string string)) :
  getResourcePaths σ profileDefs ruleDefs profile ov
  = (flat_map (pathsOfCheck (Rules ruleDefs)
                 (overrideValues σ ov (definedValues ruleDefs profileDefs)))
              (selectedChecksOf profileDefs profile),
     overrideValues σ ov (definedValues ruleDefs profileDefs)).
Proof.
  unfold getResourcePaths. destruct (Rules ruleDefs) as [|rule rules]; [|reflexivity].
  simpl. now rewrite pathsOfCheck_no_rules.
Qed.

Lemma getResourcePaths_order (σ1 σ2 : RangeOrder string) (profileDefs ruleDefs : Document)
    (profile : string) (ov : option (gmap string string)) :
  valid_order σ1 → valid_order σ2 →
  getResourcePaths σ1 profileDefs ruleDefs profile ov
  = getResourcePaths σ2 profileDefs ruleDefs profile ov.
Proof.
  intros H1 H2. unfold getResourcePaths.
  now rewrite (overrideValues_order σ1 σ2 ov _ H1 H2).
Qed.

End WithUtils.
End DiscoveryFacts.

Module DiscoveryTheorems.
Import Terms.
Import GoStrings GoStringsFacts GoErrors Xccdf Discovery DiscoveryFacts.

(** C1: for every pair of documents and every cluster that lists its
    nodes, the paths of [FigureResources] start with the fixed paths, among
    them the version and the base configuration object, followed by one
    kubelet configuration path per (role, node) pair that the labels of
    the nodes give; these two blocks do not depend on the documents or on
    the profile, and different pairs have different paths. *)
Theorem FigureResources_fixed_and_kubelet_paths `{Utils}
    (σr : RangeOrder (list string)) (σv : RangeOrder string)
    (c : scapContentDataStream) (profile : string) (items : list Node) :
  valid_order σr → clientListNodes c = inr items →
  ∃ profilePaths : list ResourcePath,
    FigureResources σr σv c profile
    = inr (fixedPaths ++ getKubeletConfigResourcePath σr (roleNodesOf items) ++ profilePaths)
    ∧ In (mkResourcePath "/version" "/version" "") fixedPaths
    ∧ In (mkResourcePath "/apis/config.openshift.io/v1/clusteroperators/openshift-apiserver"
                         "/apis/config.openshift.io/v1/clusteroperators/openshift-apiserver" "")
         fixedPaths
    ∧ getKubeletConfigResourcePath σr (roleNodesOf items)
      ≡ₚ map (fun p => kubeletConfigPath p.1 p.2) (rolePairs items)
    ∧ (∀ role node role' node',
          kubeletConfigPath role node = kubeletConfigPath role' node' →
          (role, node) = (role', node')).
Proof.
  intros Hσ Hitems. eexists. split; [|split; [|split; [|split]]].
  - rewrite (FigureResources_unfold σr σv c profile items Hσ Hitems).
    unfold stagedPaths. rewrite <- app_assoc. reflexivity.
  - simpl. auto.
  - simpl. auto.
  - now apply getKubeletConfigResourcePath_perm.
  - intros role node role' node' E. apply kubeletConfigPath_inj in E as [-> ->]. reflexivity.
Qed.

Lemma FigureResources_fixed_and_kubelet_paths_witness :
  ∃ profilePaths : list ResourcePath,
    @FigureResources Demo.demoUtils key_order key_order Demo.demoContent "T"
    = inr (fixedPaths
           ++ @getKubeletConfigResourcePath key_order (@roleNodesOf Demo.demoUtils Demo.demoNodes)
           ++ profilePaths)
    ∧ In (mkResourcePath "/version" "/version" "") fixedPaths
    ∧ In (mkResourcePath "/apis/config.openshift.io/v1/clusteroperators/openshift-apiserver"
                         "/apis/config.openshift.io/v1/clusteroperators/openshift-apiserver" "")
         fixedPaths
    ∧ @getKubeletConfigResourcePath key_order (@roleNodesOf Demo.demoUtils Demo.demoNodes)
      ≡ₚ map (fun p => kubeletConfigPath p.1 p.2) (@rolePairs Demo.demoUtils Demo.demoNodes)
    ∧ (∀ role node role' node',
          kubeletConfigPath role node = kubeletConfigPath role' node' →
          (role, node) = (role', node')).
Proof.
  apply (@FigureResources_fixed_and_kubelet_paths Demo.demoUtils key_order key_order
           Demo.demoContent "T" Demo.demoNodes).
  - apply valid_key_order.
  - reflexivity.
Defined.

(** C5: the overrides of the tailoring overwrite the ids that the table
    built from the documents has and insert no id: whatever the order of
    the range, the resolved table has the ids of the table it started
    from, an id takes the value of its override when there is one, and
    the table (A:1) with the overrides (A:2, B:3) resolves to (A:2). *)
Theorem tailoring_overrides_never_insert `{Utils} (σ : RangeOrder string)
    (profileDefs ruleDefs : Document) (profile : string) (ov : gmap string string) :
  valid_order σ →
  dom (getResourcePaths σ profileDefs ruleDefs profile (Some ov)).2
  = dom (definedValues ruleDefs profileDefs)
  ∧ (∀ k v, definedValues ruleDefs profileDefs !! k = Some v →
        (getResourcePaths σ profileDefs ruleDefs profile (Some ov)).2 !! k
        = Some (default v (ov !! k)))
  ∧ (∀ k, definedValues ruleDefs profileDefs !! k = None →
        (getResourcePaths σ profileDefs ruleDefs profile (Some ov)).2 !! k = None)
  ∧ overrideValues σ (Some {[ "A" := "2"; "B" := "3" ]}) {[ "A" := "1" ]}
    = ({[ "A" := "2" ]} : gmap string string).
Proof.
  intros Hσ.
  assert (E : (getResourcePaths σ profileDefs ruleDefs profile (Some ov)).2
              = overrideValues σ (Some ov) (definedValues ruleDefs profileDefs)).
  { unfold getResourcePaths. now destruct (Nat.eqb _ 0). }
  rewrite E. split; [|split; [|split]].
  - apply set_eq. intros k. rewrite !elem_of_dom, overrideValues_lookup by exact Hσ.
    now rewrite fmap_is_Some.
  - intros k v Hk. now rewrite overrideValues_lookup, Hk.
  - intros k Hk. now rewrite overrideValues_lookup, Hk.
  - apply map_eq. intros k. rewrite overrideValues_lookup by exact Hσ.
    destruct (decide (k = "A")) as [->|Hne]; [reflexivity|].
    now rewrite !lookup_singleton_ne.
Qed.

Lemma tailoring_overrides_never_insert_witness :
  (@getResourcePaths Demo.demoUtils key_order Demo.demoBenchmark Demo.demoBenchmark "P"
     (Some {[ "A" := "2"; "B" := "3" ]})).2 !! "A" = Some "2"
  ∧ (@getResourcePaths Demo.demoUtils key_order Demo.demoBenchmark Demo.demoBenchmark "P"
       (Some {[ "A" := "2"; "B" := "3" ]})).2 !! "B" = None.
Proof.
  destruct (@tailoring_overrides_never_insert Demo.demoUtils key_order Demo.demoBenchmark
              Demo.demoBenchmark "P" {[ "A" := "2"; "B" := "3" ]} valid_key_order)
    as (_ & Hover & Hnone & _).
  split.
  - apply (Hover "A" "1"). reflexivity.
  - apply (Hnone "B"). reflexivity.
Defined.

Lemma selectedChecksOf_clearExtends (ds : Document) (profile : string) :
  selectedChecksOf (clearExtends ds) profile = selectedChecksOf ds profile.
Proof.
  unfold selectedChecksOf, clearExtends. simpl.
  induction (Profiles ds) as [|p l IH]; simpl; [reflexivity | now rewrite IH].
Qed.

Lemma getResourcePaths_clearExtends `{Utils} (σ : RangeOrder string) (pd rd : Document)
    (profile : string) (ov : option (gmap string string)) :
  getResourcePaths σ (clearExtends pd) (clearExtends rd) profile ov
  = getResourcePaths σ pd rd profile ov
  ∧ getResourcePaths σ pd (clearExtends rd) profile ov = getResourcePaths σ pd rd profile ov.
Proof.
  unfold getResourcePaths. rewrite selectedChecksOf_clearExtends. split; reflexivity.
Qed.

Lemma FigureResources_clearExtends `{Utils}
    (σr : RangeOrder (list string)) (σv : RangeOrder string)
    (c : scapContentDataStream) (profile : string) :
  FigureResources σr σv (withClearedBenchmark c) profile = FigureResources σr σv c profile.
Proof.
  unfold FigureResources, fetchNodesWithRole.
  change (clientListNodes (withClearedBenchmark c)) with (clientListNodes c).
  change (tailoring (withClearedBenchmark c)) with (tailoring c).
  change (dataStream (withClearedBenchmark c)) with (clearExtends (dataStream c)).
  destruct (clientListNodes c) as [err|its]; [reflexivity|].
  destruct (tailoring c) as [t'|].
  - rewrite (proj2 (getResourcePaths_clearExtends σv t' (dataStream c) profile None)).
    destruct (getResourcePaths σv t' (dataStream c) profile None) as [sel vals].
    destruct (String.eqb (getExtendedProfileFromTailoring t' profile) ""); [reflexivity|].
    now rewrite (proj1 (getResourcePaths_clearExtends σv (dataStream c) (dataStream c) _ _)).
  - now rewrite (proj1 (getResourcePaths_clearExtends σv (dataStream c) (dataStream c) _ _)).
Qed.

(** C6: with a tailoring, [FigureResources] takes the checks selected by
    the tailoring profile and then those of the benchmark profile that
    the tailoring profile extends.  Without an [extends] id the result has
    only the fixed, the kubelet and the tailoring paths.  A tailoring
    profile that extends [P] and selects nothing gives the paths of the
    checks that [P] selects in the benchmark, resolved with the table of
    the benchmark overridden by the table merged from both documents.
    Only one hop is taken: the [extends] attributes of the profiles of the
    benchmark are never read. *)
Theorem tailoring_extends_one_hop `{Utils}
    (σr : RangeOrder (list string)) (σv : RangeOrder string)
    (c : scapContentDataStream) (profile : string) (t : Document) (items : list Node) :
  valid_order σr → tailoring c = Some t → clientListNodes c = inr items →
  (getExtendedProfileFromTailoring t profile = "" →
     FigureResources σr σv c profile
     = inr (stagedPaths σr items ++ (getResourcePaths σv t (dataStream c) profile None).1))
  ∧ (getExtendedProfileFromTailoring t profile ≠ "" →
     FigureResources σr σv c profile
     = inr (stagedPaths σr items
            ++ (getResourcePaths σv t (dataStream c) profile None).1
            ++ (getResourcePaths σv (dataStream c) (dataStream c)
                  (getExtendedProfileFromTailoring t profile)
                  (Some (definedValues (dataStream c) t))).1))
  ∧ (getExtendedProfileFromTailoring t profile ≠ "" →
     selectedChecksOf t profile = [] →
     FigureResources σr σv c profile
     = inr (stagedPaths σr items
            ++ flat_map (pathsOfCheck (Rules (dataStream c)) (effectiveValues σv c profile))
                        (selectedChecksOf (dataStream c)
                                          (getExtendedProfileFromTailoring t profile)))
     ∧ effectiveValues σv c profile
       = overrideValues σv (Some (definedValues (dataStream c) t))
                        (definedValues (dataStream c) (dataStream c)))
  ∧ FigureResources σr σv (withClearedBenchmark c) profile = FigureResources σr σv c profile.
Proof.
  intros Hσ Ht Hitems.
  pose proof (FigureResources_unfold σr σv c profile items Hσ Hitems) as E.
  rewrite Ht in E. cbv zeta in E.
  assert (Evals : (getResourcePaths σv t (dataStream c) profile None).2
                  = definedValues (dataStream c) t).
  { unfold getResourcePaths. now destruct (Nat.eqb _ 0). }
  rewrite Evals in E.
  assert (Eeff : getExtendedProfileFromTailoring t profile ≠ "" →
                 effectiveValues σv c profile
                 = overrideValues σv (Some (definedValues (dataStream c) t))
                                  (definedValues (dataStream c) (dataStream c))).
  { intros Hne. unfold effectiveValues. rewrite Ht.
    destruct (getResourcePaths σv t (dataStream c) profile None) as [sel vals] eqn:E1.
    simpl in Evals. subst vals. apply String.eqb_neq in Hne. rewrite Hne.
    unfold getResourcePaths. now destruct (Nat.eqb _ 0). }
  split; [|split; [|split]].
  - intros Hnone. rewrite E, Hnone. reflexivity.
  - intros Hne. rewrite E. apply String.eqb_neq in Hne. now rewrite Hne.
  - intros Hne Hsel. split; [|now apply Eeff].
    rewrite E, (Eeff Hne). apply String.eqb_neq in Hne. rewrite Hne.
    rewrite !getResourcePaths_eq. cbn [fst]. now rewrite Hsel.
  - apply FigureResources_clearExtends.
Qed.

Lemma tailoring_extends_one_hop_witness :
  @FigureResources Demo.demoUtils key_order key_order Demo.demoContent "T"
  = inr (@stagedPaths Demo.demoUtils key_order Demo.demoNodes
         ++ flat_map (@pathsOfCheck Demo.demoUtils (Rules Demo.demoBenchmark)
                        (@effectiveValues Demo.demoUtils key_order Demo.demoContent "T"))
                     (selectedChecksOf Demo.demoBenchmark "P"))
  ∧ @effectiveValues Demo.demoUtils key_order Demo.demoContent "T"
    = @overrideValues key_order
        (Some (@definedValues Demo.demoUtils Demo.demoBenchmark Demo.demoTailoring))
        (@definedValues Demo.demoUtils Demo.demoBenchmark Demo.demoBenchmark).
Proof.
  destruct (@tailoring_extends_one_hop Demo.demoUtils key_order key_order Demo.demoContent
              "T" Demo.demoTailoring Demo.demoNodes valid_key_order eq_refl eq_refl)
    as (_ & _ & Hext & _).
  apply Hext.
  - discriminate.
  - reflexivity.
Defined.

(** C8, as the claim states it, fails: two runs over the same documents
    and the same nodes can list the kubelet paths in different orders,
    because the roles are visited in the order of a range over a map. *)
Lemma discovery_order_can_differ :
  ¬ (∀ (U : Utils) (σr1 σr2 : RangeOrder (list string)) (σv1 σv2 : RangeOrder string)
       (c : scapContentDataStream) (profile : string),
        valid_order σr1 → valid_order σr2 → valid_order σv1 → valid_order σv2 →
        FigureResources σr1 σv1 c profile = FigureResources σr2 σv2 c profile).
Proof.
  intros Hclaim.
  specialize (Hclaim Demo.demoUtils key_order rev_key_order key_order key_order
                Demo.twoRoleContent "P"
                valid_key_order valid_rev_key_order valid_key_order valid_key_order).
  vm_compute in Hclaim. discriminate Hclaim.
Qed.

(** C8 (amended): two runs of [FigureResources] over the same documents
    and the same nodes end both with the same error, or give the same
    variable table and two lists of paths that are permutations of each
    other: the fixed paths first, then the kubelet paths, the same paths
    in both runs but in the order in which each run visits the roles,
    then the same paths of the profile in the same order.  The lists are
    equal when both runs visit the roles in the same order. *)
Theorem discovery_runs_agree_up_to_role_order `{Utils}
    (σr1 σr2 : RangeOrder (list string)) (σv1 σv2 : RangeOrder string)
    (c : scapContentDataStream) (profile : string) :
  valid_order σr1 → valid_order σr2 → valid_order σv1 → valid_order σv2 →
  effectiveValues σv1 c profile = effectiveValues σv2 c profile
  ∧ match FigureResources σr1 σv1 c profile, FigureResources σr2 σv2 c profile with
    | inr found1, inr found2 =>
        found1 ≡ₚ found2
        ∧ ∃ kubelet1 kubelet2 rest,
            found1 = fixedPaths ++ kubelet1 ++ rest
            ∧ found2 = fixedPaths ++ kubelet2 ++ rest
            ∧ kubelet1 ≡ₚ kubelet2
            ∧ (∀ items, clientListNodes c = inr items →
                 kubelet1 = getKubeletConfigResourcePath σr1 (roleNodesOf items)
                 ∧ kubelet2 = getKubeletConfigResourcePath σr2 (roleNodesOf items)
                 ∧ (σr1 (roleNodesOf items) = σr2 (roleNodesOf items) → found1 = found2))
    | inl err1, inl err2 => err1 = err2
    | _, _ => False
    end.
Proof.
  intros Hr1 Hr2 Hv1 Hv2. split.
  - unfold effectiveValues. destruct (tailoring c) as [t|].
    + rewrite (getResourcePaths_order σv1 σv2 t _ _ None Hv1 Hv2).
      destruct (getResourcePaths σv2 t (dataStream c) profile None) as [sel vals].
      destruct (String.eqb _ ""); [reflexivity|].
      now rewrite (getResourcePaths_order σv1 σv2 _ _ _ _ Hv1 Hv2).
    + now rewrite (getResourcePaths_order σv1 σv2 _ _ _ _ Hv1 Hv2).
  - destruct (clientListNodes c) as [err|items] eqn:Hitems.
    + unfold FigureResources, fetchNodesWithRole. rewrite Hitems. reflexivity.
    + rewrite (FigureResources_unfold σr1 σv1 c profile items Hr1 Hitems).
      rewrite (FigureResources_unfold σr2 σv2 c profile items Hr2 Hitems).
      set (rest1 := match tailoring c with Some t => _ | None => _ end).
      set (rest2 := match tailoring c with Some t => _ | None => _ end).
      assert (Erest : rest1 = rest2).
      { subst rest1 rest2. destruct (tailoring c) as [t|]; cbv zeta.
        - rewrite (getResourcePaths_order σv1 σv2 t _ _ None Hv1 Hv2).
          destruct (String.eqb _ ""); [reflexivity|].
          now rewrite (getResourcePaths_order σv1 σv2 _ _ _ _ Hv1 Hv2).
        - now rewrite (getResourcePaths_order σv1 σv2 _ _ _ _ Hv1 Hv2). }
      rewrite Erest. clearbody rest2. clear rest1 Erest.
      assert (Hperm : getKubeletConfigResourcePath σr1 (roleNodesOf items)
                      ≡ₚ getKubeletConfigResourcePath σr2 (roleNodesOf items)).
      { rewrite (getKubeletConfigResourcePath_perm σr1 items Hr1).
        now rewrite (getKubeletConfigResourcePath_perm σr2 items Hr2). }
      unfold stagedPaths. split.
      * apply Permutation_app_tail, Permutation_app_head, Hperm.
      * exists (getKubeletConfigResourcePath σr1 (roleNodesOf items)),
               (getKubeletConfigResourcePath σr2 (roleNodesOf items)), rest2.
        rewrite <- !app_assoc.
        split; [reflexivity|]. split; [reflexivity|]. split; [exact Hperm|].
        intros items' [= <-]. split; [reflexivity|]. split; [reflexivity|].
        intros Eorder. unfold getKubeletConfigResourcePath. now rewrite Eorder.
Qed.

Lemma discovery_runs_agree_up_to_role_order_witness :
  @effectiveValues Demo.demoUtils key_order Demo.twoRoleContent "P"
  = @effectiveValues Demo.demoUtils rev_key_order Demo.twoRoleContent "P"
  ∧ match @FigureResources Demo.demoUtils key_order key_order Demo.twoRoleContent "P",
          @FigureResources Demo.demoUtils rev_key_order rev_key_order Demo.twoRoleContent "P"
    with
    | inr found1, inr found2 =>
        found1 ≡ₚ found2
        ∧ ∃ kubelet1 kubelet2 rest,
            found1 = fixedPaths ++ kubelet1 ++ rest
            ∧ found2 = fixedPaths ++ kubelet2 ++ rest
            ∧ kubelet1 ≡ₚ kubelet2
            ∧ (∀ items, clientListNodes Demo.twoRoleContent = inr items →
                 kubelet1 = getKubeletConfigResourcePath key_order
                              (@roleNodesOf Demo.demoUtils items)
                 ∧ kubelet2 = getKubeletConfigResourcePath rev_key_order
                                (@roleNodesOf Demo.demoUtils items)
                 ∧ (key_order (@roleNodesOf Demo.demoUtils items)
                    = rev_key_order (@roleNodesOf Demo.demoUtils items) → found1 = found2))
    | inl err1, inl err2 => err1 = err2
    | _, _ => False
    end.
Proof.
  apply (@discovery_runs_agree_up_to_role_order Demo.demoUtils key_order rev_key_order
           key_order rev_key_order Demo.twoRoleContent "P");
    first [ apply valid_key_order | apply valid_rev_key_order ].
Defined.

Example demo_discovery :
  @FigureResources Demo.demoUtils key_order key_order Demo.demoContent "T"
  = inr (fixedPaths
         ++ [kubeletConfigPath "worker" "w-0"; kubeletConfigPath "worker" "w-1";
             kubeletConfigPath "master" "m-0"]
         ++ [mkResourcePath "2" "2" ""]).
Proof. vm_compute. reflexivity. Qed.

End DiscoveryTheorems.

(** ** Fetching *)

Module FetchFacts.
Import Terms.
Import GoStrings GoStringsFacts GoErrors Discovery DiscoveryFacts Fetch.

Section WithLibraries.
Context `{FilterEngine} `{Streamer} `{JsonDiff}.

Lemma fetchLoop_app (pre post : list ResourcePath) (st : gmap string string * list string) :
  fetchLoop (pre ++ post) st
  = match fetchLoop pre st with
    | inl e => inl e
    | inr st' => fetchLoop post st'
    end.
Proof.
  revert st. induction pre as [|rpath pre IH]; intros st; simpl; [reflexivity|].
  destruct (fetchOne rpath st) as [err|st']; [reflexivity | apply IH].
Qed.

(** An error of one path ends the whole run: no map, the warnings so far,
    and the error. *)
Lemma fetch_aborts (σ : RangeOrder string) (pre post : list ResourcePath) (rpath : ResourcePath)
    (st : gmap string string * list string) (err : error) :
  fetchLoop pre (∅, []) = inr st → fetchOne rpath st = inl err →
  fetch σ (pre ++ rpath :: post) = (None, st.2, Some err).
Proof.
  intros Hpre Hone. unfold fetch. rewrite fetchLoop_app, Hpre. simpl. now rewrite Hone.
Qed.

(** A path that succeeds hands its state to the rest of the loop. *)
Lemma fetchLoop_continues (rpath : ResourcePath) (rest : list ResourcePath)
    (st st' : gmap string string * list string) :
  fetchOne rpath st = inr st' → fetchLoop (rpath :: rest) st = fetchLoop rest st'.
Proof. intros Hone. simpl. now rewrite Hone. Qed.

Lemma saveConsistentKubeletResult_empty (σ : RangeOrder string) (warning : list string) :
  saveConsistentKubeletResult σ ∅ warning = (Some ∅, warning, None).
Proof. reflexivity. Qed.

End WithLibraries.
End FetchFacts.

Module FetchTheorems.
Import Terms.
Import GoStrings GoStringsFacts GoErrors Discovery DiscoveryFacts Fetch FetchFacts.

(** C3: for a path with a filter whose body is not empty, when the filter
    parses and the body decodes: one value of the filter is stored at the
    DumpPath as it is encoded and nothing is warned; two or more values
    store the first one and append exactly one warning about more than one
    object, and the loop goes on with the next path; no value is an error
    of the path, which ends the run with no map. *)
Theorem filter_contract `{FilterEngine} `{Streamer} `{JsonDiff}
    (rpath : ResourcePath) (body : string) (q : Query) (obj : JsonObject)
    (results : gmap string string) (warnings : list string) :
  Stream (ObjPath rpath) = Body body → String.length body ≠ 0 → Filter rpath ≠ "" →
  gojq_Parse (Filter rpath) = inr q → json_Unmarshal body = inr obj →
  (∀ v out, gojq_Run q obj = [inr v] → json_Marshal v = inr out →
      fetchOne rpath (results, warnings) = inr (<[DumpPath rpath := out]> results, warnings))
  ∧ (∀ v second more out, gojq_Run q obj = inr v :: second :: more → json_Marshal v = inr out →
      fetchOne rpath (results, warnings)
      = inr (<[DumpPath rpath := out]> results, warnings ++ [moreThanOneWarning (Filter rpath)])
      ∧ ∀ rest, fetchLoop (rpath :: rest) (results, warnings)
                = fetchLoop rest (<[DumpPath rpath := out]> results,
                                  warnings ++ [moreThanOneWarning (Filter rpath)]))
  ∧ (gojq_Run q obj = [] →
      ∃ err, fetchOne rpath (results, warnings) = inl err
             ∧ ∀ σ pre post, fetchLoop pre (∅, []) = inr (results, warnings) →
                 fetch σ (pre ++ rpath :: post) = (None, warnings, Some err)).
Proof.
  intros Hstream Hlen Hflt Hparse Hdec.
  apply Nat.eqb_neq in Hlen. apply String.eqb_neq in Hflt.
  assert (Hone : fetchOne rpath (results, warnings)
                 = let '(filteredBody, filterErr) := filter body (Filter rpath) in
                   match filterErr with
                   | Some fe =>
                       if Is_MoreThanOneObjErr fe
                       then inr (<[DumpPath rpath := filteredBody]> results, warnings ++ [Error fe])
                       else inl (Wrapf ("couldn't filter '" +:+ body +:+ "': ") fe "")
                   | None => inr (<[DumpPath rpath := filteredBody]> results, warnings)
                   end).
  { unfold fetchOne. now rewrite Hstream, Hlen, Hflt. }
  assert (Hfilter : filter body (Filter rpath)
                    = match gojq_Run q obj with
                      | [] => ("", Some (New "couldn't get filtered object"))
                      | inl err :: _ => ("", Some err)
                      | inr v :: more =>
                          match json_Marshal v with
                          | inl marshallErr =>
                              ("", Some (Wrapf "Error marshalling json: " marshallErr ""))
                          | inr out =>
                              match more with
                              | _ :: _ =>
                                  (out, Some (Wrapf ("Skipping extra results from filter '"
                                                     +:+ Filter rpath +:+ "': ")
                                                    MoreThanOneObjErr ""))
                              | [] => (out, None)
                              end
                          end
                      end).
  { unfold filter. now rewrite Hparse, Hdec. }
  rewrite Hfilter in Hone. split; [|split].
  - intros v out Hrun Hmar. rewrite Hone, Hrun, Hmar. reflexivity.
  - intros v second more out Hrun Hmar.
    assert (E : fetchOne rpath (results, warnings)
                = inr (<[DumpPath rpath := out]> results,
                       warnings ++ [moreThanOneWarning (Filter rpath)])).
    { rewrite Hone, Hrun, Hmar. cbn [Is_MoreThanOneObjErr Error].
      unfold moreThanOneWarning. now rewrite append_empty_r, !append_assoc. }
    split; [exact E|]. intros rest. now apply fetchLoop_continues.
  - intros Hrun. eexists. split.
    + rewrite Hone, Hrun. reflexivity.
    + intros σ pre post Hpre.
      apply (fetch_aborts σ pre post rpath (results, warnings)); [exact Hpre|].
      rewrite Hone, Hrun. reflexivity.
Qed.

Lemma filter_contract_witness :
  @fetchOne DemoFetch.demoFilter DemoFetch.demoStreamer
    (mkResourcePath "/one" "/dump/one" ".") (∅, [])
  = inr ({[ "/dump/one" := "{/one}" ]}, [])
  ∧ @fetchOne DemoFetch.demoFilter DemoFetch.demoStreamer
      (mkResourcePath "/two" "/dump/two" ".,.") (∅, [])
    = inr ({[ "/dump/two" := "{/two}" ]}, [moreThanOneWarning ".,."])
  ∧ ∃ err, @fetchOne DemoFetch.demoFilter DemoFetch.demoStreamer
             (mkResourcePath "/none" "/dump/none" "empty") (∅, []) = inl err
           ∧ ∀ σ pre post,
               @fetchLoop DemoFetch.demoFilter DemoFetch.demoStreamer pre (∅, []) = inr (∅, []) →
               @fetch DemoFetch.demoFilter DemoFetch.demoStreamer DemoFetch.demoJsonDiff σ
                 (pre ++ mkResourcePath "/none" "/dump/none" "empty" :: post)
               = (None, [], Some err).
Proof.
  split; [|split].
  - destruct (@filter_contract DemoFetch.demoFilter DemoFetch.demoStreamer DemoFetch.demoJsonDiff
                (mkResourcePath "/one" "/dump/one" ".") "{/one}" "." "{/one}" ∅ []
                eq_refl ltac:(discriminate) ltac:(discriminate) eq_refl eq_refl)
      as (Hone & _ & _).
    apply (Hone "{/one}" "{/one}"); reflexivity.
  - destruct (@filter_contract DemoFetch.demoFilter DemoFetch.demoStreamer DemoFetch.demoJsonDiff
                (mkResourcePath "/two" "/dump/two" ".,.") "{/two}" ".,." "{/two}" ∅ []
                eq_refl ltac:(discriminate) ltac:(discriminate) eq_refl eq_refl)
      as (_ & Htwo & _).
    apply (Htwo "{/two}" (inr "{/two}") [] "{/two}"); reflexivity.
  - destruct (@filter_contract DemoFetch.demoFilter DemoFetch.demoStreamer DemoFetch.demoJsonDiff
                (mkResourcePath "/none" "/dump/none" "empty") "{/none}" "empty" "{/none}" ∅ []
                eq_refl ltac:(discriminate) ltac:(discriminate) eq_refl eq_refl)
      as (_ & _ & Hnone).
    apply Hnone. reflexivity.
Defined.

(** The error policy of the loop of [fetch]: a path whose streaming fails
    with not-found, forbidden or no-match appends one warning and the loop
    goes on with the next paths; for not-found the map of the loop gets the
    error marker at the DumpPath of the path, for the two others the map is
    left as it is.  Any other error of the streaming, and an error of the
    reading, ends the run with the error and no map.  What the
    reconciliation at the end of [fetch] makes of a marker is not part of
    this statement. *)
Theorem fetch_error_policy `{FilterEngine} `{Streamer} `{JsonDiff}
    (rpath : ResourcePath) (results : gmap string string) (warnings : list string) :
  (∀ e, Stream (ObjPath rpath) = StreamFailed e →
        IsNoMatchError e || IsForbidden e || IsNotFound e = true →
        let results' :=
          if IsNotFound e
          then <[DumpPath rpath := "# kube-api-error=" +:+ ReasonForError e]> results
          else results in
        fetchOne rpath (results, warnings)
        = inr (results', warnings ++ [couldNotFetch (ObjPath rpath) e])
        ∧ ∀ rest, fetchLoop (rpath :: rest) (results, warnings)
                  = fetchLoop rest (results', warnings ++ [couldNotFetch (ObjPath rpath) e]))
  ∧ (∀ e, Stream (ObjPath rpath) = StreamFailed e →
        IsNoMatchError e || IsForbidden e || IsNotFound e = false →
        fetchOne rpath (results, warnings)
        = inl (Wrapf "streaming URIs failed: " (External e) "")
        ∧ ∀ σ pre post, fetchLoop pre (∅, []) = inr (results, warnings) →
            fetch σ (pre ++ rpath :: post)
            = (None, warnings, Some (Wrapf "streaming URIs failed: " (External e) "")))
  ∧ (∀ err, Stream (ObjPath rpath) = ReadFailed err →
        fetchOne rpath (results, warnings) = inl err
        ∧ ∀ σ pre post, fetchLoop pre (∅, []) = inr (results, warnings) →
            fetch σ (pre ++ rpath :: post) = (None, warnings, Some err)).
Proof.
  split; [|split].
  - intros e Hstream Hsoft. cbv zeta.
    assert (E : fetchOne rpath (results, warnings)
                = inr (if IsNotFound e
                       then <[DumpPath rpath := "# kube-api-error=" +:+ ReasonForError e]> results
                       else results,
                       warnings ++ [couldNotFetch (ObjPath rpath) e])).
    { unfold fetchOne. rewrite Hstream, Hsoft. cbn [Error]. unfold couldNotFetch.
      rewrite append_empty_r, !append_assoc. now destruct (IsNotFound e). }
    split; [exact E|]. intros rest. now apply fetchLoop_continues.
  - intros e Hstream Hhard.
    assert (E : fetchOne rpath (results, warnings)
                = inl (Wrapf "streaming URIs failed: " (External e) "")).
    { unfold fetchOne. now rewrite Hstream, Hhard. }
    split; [exact E|]. intros σ pre post Hpre.
    now apply (fetch_aborts σ pre post rpath (results, warnings)).
  - intros err Hstream.
    assert (E : fetchOne rpath (results, warnings) = inl err).
    { unfold fetchOne. now rewrite Hstream. }
    split; [exact E|]. intros σ pre post Hpre.
    now apply (fetch_aborts σ pre post rpath (results, warnings)).
Qed.

Lemma fetch_error_policy_witness :
  @fetchLoop DemoFetch.demoFilter DemoFetch.demoStreamer
    [mkResourcePath "/missing" "/dump/missing" ""; mkResourcePath "/forbidden" "/dump/forbidden" "";
     mkResourcePath "/version" "/version" ""] (∅, [])
  = inr ({[ "/dump/missing" := "# kube-api-error=NotFound"; "/version" := "{/version}" ]},
         [couldNotFetch "/missing" DemoFetch.notFoundErr;
          couldNotFetch "/forbidden" DemoFetch.forbiddenErr])
  ∧ @fetch DemoFetch.demoFilter DemoFetch.demoStreamer DemoFetch.demoJsonDiff key_order
      ([mkResourcePath "/version" "/version" ""]
       ++ mkResourcePath "/timeout" "/dump/timeout" "" :: [mkResourcePath "/one" "/one" ""])
    = (None, [], Some (Wrapf "streaming URIs failed: " (External DemoFetch.timeoutErr) "")).
Proof.
  split.
  - destruct (@fetch_error_policy DemoFetch.demoFilter DemoFetch.demoStreamer
                DemoFetch.demoJsonDiff (mkResourcePath "/missing" "/dump/missing" "") ∅ [])
      as (Hsoft & _ & _).
    destruct (Hsoft DemoFetch.notFoundErr eq_refl eq_refl) as [_ Hnext].
    rewrite Hnext. vm_compute. reflexivity.
  - destruct (@fetch_error_policy DemoFetch.demoFilter DemoFetch.demoStreamer
                DemoFetch.demoJsonDiff (mkResourcePath "/timeout" "/dump/timeout" "")
                {[ "/version" := "{/version}" ]} [])
      as (_ & Hhard & _).
    destruct (Hhard DemoFetch.timeoutErr eq_refl eq_refl) as [_ Habort].
    apply Habort. reflexivity.
Defined.

(** C9: a path that streams an empty body leaves the map and the warnings
    as they are, whatever its filter and whatever the filter language
    does; the loop goes on with the next path, and a run of this path
    alone returns the empty map and no warning. *)
Theorem empty_body_records_nothing `{FilterEngine} `{Streamer} `{JsonDiff}
    (rpath : ResourcePath) (body : string)
    (results : gmap string string) (warnings : list string) :
  Stream (ObjPath rpath) = Body body → String.length body = 0 →
  fetchOne rpath (results, warnings) = inr (results, warnings)
  ∧ (∀ engine : FilterEngine,
        @fetchOne engine _ rpath (results, warnings) = inr (results, warnings))
  ∧ (∀ rest, fetchLoop (rpath :: rest) (results, warnings) = fetchLoop rest (results, warnings))
  ∧ (∀ σ, fetch σ [rpath] = (Some ∅, [], None)).
Proof.
  intros Hstream Hlen.
  assert (E : ∀ (engine : FilterEngine) st, @fetchOne engine _ rpath st = inr st).
  { intros engine [r w]. unfold fetchOne. rewrite Hstream, Hlen. reflexivity. }
  split; [apply E|]. split; [intros engine; apply E|]. split.
  - intros rest. apply fetchLoop_continues, E.
  - intros σ. unfold fetch. cbn [fetchLoop]. rewrite E. reflexivity.
Qed.

Lemma empty_body_records_nothing_witness :
  @fetchOne DemoFetch.demoFilter DemoFetch.demoStreamer
    (mkResourcePath "/empty" "/dump/empty" ".") ({[ "/version" := "v" ]}, ["w"])
  = inr ({[ "/version" := "v" ]}, ["w"])
  ∧ @fetchOne DemoFetch.brokenFilter DemoFetch.demoStreamer
      (mkResourcePath "/empty" "/dump/empty" ".") ({[ "/version" := "v" ]}, ["w"])
    = inr ({[ "/version" := "v" ]}, ["w"])
  ∧ @fetch DemoFetch.demoFilter DemoFetch.demoStreamer DemoFetch.demoJsonDiff key_order
      [mkResourcePath "/empty" "/dump/empty" "."] = (Some ∅, [], None).
Proof.
  destruct (@empty_body_records_nothing DemoFetch.demoFilter DemoFetch.demoStreamer
              DemoFetch.demoJsonDiff (mkResourcePath "/empty" "/dump/empty" ".") ""
              {[ "/version" := "v" ]} ["w"] eq_refl eq_refl)
    as (Hone & Hany & _ & _).
  destruct (@empty_body_records_nothing DemoFetch.demoFilter DemoFetch.demoStreamer
              DemoFetch.demoJsonDiff (mkResourcePath "/empty" "/dump/empty" ".") ""
              ∅ [] eq_refl eq_refl)
    as (_ & _ & _ & Hrun).
  split; [exact Hone|]. split; [exact (Hany DemoFetch.brokenFilter) | exact (Hrun key_order)].
Defined.

End FetchTheorems.

(** ** Reconciliation of the kubelet configurations *)

Module ReconcileFacts.
Import Terms.
Import GoStrings GoStringsFacts GoErrors Discovery DiscoveryFacts Fetch FetchFacts.

(** The DumpPath of the node of a role is read back as this role and this
    node, when neither name has a slash. *)
Lemma getRoleNodeNameFromDumpPath_node (role node : string) :
  no_slash role = true → no_slash node = true →
  getRoleNodeNameFromDumpPath (kubeletConfigPathPrefix +:+ role +:+ "/" +:+ node)
  = (role, node).
Proof.
  intros Hr Hn. unfold getRoleNodeNameFromDumpPath.
  rewrite HasPrefix_append. unfold Split_slash, kubeletConfigPathPrefix.
  sapp. change (SplitOn slash (String "/" ?t)) with ("" :: SplitOn slash t).
  change (String "k" ?t) with ("kubeletconfig" +:+ String slash
            (role +:+ "/" +:+ node)).
  rewrite SplitOn_sep by reflexivity.
  change ("/" +:+ node) with (String slash node).
  rewrite SplitOn_sep by exact Hr. rewrite no_slash_SplitOn by exact Hn. reflexivity.
Qed.

(** A role-level key is read as a node of the role named [role], or as no
    kubelet configuration at all. *)
Lemma getRoleNodeNameFromDumpPath_roleKey (r : string) :
  (getRoleNodeNameFromDumpPath (kubeletConfigRolePathPrefix +:+ r)).1 = "role"
  ∨ (getRoleNodeNameFromDumpPath (kubeletConfigRolePathPrefix +:+ r)).1 = "".
Proof.
  unfold getRoleNodeNameFromDumpPath.
  destruct (HasPrefix _ _); [|now right].
  unfold Split_slash, kubeletConfigRolePathPrefix. sapp.
  change (SplitOn slash (String "/" ?t)) with ("" :: SplitOn slash t).
  change (String "k" ?t) with ("kubeletconfig" +:+ String slash ("role" +:+ String slash r)).
  rewrite SplitOn_sep by reflexivity. rewrite SplitOn_sep by reflexivity.
  destruct (SplitOn slash r) as [|x [|y l]]; simpl; auto.
Qed.

Example getRoleNodeNameFromDumpPath_examples :
  map getRoleNodeNameFromDumpPath
      ["/kubeletconfig/master/node-1"; "/kubeletconfig/role/master"; "/version";
       "/kubeletconfig/master"; "/kubeletconfig/master/a/b"]
  = [("master", "node-1"); ("role", "master"); ("", ""); ("", ""); ("", "")].
Proof. reflexivity. Qed.

Lemma roleKey_inj (r r' : string) :
  kubeletConfigRolePathPrefix +:+ r = kubeletConfigRolePathPrefix +:+ r' → r = r'.
Proof. apply append_inj_l. Qed.

Lemma elem_of_valid_order {V : Type} (σ : RangeOrder V) (m : gmap string V) (k : string) (v : V) :
  valid_order σ → (k, v) ∈ σ m ↔ m !! k = Some v.
Proof. intros Hσ. rewrite (Hσ m). apply elem_of_map_to_list. Qed.

Section WithJsonDiff.
Context `{JsonDiff}.

(** The second loop writes the role-level keys of the roles it visits,
    and no other key. *)
Lemma fold_saveRole_other (l : list (string * string)) (res : gmap string string) (k : string) :
  (∀ role content, (role, content) ∈ l → role ≠ "" → k ≠ kubeletConfigRolePathPrefix +:+ role) →
  fold_left saveRole l res !! k = res !! k.
Proof.
  revert res. induction l as [|[role content] l IH]; intros res Hk; simpl; [reflexivity|].
  rewrite IH.
  - unfold saveRole. simpl. destruct (String.eqb role "") eqn:E; [reflexivity|].
    apply String.eqb_neq in E. rewrite lookup_insert_ne; [reflexivity|].
    intros Heq. apply (Hk role content); [left | exact E | now symmetry].
  - intros role' content' Hin. apply (Hk role' content'). now right.
Qed.

Lemma fold_saveRole_role (l : list (string * string)) (res : gmap string string)
    (role content : string) :
  NoDup l.*1 → (role, content) ∈ l → role ≠ "" →
  fold_left saveRole l res !! (kubeletConfigRolePathPrefix +:+ role) = Some content.
Proof.
  revert res. induction l as [|[role' content'] l IH]; intros res Hnd Hin Hne.
  - now apply elem_of_nil in Hin.
  - simpl in Hnd. apply NoDup_cons in Hnd as [Hnotin Hnd].
    apply elem_of_cons in Hin as [[= <- <-]|Hin]; simpl.
    + rewrite fold_saveRole_other.
      * unfold saveRole. simpl. apply String.eqb_neq in Hne. rewrite Hne.
        apply lookup_insert_eq.
      * intros r c Hrc _ Heq. apply roleKey_inj in Heq. subst r.
        apply Hnotin. apply list_elem_of_fmap. now exists (role, c).
    + now apply IH.
Qed.

(** One step of the first loop on the node of a role: the first node of
    the role gives the baseline; a node equal to the baseline changes
    nothing; a node that differs appends one warning with its name and the
    role and leaves the intersection as the baseline. *)
Lemma reconcileOne_node (roles : gmap string string) (warning : list string)
    (dumpPath content role node : string) :
  getRoleNodeNameFromDumpPath dumpPath = (role, node) → role ≠ "" →
  reconcileOne (roles, warning) (dumpPath, content)
  = match roles !! role with
    | None => inr (<[role := content]> roles, warning)
    | Some existingKC =>
        match CompareJSON existingKC content with
        | inl err => inl (Wrapf "couldn't compare kubelet configs: " err (" for " +:+ node))
        | inr None => inr (roles, warning)
        | inr (Some diff) =>
            match JSONIntersection existingKC content with
            | inl err =>
                inl (Wrapf "couldn't get intersection of kubelet configs: " err
                           (" for " +:+ node))
            | inr intersectionKC =>
                inr (<[role := intersectionKC]> roles,
                     warning ++ [inconsistencyWarning node role (PatchString diff)])
            end
        end
    end.
Proof.
  intros Hparse Hne. unfold reconcileOne. rewrite Hparse.
  apply String.eqb_neq in Hne. rewrite Hne. reflexivity.
Qed.

Lemma reconcileOne_other (st : gmap string string * list string) (dumpPath content : string) :
  (getRoleNodeNameFromDumpPath dumpPath).1 = "" →
  reconcileOne st (dumpPath, content) = inr st.
Proof.
  intros Hparse. unfold reconcileOne. destruct st as [roles warning].
  destruct (getRoleNodeNameFromDumpPath dumpPath) as [role node]. simpl in Hparse.
  now subst role.
Qed.

(** The roles with a baseline after one step are those before it and the
    role of the entry; the warnings only grow. *)
Lemma reconcileOne_roles (st st' : gmap string string * list string) (entry : string * string) :
  reconcileOne st entry = inr st' →
  (∀ role, is_Some (st'.1 !! role) →
      is_Some (st.1 !! role)
      ∨ (role ≠ "" ∧ (getRoleNodeNameFromDumpPath entry.1).1 = role))
  ∧ ∃ added, st'.2 = st.2 ++ added.
Proof.
  destruct st as [roles warning], entry as [dumpPath content].
  destruct (getRoleNodeNameFromDumpPath dumpPath) as [role node] eqn:Hparse.
  destruct (decide (role = "")) as [->|Hne].
  - rewrite reconcileOne_other by now rewrite Hparse.
    intros [= <-]. split; [auto | exists []; now rewrite app_nil_r].
  - rewrite (reconcileOne_node roles warning dumpPath content role node Hparse Hne).
    cbn [fst snd]. rewrite Hparse. cbn [fst]. assert (Hins : ∀ x role', is_Some (<[role := x]> roles !! role') →
                          is_Some (roles !! role') ∨ (role' ≠ "" ∧ role = role')).
    { intros x role' Hsome. destruct (decide (role = role')) as [<-|Hd]; [now right|].
      rewrite lookup_insert_ne in Hsome by exact Hd. now left. }
    destruct (roles !! role) as [existingKC|].
    + destruct (CompareJSON existingKC content) as [err|[diff|]]; [discriminate| |].
      * destruct (JSONIntersection existingKC content) as [err|kc]; [discriminate|].
        intros [= <-]. simpl. split; [apply Hins | eauto].
      * intros [= <-]. split; [auto | exists []; now rewrite app_nil_r].
    + intros [= <-]. simpl. split; [apply Hins | exists []; now rewrite app_nil_r].
Qed.

Lemma reconcileLoop_roles (l : list (string * string)) (st st' : gmap string string * list string) :
  reconcileLoop l st = inr st' →
  (∀ role, is_Some (st'.1 !! role) →
      is_Some (st.1 !! role)
      ∨ (role ≠ "" ∧ ∃ entry, entry ∈ l ∧ (getRoleNodeNameFromDumpPath entry.1).1 = role))
  ∧ ∃ added, st'.2 = st.2 ++ added.
Proof.
  revert st. induction l as [|entry l IH]; intros st; simpl.
  - intros [= <-]. split; [auto | exists []; now rewrite app_nil_r].
  - destruct (reconcileOne st entry) as [err|st1] eqn:Hone; [discriminate|].
    intros Hloop. destruct (IH st1 Hloop) as [Hroles [added Hadd]].
    destruct (reconcileOne_roles st st1 entry Hone) as [Hroles1 [added1 Hadd1]]. split.
    + intros role Hsome. destruct (Hroles role Hsome) as [Hin|(Hne & e & He & Hrole)].
      * destruct (Hroles1 role Hin) as [Hst|[Hne Hrole]]; [now left|].
        right. split; [exact Hne|]. exists entry. split; [left | exact Hrole].
      * right. split; [exact Hne|]. exists e. split; [now right | exact Hrole].
    + exists (added1 ++ added). now rewrite Hadd, Hadd1, app_assoc.
Qed.

End WithJsonDiff.
End ReconcileFacts.

Module ReconcileTheorems.
Import Terms.
Import GoStrings GoStringsFacts GoErrors Discovery DiscoveryFacts Fetch FetchFacts ReconcileFacts.

(** C10, as the claim states it, fails: the entry of the node [worker] of
    the role [role] is at the role-level key of the role [worker], and the
    artifact of that role replaces its bytes. *)
Lemma role_level_key_can_be_overwritten :
  ¬ (∀ (J : JsonDiff) (σ : RangeOrder string) (result : gmap string string)
       (warning : list string) (result' : gmap string string) (warning' : list string),
        valid_order σ →
        saveConsistentKubeletResult σ result warning = (Some result', warning', None) →
        ∀ k v, result !! k = Some v → result' !! k = Some v).
Proof.
  intros Hclaim.
  specialize (Hclaim DemoFetch.demoJsonDiff key_order collidingResult []
                collidingReconciled []
                valid_key_order).
  assert (Hrun : @saveConsistentKubeletResult DemoFetch.demoJsonDiff key_order collidingResult []
                 = (Some collidingReconciled, [], None))
    by (vm_compute; reflexivity).
  specialize (Hclaim Hrun "/kubeletconfig/role/worker" "X" eq_refl).
  vm_compute in Hclaim. discriminate Hclaim.
Qed.

Lemma fold_saveRole_is_Some (l : list (string * string)) (res : gmap string string) (k : string) :
  is_Some (res !! k) → is_Some (fold_left saveRole l res !! k).
Proof.
  revert res. induction l as [|[role content] l IH]; intros res Hk; simpl; [exact Hk|].
  apply IH. unfold saveRole. simpl. destruct (String.eqb role ""); [exact Hk|].
  destruct (decide (kubeletConfigRolePathPrefix +:+ role = k)) as [<-|Hne].
  - rewrite lookup_insert_eq. eauto.
  - now rewrite lookup_insert_ne.
Qed.

(** C10 (amended): when [saveConsistentKubeletResult] succeeds, it writes
    only the role-level keys of the roles that it folded.  Every other
    entry keeps its bytes: every key outside [/kubeletconfig/role/], and
    every node-level entry of a role that is not named [role].  No entry
    is removed and the warnings only grow. *)
Theorem reconciliation_frame `{JsonDiff} (σ : RangeOrder string)
    (result : gmap string string) (warning : list string)
    (result' : gmap string string) (warning' : list string) :
  valid_order σ →
  saveConsistentKubeletResult σ result warning = (Some result', warning', None) →
  (∀ k,
      (∀ role dumpPath content,
          role ≠ "" → result !! dumpPath = Some content →
          (getRoleNodeNameFromDumpPath dumpPath).1 = role →
          k ≠ kubeletConfigRolePathPrefix +:+ role) →
      result' !! k = result !! k)
  ∧ (∀ k, HasPrefix k kubeletConfigRolePathPrefix = false → result' !! k = result !! k)
  ∧ (∀ dumpPath,
        (getRoleNodeNameFromDumpPath dumpPath).1 ≠ "" →
        (getRoleNodeNameFromDumpPath dumpPath).1 ≠ "role" →
        result' !! dumpPath = result !! dumpPath)
  ∧ (∀ k, is_Some (result !! k) → is_Some (result' !! k))
  ∧ ∃ added, warning' = warning ++ added.
Proof.
  intros Hσ Hrun.
  assert (Frame : ∀ k,
      (∀ role dumpPath content,
          role ≠ "" → result !! dumpPath = Some content →
          (getRoleNodeNameFromDumpPath dumpPath).1 = role →
          k ≠ kubeletConfigRolePathPrefix +:+ role) →
      result' !! k = result !! k).
  { intros k Hk. unfold saveConsistentKubeletResult in Hrun.
    destruct (Nat.eqb (size result) 0); [now injection Hrun as <- _|].
    destruct (reconcileLoop (σ result) (∅, warning)) as [err|[roles w]] eqn:Hloop;
      [discriminate|].
    injection Hrun as <- _. apply fold_saveRole_other.
    intros role content Hin Hne.
    apply (elem_of_valid_order σ roles role content Hσ) in Hin.
    destruct (reconcileLoop_roles _ _ _ Hloop) as [Hroles _].
    destruct (Hroles role) as [Hempty|(_ & [dumpPath c] & Hentry & Hrole)].
    - simpl. eauto.
    - simpl in Hempty. rewrite lookup_empty in Hempty. now destruct Hempty.
    - apply (elem_of_valid_order σ result dumpPath c Hσ) in Hentry.
      now apply (Hk role dumpPath c). }
  split; [exact Frame|]. split; [|split; [|split]].
  - intros k Hpre. apply Frame. intros role dumpPath content _ _ _ ->.
    now rewrite HasPrefix_append in Hpre.
  - intros dumpPath Hne Hnr. apply Frame. intros role dp content _ _ _ ->.
    destruct (getRoleNodeNameFromDumpPath_roleKey role); congruence.
  - intros k Hk. unfold saveConsistentKubeletResult in Hrun.
    destruct (Nat.eqb (size result) 0); [now injection Hrun as <- _|].
    destruct (reconcileLoop (σ result) (∅, warning)) as [err|[roles w]]; [discriminate|].
    injection Hrun as <- _. now apply fold_saveRole_is_Some.
  - unfold saveConsistentKubeletResult in Hrun.
    destruct (Nat.eqb (size result) 0).
    + injection Hrun as _ <-. exists []. now rewrite app_nil_r.
    + destruct (reconcileLoop (σ result) (∅, warning)) as [err|[roles w]] eqn:Hloop;
        [discriminate|].
      injection Hrun as _ <-. destruct (reconcileLoop_roles _ _ _ Hloop) as [_ Hadd].
      exact Hadd.
Qed.

Lemma reconciliation_frame_witness :
  ∃ result', @saveConsistentKubeletResult DemoFetch.demoJsonDiff key_order collidingResult []
             = (Some result', [], None)
    ∧ result' !! "/kubeletconfig/worker/n1" = Some "Y"
    ∧ result' !! "/kubeletconfig/role/role" = Some "X"
    ∧ result' !! "/kubeletconfig/role/worker" = Some "Y".
Proof.
  exists collidingReconciled. split; [vm_compute; reflexivity|].
  destruct (@reconciliation_frame DemoFetch.demoJsonDiff key_order collidingResult []
              collidingReconciled []
              valid_key_order ltac:(vm_compute; reflexivity))
    as (_ & _ & Hnode & _ & _).
  split; [|split; [vm_compute; reflexivity | vm_compute; reflexivity]].
  rewrite (Hnode "/kubeletconfig/worker/n1"); [reflexivity | discriminate | discriminate].
Defined.

End ReconcileTheorems.

(** ** Facts about the kubelet configuration documents *)

Module KubeletDocsFacts.
Import GoErrors KubeletDocs.

Section Docs.
Context {V : Type} `{EqDecision V}.

Lemma filter_none {A : Type} (f : A → bool) (l : list A) :
  (∀ x, f x = false) → List.filter f l = [].
Proof. intros Hf. induction l as [|x l IH]; simpl; [reflexivity | now rewrite Hf]. Qed.

Lemma doc_diff_refl (x : gmap string V) : doc_diff x x = [].
Proof.
  unfold doc_diff. apply filter_none. intros k. apply bool_decide_eq_false. tauto.
Qed.

(** Two documents with no differing member are equal. *)
Lemma doc_diff_nil (x y : gmap string V) : doc_diff x y = [] → x = y.
Proof.
  intros Hnil. apply map_eq. intros k.
  destruct (decide (x !! k = y !! k)) as [E|Hne]; [exact E|]. exfalso.
  assert (Hin : In k (doc_diff x y)).
  { unfold doc_diff. apply filter_In. split.
    - apply list_elem_of_In, elem_of_elements, elem_of_union.
      rewrite !elem_of_dom.
      destruct (x !! k) as [vx|] eqn:Ex; [left; eauto|].
      destruct (y !! k) as [vy|] eqn:Ey; [right; eauto|]. now destruct Hne.
    - now apply bool_decide_eq_true. }
  rewrite Hnil in Hin. exact Hin.
Qed.

Lemma doc_compare_refl (x : gmap string V) : doc_compare x x = None.
Proof. unfold doc_compare. now rewrite doc_diff_refl. Qed.

Lemma doc_compare_ne (x y : gmap string V) : x ≠ y → doc_compare x y = Some (doc_diff x y).
Proof.
  intros Hne. unfold doc_compare. destruct (doc_diff x y) as [|k d] eqn:E; [|reflexivity].
  now apply doc_diff_nil in E.
Qed.

(** The intersection of a document and the same document with another
    value for one member is the document without this member. *)
Lemma doc_intersection_changed (x : gmap string V) (k : string) (v v' : V) :
  x !! k = Some v → v ≠ v' → doc_intersection x (<[k := v']> x) = delete k x.
Proof.
  intros Hk Hne. apply map_eq. intros i. apply option_eq. intros w.
  unfold doc_intersection. rewrite map_lookup_filter_Some, lookup_delete_Some. simpl. split.
  - intros [Hi Hb]. destruct (decide (k = i)) as [<-|Hd]; [|auto].
    rewrite lookup_insert_eq in Hb. congruence.
  - intros [Hd Hi]. split; [exact Hi|]. now rewrite lookup_insert_ne.
Qed.

Lemma doc_intersection_changed_sym (x : gmap string V) (k : string) (v v' : V) :
  x !! k = Some v → v ≠ v' → doc_intersection (<[k := v']> x) x = delete k x.
Proof.
  intros Hk Hne. apply map_eq. intros i. apply option_eq. intros w.
  unfold doc_intersection. rewrite map_lookup_filter_Some, lookup_delete_Some. simpl. split.
  - intros [Hi Hb]. destruct (decide (k = i)) as [<-|Hd]; [|auto].
    rewrite lookup_insert_eq in Hi. congruence.
  - intros [Hd Hi]. split; [|exact Hi]. now rewrite lookup_insert_ne.
Qed.

Lemma doc_intersection_deleted (x : gmap string V) (k : string) :
  doc_intersection (delete k x) x = delete k x.
Proof.
  apply map_eq. intros i. apply option_eq. intros w.
  unfold doc_intersection. rewrite map_lookup_filter_Some, lookup_delete_Some. simpl. tauto.
Qed.

Lemma changed_ne (x : gmap string V) (k : string) (v v' : V) :
  x !! k = Some v → v ≠ v' → x ≠ <[k := v']> x.
Proof.
  intros Hk Hne E. apply (f_equal (fun m => m !! k)) in E.
  rewrite lookup_insert_eq in E. congruence.
Qed.

Lemma deleted_ne (x : gmap string V) (k : string) (v : V) :
  x !! k = Some v → delete k x ≠ x.
Proof.
  intros Hk E. apply (f_equal (fun m => m !! k)) in E.
  rewrite lookup_delete_eq in E. congruence.
Qed.

End Docs.
End KubeletDocsFacts.

(** ** Three nodes of one role, one of them with another [maxPods] *)

Module ReconcileExample.
Import Terms.
Import GoStrings GoStringsFacts GoErrors Discovery DiscoveryFacts Fetch FetchFacts.
Import ReconcileFacts KubeletDocs KubeletDocsFacts.

Lemma nodeKey_inj (role n n' : string) : nodeKey role n = nodeKey role n' → n = n'.
Proof.
  unfold nodeKey. intros E. apply append_inj_l, append_inj_l in E.
  now apply append_inj_l in E.
Qed.

(** The lists with the elements of a list of three. *)
Lemma Permutation_three {A : Type} (l : list A) (x y z : A) :
  l ≡ₚ [x; y; z] →
  l = [x; y; z] ∨ l = [y; x; z] ∨ l = [y; z; x] ∨ l = [x; z; y] ∨ l = [z; x; y] ∨ l = [z; y; x].
Proof.
  intros Hl. symmetry in Hl. apply permutations_Permutation in Hl.
  cbv [permutations interleave fmap list_fmap mbind list_bind app] in Hl.
  repeat (apply elem_of_cons in Hl as [->|Hl]; [tauto|]).
  now apply elem_of_nil in Hl.
Qed.

Section Example.
Context {V : Type} `{EqDecision V}.
Variable Unmarshal : string → option (gmap string V).
Variable Marshal : gmap string V → string.
Variable syntaxError : error.
Variable render : list string → string.

Local Abbreviation J := (docJsonDiff Unmarshal Marshal syntaxError render).

Variables (role a b : string) (A : gmap string V) (v v' : V).

Local Abbreviation B := (<["maxPods" := v']> A).
Local Abbreviation I := (delete "maxPods" A).

Hypothesis Hrole : role ≠ "".
Hypothesis Hrole_name : no_slash role = true.
Hypothesis Ha : Unmarshal a = Some A.
Hypothesis Hb : Unmarshal b = Some B.
Hypothesis HmaxPods : A !! "maxPods" = Some v.
Hypothesis Hvalue : v ≠ v'.
Hypothesis Hcodec : Unmarshal (Marshal I) = Some I.

Lemma compare_same : @CompareJSON J a a = inr None.
Proof. simpl. unfold docCompareJSON. now rewrite Ha, doc_compare_refl. Qed.

Lemma compare_a_b : @CompareJSON J a b = inr (Some (doc_diff A B)).
Proof.
  simpl. unfold docCompareJSON. rewrite Ha, Hb.
  now rewrite doc_compare_ne by (eapply changed_ne; eauto).
Qed.

Lemma compare_b_a : @CompareJSON J b a = inr (Some (doc_diff B A)).
Proof.
  simpl. unfold docCompareJSON. rewrite Ha, Hb.
  rewrite doc_compare_ne; [reflexivity|].
  intros E. symmetry in E. revert E. eapply changed_ne; eauto.
Qed.

Lemma compare_i_a : @CompareJSON J (Marshal I) a = inr (Some (doc_diff I A)).
Proof.
  simpl. unfold docCompareJSON. rewrite Ha, Hcodec.
  now rewrite doc_compare_ne by (eapply deleted_ne; eauto).
Qed.

Lemma intersection_a_b : @JSONIntersection J a b = inr (Marshal I).
Proof.
  simpl. unfold docJSONIntersection. rewrite Ha, Hb.
  now rewrite (doc_intersection_changed A "maxPods" v v').
Qed.

Lemma intersection_b_a : @JSONIntersection J b a = inr (Marshal I).
Proof.
  simpl. unfold docJSONIntersection. rewrite Ha, Hb.
  now rewrite (doc_intersection_changed_sym A "maxPods" v v').
Qed.

Lemma intersection_i_a : @JSONIntersection J (Marshal I) a = inr (Marshal I).
Proof.
  simpl. unfold docJSONIntersection. rewrite Ha, Hcodec.
  now rewrite doc_intersection_deleted.
Qed.

Lemma step_first (n c : string) (w : list string) :
  no_slash n = true →
  @reconcileOne J (∅, w) (nodeKey role n, c) = inr ({[ role := c ]}, w).
Proof.
  intros Hn.
  rewrite (reconcileOne_node ∅ w _ c role n
             (getRoleNodeNameFromDumpPath_node role n Hrole_name Hn) Hrole).
  rewrite lookup_empty. now rewrite insert_empty.
Qed.

Lemma step_same (n x c : string) (w : list string) :
  no_slash n = true → @CompareJSON J x c = inr None →
  @reconcileOne J ({[ role := x ]}, w) (nodeKey role n, c) = inr ({[ role := x ]}, w).
Proof.
  intros Hn Hcmp.
  rewrite (reconcileOne_node {[ role := x ]} w _ c role n
             (getRoleNodeNameFromDumpPath_node role n Hrole_name Hn) Hrole).
  now rewrite lookup_singleton_eq, Hcmp.
Qed.

Lemma step_differs (n x c kc : string) (d : list string) (w : list string) :
  no_slash n = true → @CompareJSON J x c = inr (Some d) → @JSONIntersection J x c = inr kc →
  @reconcileOne J ({[ role := x ]}, w) (nodeKey role n, c)
  = inr ({[ role := kc ]}, w ++ [inconsistencyWarning n role (render d)]).
Proof.
  intros Hn Hcmp Hint.
  rewrite (reconcileOne_node {[ role := x ]} w _ c role n
             (getRoleNodeNameFromDumpPath_node role n Hrole_name Hn) Hrole).
  rewrite lookup_singleton_eq, Hcmp, Hint. now rewrite insert_singleton_eq.
Qed.

(** The three places of the divergent node in the fold. *)
Lemma fold_divergent_last (m m' n : string) (w : list string) :
  no_slash m = true → no_slash m' = true → no_slash n = true →
  @reconcileLoop J [(nodeKey role m, a); (nodeKey role m', a); (nodeKey role n, b)] (∅, w)
  = inr ({[ role := Marshal I ]}, w ++ [inconsistencyWarning n role (render (doc_diff A B))]).
Proof.
  intros Hm Hm' Hn. cbn [reconcileLoop].
  rewrite step_first by exact Hm.
  rewrite (step_same m' a a w Hm' compare_same).
  now rewrite (step_differs n a b (Marshal I) _ w Hn compare_a_b intersection_a_b).
Qed.

Lemma fold_divergent_middle (m m' n : string) (w : list string) :
  no_slash m = true → no_slash m' = true → no_slash n = true →
  @reconcileLoop J [(nodeKey role m, a); (nodeKey role n, b); (nodeKey role m', a)] (∅, w)
  = inr ({[ role := Marshal I ]},
         w ++ [inconsistencyWarning n role (render (doc_diff A B));
               inconsistencyWarning m' role (render (doc_diff I A))]).
Proof.
  intros Hm Hm' Hn. cbn [reconcileLoop].
  rewrite step_first by exact Hm.
  rewrite (step_differs n a b (Marshal I) _ w Hn compare_a_b intersection_a_b).
  rewrite (step_differs m' (Marshal I) a (Marshal I) _ _ Hm' compare_i_a intersection_i_a).
  now rewrite <- app_assoc.
Qed.

Lemma fold_divergent_first (m m' n : string) (w : list string) :
  no_slash m = true → no_slash m' = true → no_slash n = true →
  @reconcileLoop J [(nodeKey role n, b); (nodeKey role m, a); (nodeKey role m', a)] (∅, w)
  = inr ({[ role := Marshal I ]},
         w ++ [inconsistencyWarning m role (render (doc_diff B A));
               inconsistencyWarning m' role (render (doc_diff I A))]).
Proof.
  intros Hm Hm' Hn. cbn [reconcileLoop].
  rewrite step_first by exact Hn.
  rewrite (step_differs m b a (Marshal I) _ w Hm compare_b_a intersection_b_a).
  rewrite (step_differs m' (Marshal I) a (Marshal I) _ _ Hm' compare_i_a intersection_i_a).
  now rewrite <- app_assoc.
Qed.

(** The second loop, when the first one leaves the baseline of one role. *)
Lemma run_with_baseline (σ : RangeOrder string) (result : gmap string string)
    (warning warning' : list string) (kc : string) :
  valid_order σ → result ≠ ∅ →
  @reconcileLoop J (σ result) (∅, warning) = inr ({[ role := kc ]}, warning') →
  @saveConsistentKubeletResult J σ result warning
  = (Some (<[kubeletConfigRolePathPrefix +:+ role := kc]> result), warning', None).
Proof.
  intros Hσ Hne Hloop. unfold saveConsistentKubeletResult.
  destruct (Nat.eqb_spec (size result) 0) as [Hz|_].
  { now apply map_size_empty_iff in Hz. }
  rewrite Hloop.
  assert (σ {[ role := kc ]} = [(role, kc)]) as ->.
  { apply Permutation_singleton_r. rewrite (Hσ _). now rewrite map_to_list_singleton. }
  cbn [fold_left]. unfold saveRole. cbn [fst snd].
  apply String.eqb_neq in Hrole. now rewrite Hrole.
Qed.

(** Three nodes of the role report the documents [a], [a] and [b]: in
    every order of the range the artifact of the role is the document
    without [maxPods]; the warnings depend on the place of the third node
    in the order. *)
Lemma three_nodes_fold (σ : RangeOrder string) (n1 n2 n3 : string) (warning : list string) :
  valid_order σ →
  no_slash n1 = true → no_slash n2 = true → no_slash n3 = true →
  n1 ≠ n2 → n1 ≠ n3 → n2 ≠ n3 →
  ∃ added,
    @saveConsistentKubeletResult J σ
      {[ nodeKey role n1 := a; nodeKey role n2 := a; nodeKey role n3 := b ]} warning
    = (Some (<[kubeletConfigRolePathPrefix +:+ role := Marshal I]>
               {[ nodeKey role n1 := a; nodeKey role n2 := a; nodeKey role n3 := b ]}),
       warning ++ added, None)
    ∧ ((∃ e1 e2, σ {[ nodeKey role n1 := a; nodeKey role n2 := a; nodeKey role n3 := b ]}
                 = [e1; e2; (nodeKey role n3, b)]) →
       added = [inconsistencyWarning n3 role (render (doc_diff A B))])
    ∧ ((∃ e1 e3, σ {[ nodeKey role n1 := a; nodeKey role n2 := a; nodeKey role n3 := b ]}
                 = [e1; (nodeKey role n3, b); e3]) →
       ∃ m, (m = n1 ∨ m = n2)
            ∧ added = [inconsistencyWarning n3 role (render (doc_diff A B));
                       inconsistencyWarning m role (render (doc_diff I A))])
    ∧ ((∃ e2 e3, σ {[ nodeKey role n1 := a; nodeKey role n2 := a; nodeKey role n3 := b ]}
                 = [(nodeKey role n3, b); e2; e3]) →
       ∃ m m', (m = n1 ∧ m' = n2 ∨ m = n2 ∧ m' = n1)
               ∧ added = [inconsistencyWarning m role (render (doc_diff B A));
                          inconsistencyWarning m' role (render (doc_diff I A))]).
Proof.
  intros Hσ Hn1 Hn2 Hn3 H12 H13 H23.
  set (result := ({[ nodeKey role n1 := a; nodeKey role n2 := a; nodeKey role n3 := b ]}
                  : gmap string string)).
  assert (K12 : nodeKey role n1 ≠ nodeKey role n2) by (intros E; now apply nodeKey_inj in E).
  assert (K13 : nodeKey role n1 ≠ nodeKey role n3) by (intros E; now apply nodeKey_inj in E).
  assert (K23 : nodeKey role n2 ≠ nodeKey role n3) by (intros E; now apply nodeKey_inj in E).
  assert (Hne : result ≠ ∅).
  { intros E. apply (f_equal (fun m => m !! nodeKey role n1)) in E.
    subst result. rewrite lookup_insert_eq, lookup_empty in E. discriminate E. }
  assert (Hlist : σ result
                  ≡ₚ [(nodeKey role n1, a); (nodeKey role n2, a); (nodeKey role n3, b)]).
  { rewrite (Hσ result). subst result.
    rewrite map_to_list_insert.
    2:{ rewrite lookup_insert_ne by congruence. apply lookup_singleton_ne. congruence. }
    rewrite map_to_list_insert by (apply lookup_singleton_ne; congruence).
    now rewrite map_to_list_singleton. }
  apply Permutation_three in Hlist.
  destruct Hlist as [E|[E|[E|[E|[E|E]]]]].
  - exists [inconsistencyWarning n3 role (render (doc_diff A B))]. split; [|split; [|split]].
    + apply run_with_baseline; [exact Hσ | exact Hne |]. rewrite E.
      now apply fold_divergent_last.
    + reflexivity.
    + intros (e1 & e3 & E'). rewrite E in E'. congruence.
    + intros (e2 & e3 & E'). rewrite E in E'. congruence.
  - exists [inconsistencyWarning n3 role (render (doc_diff A B))]. split; [|split; [|split]].
    + apply run_with_baseline; [exact Hσ | exact Hne |]. rewrite E.
      now apply fold_divergent_last.
    + reflexivity.
    + intros (e1 & e3 & E'). rewrite E in E'. congruence.
    + intros (e2 & e3 & E'). rewrite E in E'. congruence.
  - exists [inconsistencyWarning n3 role (render (doc_diff A B));
            inconsistencyWarning n1 role (render (doc_diff I A))].
    split; [|split; [|split]].
    + apply run_with_baseline; [exact Hσ | exact Hne |]. rewrite E.
      now apply fold_divergent_middle.
    + intros (e1 & e2 & E'). rewrite E in E'. congruence.
    + intros _. exists n1. auto.
    + intros (e2 & e3 & E'). rewrite E in E'. congruence.
  - exists [inconsistencyWarning n3 role (render (doc_diff A B));
            inconsistencyWarning n2 role (render (doc_diff I A))].
    split; [|split; [|split]].
    + apply run_with_baseline; [exact Hσ | exact Hne |]. rewrite E.
      now apply fold_divergent_middle.
    + intros (e1 & e2 & E'). rewrite E in E'. congruence.
    + intros _. exists n2. auto.
    + intros (e2 & e3 & E'). rewrite E in E'. congruence.
  - exists [inconsistencyWarning n1 role (render (doc_diff B A));
            inconsistencyWarning n2 role (render (doc_diff I A))].
    split; [|split; [|split]].
    + apply run_with_baseline; [exact Hσ | exact Hne |]. rewrite E.
      now apply fold_divergent_first.
    + intros (e1 & e2 & E'). rewrite E in E'. congruence.
    + intros (e1 & e3 & E'). rewrite E in E'. congruence.
    + intros _. exists n1, n2. auto.
  - exists [inconsistencyWarning n2 role (render (doc_diff B A));
            inconsistencyWarning n1 role (render (doc_diff I A))].
    split; [|split; [|split]].
    + apply run_with_baseline; [exact Hσ | exact Hne |]. rewrite E.
      now apply fold_divergent_first.
    + intros (e1 & e2 & E'). rewrite E in E'. congruence.
    + intros (e1 & e3 & E'). rewrite E in E'. congruence.
    + intros _. exists n2, n1. auto.
Qed.

End Example.
End ReconcileExample.

Module ReconcileClaim.
Import Terms.
Import GoStrings GoStringsFacts GoErrors Discovery DiscoveryFacts Fetch FetchFacts.
Import ReconcileFacts KubeletDocs KubeletDocsFacts ReconcileExample.

(** C2, as the claim states it, fails: for three nodes of a role that
    report A, A and B there is a valid order of the range, the one that
    visits the node with B first, in which the run does not end with
    exactly one warning. *)
Lemma divergent_node_first_gives_two_warnings :
  ¬ (∀ σ : RangeOrder string, valid_order σ →
       ∃ result' why,
         @saveConsistentKubeletResult DemoDocs.demoDocs σ DemoDocs.threeWorkers []
         = (Some result', [why], None)).
Proof.
  intros Hclaim. destruct (Hclaim key_order valid_key_order) as (result' & why & Hrun).
  vm_compute in Hrun. discriminate Hrun.
Qed.

(** The warnings of that run name the two nodes that report A. *)
Example divergent_node_first_warnings :
  (@saveConsistentKubeletResult DemoDocs.demoDocs key_order DemoDocs.threeWorkers []).1.2
  = [inconsistencyWarning "n1" "worker" "maxPods"; inconsistencyWarning "n2" "worker" "maxPods"].
Proof. vm_compute. reflexivity. Qed.

(** After a successful run every role with a baseline has its artifact at
    its role-level key. *)
Lemma artifacts_stored `{JsonDiff} (σ : RangeOrder string) (result : gmap string string)
    (warning : list string) (result' : gmap string string) (warning' : list string) :
  valid_order σ → result ≠ ∅ →
  saveConsistentKubeletResult σ result warning = (Some result', warning', None) →
  ∃ roles, reconcileLoop (σ result) (∅, warning) = inr (roles, warning')
           ∧ ∀ role content, roles !! role = Some content → role ≠ "" →
               result' !! (kubeletConfigRolePathPrefix +:+ role) = Some content.
Proof.
  intros Hσ Hne Hrun. unfold saveConsistentKubeletResult in Hrun.
  destruct (Nat.eqb_spec (size result) 0) as [Hz|_].
  { now apply map_size_empty_iff in Hz. }
  destruct (reconcileLoop (σ result) (∅, warning)) as [err|[roles w]]; [discriminate|].
  injection Hrun as <- <-. exists roles. split; [reflexivity|].
  intros role content Hrole Hne'. apply fold_saveRole_role.
  - now apply valid_order_NoDup_fst.
  - now apply (elem_of_valid_order σ roles role content Hσ).
  - exact Hne'.
Qed.

(** C2 (amended): [saveConsistentKubeletResult] folds the node-level
    entries in the order of a range over the map, which Go does not fix.
    The first entry of a role that is visited becomes the baseline; an
    entry visited later that does not differ from the current baseline
    changes nothing; one that differs appends exactly one warning with
    its node and the role, and the intersection of the two documents
    becomes the baseline.  After the fold every role has its artifact at
    [/kubeletconfig/role/<role>].  For three nodes of a role that report
    A, A and B, where B is A with another [maxPods], the artifact is A
    without [maxPods] in every order; there is exactly one warning, with
    the node of B, when that node is visited last, and there are two
    warnings when it is visited second (its own and that of the node
    after it) or first (those of the two nodes that report A). *)
Theorem kubelet_reconciliation_fold :
  (∀ (J : JsonDiff) (roles : gmap string string) (warning : list string)
     (dumpPath content role node : string),
      getRoleNodeNameFromDumpPath dumpPath = (role, node) → role ≠ "" →
      (roles !! role = None →
         reconcileOne (roles, warning) (dumpPath, content)
         = inr (<[role := content]> roles, warning))
      ∧ (∀ baseline, roles !! role = Some baseline →
           CompareJSON baseline content = inr None →
           reconcileOne (roles, warning) (dumpPath, content) = inr (roles, warning))
      ∧ (∀ baseline diff intersectionKC, roles !! role = Some baseline →
           CompareJSON baseline content = inr (Some diff) →
           JSONIntersection baseline content = inr intersectionKC →
           reconcileOne (roles, warning) (dumpPath, content)
           = inr (<[role := intersectionKC]> roles,
                  warning ++ [inconsistencyWarning node role (PatchString diff)])))
  ∧ (∀ (J : JsonDiff) (σ : RangeOrder string) (result : gmap string string)
       (warning : list string) (result' : gmap string string) (warning' : list string),
      valid_order σ → result ≠ ∅ →
      saveConsistentKubeletResult σ result warning = (Some result', warning', None) →
      ∃ roles, reconcileLoop (σ result) (∅, warning) = inr (roles, warning')
               ∧ ∀ role content, roles !! role = Some content → role ≠ "" →
                   result' !! (kubeletConfigRolePathPrefix +:+ role) = Some content)
  ∧ (∀ (V : Type) (EqV : EqDecision V)
       (Unmarshal : string → option (gmap string V)) (Marshal : gmap string V → string)
       (syntaxError : error) (render : list string → string)
       (role a b : string) (A : gmap string V) (v v' : V)
       (σ : RangeOrder string) (n1 n2 n3 : string) (warning : list string),
      role ≠ "" → no_slash role = true →
      Unmarshal a = Some A → Unmarshal b = Some (<["maxPods" := v']> A) →
      A !! "maxPods" = Some v → v ≠ v' →
      Unmarshal (Marshal (delete "maxPods" A)) = Some (delete "maxPods" A) →
      valid_order σ →
      no_slash n1 = true → no_slash n2 = true → no_slash n3 = true →
      n1 ≠ n2 → n1 ≠ n3 → n2 ≠ n3 →
      let result : gmap string string :=
        {[ nodeKey role n1 := a; nodeKey role n2 := a; nodeKey role n3 := b ]} in
      let diffAB := render (doc_diff A (<["maxPods" := v']> A)) in
      let diffBA := render (doc_diff (<["maxPods" := v']> A) A) in
      let diffIA := render (doc_diff (delete "maxPods" A) A) in
      ∃ added,
        @saveConsistentKubeletResult (docJsonDiff Unmarshal Marshal syntaxError render)
          σ result warning
        = (Some (<[kubeletConfigRolePathPrefix +:+ role := Marshal (delete "maxPods" A)]> result),
           warning ++ added, None)
        ∧ ((∃ e1 e2, σ result = [e1; e2; (nodeKey role n3, b)]) →
           added = [inconsistencyWarning n3 role diffAB])
        ∧ ((∃ e1 e3, σ result = [e1; (nodeKey role n3, b); e3]) →
           ∃ m, (m = n1 ∨ m = n2)
                ∧ added = [inconsistencyWarning n3 role diffAB;
                           inconsistencyWarning m role diffIA])
        ∧ ((∃ e2 e3, σ result = [(nodeKey role n3, b); e2; e3]) →
           ∃ m m', (m = n1 ∧ m' = n2 ∨ m = n2 ∧ m' = n1)
                   ∧ added = [inconsistencyWarning m role diffBA;
                              inconsistencyWarning m' role diffIA])).
Proof.
  split; [|split].
  - intros J roles warning dumpPath content role node Hparse Hne.
    rewrite (reconcileOne_node roles warning dumpPath content role node Hparse Hne).
    split; [|split].
    + now intros ->.
    + intros baseline -> Hcmp. now rewrite Hcmp.
    + intros baseline diff kc -> Hcmp Hint. now rewrite Hcmp, Hint.
  - intros J σ result warning result' warning'. apply artifacts_stored.
  - intros V EqV Unmarshal Marshal syntaxError render role a b A v v' σ n1 n2 n3 warning
           Hrole Hname Ha Hb Hmax Hv Hcodec Hσ Hn1 Hn2 Hn3 H12 H13 H23.
    cbv zeta.
    exact (three_nodes_fold Unmarshal Marshal syntaxError render role a b A v v'
             Hrole Hname Ha Hb Hmax Hv Hcodec σ n1 n2 n3 warning
             Hσ Hn1 Hn2 Hn3 H12 H13 H23).
Qed.

Lemma kubelet_reconciliation_fold_witness :
  ∃ added,
    @saveConsistentKubeletResult DemoDocs.demoDocs rev_key_order DemoDocs.threeWorkers []
    = (Some (<["/kubeletconfig/role/worker" := DemoDocs.bytesI]> DemoDocs.threeWorkers),
       [] ++ added, None)
    ∧ added = [inconsistencyWarning "n3" "worker" "maxPods"].
Proof.
  destruct kubelet_reconciliation_fold as (_ & _ & Hexample).
  destruct (Hexample Z _ DemoDocs.demoUnmarshal DemoDocs.demoMarshal (New "invalid character")
              DemoDocs.demoRender "worker" DemoDocs.bytesA DemoDocs.bytesB DemoDocs.docA
              110%Z 250%Z rev_key_order "n1" "n2" "n3" [])
    as (added & Hrun & Hlast & _ & _).
  - discriminate.
  - reflexivity.
  - reflexivity.
  - reflexivity.
  - vm_compute. reflexivity.
  - discriminate.
  - vm_compute. reflexivity.
  - apply valid_rev_key_order.
  - reflexivity.
  - reflexivity.
  - reflexivity.
  - discriminate.
  - discriminate.
  - discriminate.
  - exists added. split; [exact Hrun|].
    assert (Hord : ∃ e1 e2, rev_key_order DemoDocs.threeWorkers
                            = [e1; e2; (nodeKey "worker" "n3", DemoDocs.bytesB)]).
    { exists (nodeKey "worker" "n2", DemoDocs.bytesA), (nodeKey "worker" "n1", DemoDocs.bytesA).
      vm_compute. reflexivity. }
    rewrite (Hlast Hord). vm_compute. reflexivity.
Defined.

End ReconcileClaim.

(** * Further properties of the collector *)

(** ** Node-level keys *)

Module DumpPathFacts.
Import Terms.
Import GoStrings GoStringsFacts GoErrors Discovery DiscoveryFacts ReconcileFacts.

Lemma HasPrefix_inv (s pre : string) : HasPrefix s pre = true → ∃ rest, s = pre +:+ rest.
Proof.
  unfold HasPrefix. revert s. induction pre as [|x pre IH]; intros s Hp.
  - exists s. reflexivity.
  - destruct s as [|y s]; simpl in Hp; [discriminate|].
    destruct (ascii_dec x y) as [->|_]; [|discriminate].
    destruct (IH s Hp) as [rest ->]. exists rest. reflexivity.
Qed.

(** The pieces of a string have no slash, and joined with slashes they
    give the string back. *)
Lemma SplitOn_pieces (s : string) :
  Forall (fun piece => no_slash piece = true) (SplitOn slash s)
  ∧ Join (SplitOn slash s) "/" = s
  ∧ SplitOn slash s ≠ [].
Proof.
  induction s as [|a s (Hall & Hjoin & Hne)]; simpl.
  - repeat split; [repeat constructor | discriminate].
  - destruct (Ascii.eqb a slash) eqn:Ea.
    + apply Ascii.eqb_eq in Ea. subst a. repeat split.
      * constructor; [reflexivity | exact Hall].
      * destruct (SplitOn slash s) as [|h t] eqn:E; [congruence|].
        change (Join ("" :: h :: t) "/") with ("" +:+ "/" +:+ Join (h :: t) "/").
        rewrite Hjoin. reflexivity.
      * discriminate.
    + destruct (SplitOn slash s) as [|h t] eqn:E; [congruence|]. repeat split.
      * inversion Hall; subst. constructor; [simpl; now rewrite Ea | assumption].
      * destruct t as [|h' t].
        -- simpl in *. now rewrite Hjoin.
        -- change (Join (String a h :: h' :: t) "/")
             with (String a (h +:+ "/" +:+ Join (h' :: t) "/")).
           change (Join (h :: h' :: t) "/") with (h +:+ "/" +:+ Join (h' :: t) "/") in Hjoin.
           now rewrite Hjoin.
      * discriminate.
Qed.

(** X1: [getRoleNodeNameFromDumpPath] inverts the DumpPath of a kubelet
    configuration.  For a role and a node without a slash it gives the
    role and the node back, so the path that discovery makes for a node is
    read as this node of this role; and it gives a role that is not empty
    only for a path [/kubeletconfig/<role>/<node>] whose role and node
    have no slash.  No fixed path of discovery is read as a node. *)
Theorem getRoleNodeNameFromDumpPath_inverse :
  (∀ role node, no_slash role = true → no_slash node = true →
     getRoleNodeNameFromDumpPath (DumpPath (kubeletConfigPath role node)) = (role, node))
  ∧ (∀ dumpPath role node,
       getRoleNodeNameFromDumpPath dumpPath = (role, node) → role ≠ "" →
       dumpPath = kubeletConfigPathPrefix +:+ role +:+ "/" +:+ node
       ∧ no_slash role = true ∧ no_slash node = true)
  ∧ Forall (fun p => getRoleNodeNameFromDumpPath (DumpPath p) = ("", "")) fixedPaths.
Proof.
  split; [|split].
  - intros role node Hr Hn. now apply getRoleNodeNameFromDumpPath_node.
  - intros dumpPath role node Hparse Hne. unfold getRoleNodeNameFromDumpPath in Hparse.
    destruct (HasPrefix dumpPath kubeletConfigPathPrefix) eqn:Hp;
      [|injection Hparse as <- _; now destruct Hne].
    apply HasPrefix_inv in Hp as [rest ->].
    unfold Split_slash, kubeletConfigPathPrefix in Hparse. rewrite !append_cons in Hparse.
    rewrite append_nil in Hparse.
    change (SplitOn slash (String "/" ?t)) with ("" :: SplitOn slash t) in Hparse.
    change (String "k" ?t) with ("kubeletconfig" +:+ String slash rest) in Hparse.
    rewrite SplitOn_sep in Hparse by reflexivity.
    destruct (SplitOn_pieces rest) as (Hall & Hjoin & _).
    destruct (SplitOn slash rest) as [|a [|b [|c l]]];
      try (injection Hparse as <- _; now destruct Hne).
    injection Hparse as -> ->. simpl in Hjoin. subst rest.
    inversion Hall as [|? ? Hr Hall']; subst. inversion Hall'; subst. auto.
  - repeat constructor.
Qed.

End DumpPathFacts.

Module DumpPathWitness.
Import Terms.
Import GoStrings GoStringsFacts GoErrors Discovery DiscoveryFacts DumpPathFacts.

Lemma getRoleNodeNameFromDumpPath_inverse_witness :
  getRoleNodeNameFromDumpPath (DumpPath (kubeletConfigPath "master" "node-1"))
  = ("master", "node-1")
  ∧ ("/kubeletconfig/master/node-1" = kubeletConfigPathPrefix +:+ "master" +:+ "/" +:+ "node-1"
     ∧ no_slash "master" = true ∧ no_slash "node-1" = true).
Proof.
  destruct getRoleNodeNameFromDumpPath_inverse as (Hprint & Hparse & _). split.
  - apply (Hprint "master" "node-1"); reflexivity.
  - apply (Hparse "/kubeletconfig/master/node-1" "master" "node-1"); [reflexivity | discriminate].
Defined.

End DumpPathWitness.

Module RoleIndexFacts.
Import Terms CollectorTerms.
Import GoStrings GoStringsFacts GoErrors Xccdf Discovery DiscoveryFacts.

Section WithUtils.
Context `{Utils}.


Lemma addNodeToRole_lookup (m : gmap string (list string)) (name r role : string) :
  default [] (addNodeToRole name m r !! role)
  = default [] (m !! role) ++ (if String.eqb r role then [name] else []).
Proof.
  unfold addNodeToRole. destruct (String.eqb_spec r role) as [->|Hne].
  - now rewrite lookup_insert_eq.
  - rewrite lookup_insert_ne by exact Hne. now rewrite app_nil_r.
Qed.

Lemma addNode_lookup (m : gmap string (list string)) (node : Node) (role : string) :
  default [] (addNode m node !! role) = default [] (m !! role) ++ namesFor role node.
Proof.
  unfold addNode, namesFor. generalize (GetNodeRoles (Labels node)) as roles.
  intros roles. revert m. induction roles as [|r roles IH]; intros m; simpl.
  - now rewrite app_nil_r.
  - rewrite IH, addNodeToRole_lookup, <- app_assoc. reflexivity.
Qed.

Lemma fold_addNode_lookup (items : list Node) (m : gmap string (list string)) (role : string) :
  default [] (fold_left addNode items m !! role)
  = default [] (m !! role) ++ flat_map (namesFor role) items.
Proof.
  revert m. induction items as [|node items IH]; intros m; simpl.
  - now rewrite app_nil_r.
  - rewrite IH, addNode_lookup, <- app_assoc. reflexivity.
Qed.

Lemma addNodeToRole_nonempty (m : gmap string (list string)) (name r : string) :
  (∀ role l, m !! role = Some l → l ≠ []) →
  ∀ role l, addNodeToRole name m r !! role = Some l → l ≠ [].
Proof.
  intros Hm role l. unfold addNodeToRole. destruct (decide (r = role)) as [->|Hne].
  - rewrite lookup_insert_eq. intros [= <-]. now destruct (default [] (m !! role)).
  - rewrite lookup_insert_ne by exact Hne. apply Hm.
Qed.

Lemma fold_addNode_nonempty (items : list Node) (m : gmap string (list string)) :
  (∀ role l, m !! role = Some l → l ≠ []) →
  ∀ role l, fold_left addNode items m !! role = Some l → l ≠ [].
Proof.
  revert m. induction items as [|node items IH]; intros m Hm; simpl; [exact Hm|].
  apply IH. unfold addNode. generalize (GetNodeRoles (Labels node)) as roles.
  intros roles. revert m Hm. induction roles as [|r roles IHr]; intros m Hm; simpl; [exact Hm|].
  apply IHr. now apply addNodeToRole_nonempty.
Qed.

End WithUtils.

(** X2: the index of [fetchNodesWithRole] lists, for every role, the names
    of the nodes that have the role, in the order in which the cluster
    lists the nodes; a role is a key of the index exactly when some node
    has it, and no role has an empty list.  When the listing fails, the
    error is wrapped and [FigureResources] returns it, whatever the
    documents and the profile are. *)
Theorem fetchNodesWithRole_index `{Utils} (c : scapContentDataStream) :
  (∀ items, clientListNodes c = inr items →
     ∃ index, fetchNodesWithRole c = inr index
       ∧ (∀ role, default [] (index !! role) = flat_map (namesFor role) items)
       ∧ (∀ role l, index !! role = Some l → l ≠ [])
       ∧ (∀ role, is_Some (index !! role)
                  ↔ ∃ node, In node items ∧ In role (GetNodeRoles (Labels node))))
  ∧ (∀ err, clientListNodes c = inl err →
       fetchNodesWithRole c = inl (Wrapf "failed to list nodes: " err "")
       ∧ ∀ σr σv profile,
           FigureResources σr σv c profile = inl (Wrapf "failed to list nodes: " err "")).
Proof.
  split.
  - intros items Hitems. exists (roleNodesOf items).
    assert (Hlookup : ∀ role, default [] (roleNodesOf items !! role)
                              = flat_map (namesFor role) items).
    { intros role. unfold roleNodesOf. now rewrite fold_addNode_lookup, lookup_empty. }
    assert (Hnonempty : ∀ role l, roleNodesOf items !! role = Some l → l ≠ []).
    { apply fold_addNode_nonempty. intros role l. now rewrite lookup_empty. }
    split; [|split; [|split]].
    + unfold fetchNodesWithRole. now rewrite Hitems.
    + exact Hlookup.
    + exact Hnonempty.
    + intros role. split.
      * intros [l Hl]. pose proof (Hnonempty role l Hl) as Hne.
        pose proof (Hlookup role) as E. rewrite Hl in E. simpl in E.
        destruct l as [|name l]; [now destruct Hne|].
        assert (Hin : In name (flat_map (namesFor role) items)) by (rewrite <- E; now left).
        apply in_flat_map in Hin as (node & Hnode & Hname).
        exists node. split; [exact Hnode|].
        unfold namesFor in Hname. apply in_flat_map in Hname as (r & Hr & Hrole).
        destruct (String.eqb_spec r role) as [->|_]; [exact Hr | now destruct Hrole].
      * intros (node & Hnode & Hrole).
        destruct (roleNodesOf items !! role) as [l|] eqn:Hl; [eauto|]. exfalso.
        pose proof (Hlookup role) as E. rewrite Hl in E. simpl in E.
        assert (Hin : In (Name node) (flat_map (namesFor role) items)).
        { apply in_flat_map. exists node. split; [exact Hnode|].
          unfold namesFor. apply in_flat_map. exists role. split; [exact Hrole|].
          rewrite String.eqb_refl. now left. }
        rewrite <- E in Hin. exact Hin.
  - intros err Herr. split.
    + unfold fetchNodesWithRole. now rewrite Herr.
    + intros σr σv profile. unfold FigureResources, fetchNodesWithRole. now rewrite Herr.
Qed.

Lemma fetchNodesWithRole_index_witness :
  @fetchNodesWithRole Demo.demoUtils Demo.demoContent
  = inr ({[ "master" := ["m-0"]; "worker" := ["w-0"; "w-1"] ]} : gmap string (list string))
  ∧ ∀ σr σv profile,
      @FigureResources Demo.demoUtils σr σv
        (mkContent Demo.demoBenchmark None (inl (New "connection refused"))) profile
      = inl (Wrapf "failed to list nodes: " (New "connection refused") "").
Proof.
  destruct (@fetchNodesWithRole_index Demo.demoUtils Demo.demoContent) as [Hok _].
  destruct (Hok Demo.demoNodes eq_refl) as (index & Hrun & Hlookup & _).
  destruct (@fetchNodesWithRole_index Demo.demoUtils
              (mkContent Demo.demoBenchmark None (inl (New "connection refused")))) as [_ Herr].
  split.
  - vm_compute. reflexivity.
  - apply (Herr (New "connection refused") eq_refl).
Defined.

End RoleIndexFacts.

(** ** The table of the variables *)

Module ValuesFacts.
Import Terms CollectorTerms.
Import GoStrings GoStringsFacts GoErrors Xccdf Discovery DiscoveryFacts DumpPathFacts.

Lemma substring_all (s : string) : String.substring 0 (String.length s) s = s.
Proof. induction s as [|a s IH]; simpl; [reflexivity | now rewrite IH]. Qed.

Lemma substring_append (pre s : string) (n : nat) :
  String.substring (String.length pre) n (pre +:+ s) = String.substring 0 n s.
Proof. induction pre as [|a pre IH]; sapp; simpl; [reflexivity | exact IH]. Qed.

(** [TrimPrefix] takes off the prefix that [HasPrefix] finds. *)
Lemma TrimPrefix_append (pre s : string) : TrimPrefix (pre +:+ s) pre = s.
Proof.
  unfold TrimPrefix. rewrite HasPrefix_append, substring_append, length_append.
  replace (String.length pre + String.length s - String.length pre) with (String.length s) by lia.
  apply substring_all.
Qed.

Section WithUtils.
Context `{Utils}.


Lemma addSetValue_bindings (l : list SetValue) (t : gmap string string) :
  fold_left addSetValue l t = fold_left bind (flat_map setBinding l) t.
Proof.
  revert t. induction l as [|sv l IH]; intros t; simpl; [reflexivity|].
  rewrite fold_left_app, IH. f_equal. unfold addSetValue, setBinding.
  now destruct (HasPrefix _ _).
Qed.

Lemma addDefault_bindings (variable : Value) (l : list ValueEntry) (t : gmap string string) :
  fold_left (addDefault variable) l t = fold_left bind (flat_map (valueBinding variable) l) t.
Proof.
  revert t. induction l as [|val l IH]; intros t; simpl; [reflexivity|].
  rewrite fold_left_app, IH. f_equal. unfold addDefault, valueBinding.
  destruct (String.eqb (ve_hidden val) "true"); [reflexivity|].
  destruct (String.eqb (ve_selector val) ""); [|reflexivity].
  now destruct (HasPrefix _ _).
Qed.

Lemma addDefaults_bindings (l : list Value) (t : gmap string string) :
  fold_left addDefaults l t
  = fold_left bind
      (flat_map (fun variable => flat_map (valueBinding variable) (v_values variable)) l) t.
Proof.
  revert t. induction l as [|variable l IH]; intros t; simpl; [reflexivity|].
  rewrite fold_left_app, IH. f_equal. apply addDefault_bindings.
Qed.

(** The table of a document: its bindings, one after the other. *)
Lemma collectValues_bindings (t : gmap string string) (def : Document) :
  collectValues t def = fold_left bind (bindings def) t.
Proof.
  unfold collectValues, bindings.
  now rewrite fold_left_app, addSetValue_bindings, addDefaults_bindings.
Qed.

Lemma definedValues_bindings (ruleDefs profileDefs : Document) :
  definedValues ruleDefs profileDefs
  = fold_left bind (bindings ruleDefs ++ bindings profileDefs) ∅.
Proof.
  unfold definedValues. simpl. now rewrite fold_left_app, !collectValues_bindings.
Qed.

(** The last binding of an id is the one of the table. *)
Lemma fold_bind_absent (l : list (string * string)) (t : gmap string string) (k : string) :
  k ∉ l.*1 → fold_left bind l t !! k = t !! k.
Proof.
  revert t. induction l as [|[k' v'] l IH]; intros t Hk; simpl; [reflexivity|].
  simpl in Hk. apply not_elem_of_cons in Hk as [Hne Hk].
  rewrite IH by exact Hk. unfold bind. simpl. now rewrite lookup_insert_ne.
Qed.

Lemma fold_bind_last (l1 l2 : list (string * string)) (t : gmap string string)
    (k v : string) :
  k ∉ l2.*1 → fold_left bind (l1 ++ (k, v) :: l2) t !! k = Some v.
Proof.
  intros Hk. rewrite fold_left_app. simpl. rewrite fold_bind_absent by exact Hk.
  unfold bind. simpl. apply lookup_insert_eq.
Qed.

Lemma fold_bind_source (l : list (string * string)) (t : gmap string string) (k v : string) :
  fold_left bind l t !! k = Some v → t !! k = Some v ∨ In (k, v) l.
Proof.
  revert t. induction l as [|[k' v'] l IH]; intros t Hk; simpl in *; [now left|].
  destruct (IH _ Hk) as [Ht|Hin]; [|now right; right].
  unfold bind in Ht. simpl in Ht. destruct (decide (k' = k)) as [->|Hne].
  - rewrite lookup_insert_eq in Ht. injection Ht as ->. right. now left.
  - rewrite lookup_insert_ne in Ht by exact Hne. now left.
Qed.

(** Where a binding comes from. *)
Lemma bindings_source (def : Document) (k v : string) :
  In (k, v) (bindings def) →
  (∃ variable val, In variable (Values def) ∧ In val (v_values variable)
      ∧ v_id variable = valuePrefix +:+ k ∧ ve_hidden val ≠ "true" ∧ ve_selector val = ""
      ∧ v = UnescapeString (ve_text val))
  ∨ (∃ variable, In variable (SetValues def) ∧ sv_idref variable = valuePrefix +:+ k
      ∧ v = UnescapeString (sv_text variable)).
Proof.
  unfold bindings. intros [Hin|Hin]%in_app_or.
  - left. apply in_flat_map in Hin as (variable & Hvar & Hin).
    apply in_flat_map in Hin as (val & Hval & Hin). unfold valueBinding in Hin.
    destruct (String.eqb_spec (ve_hidden val) "true") as [|Hh]; [now destruct Hin|].
    destruct (String.eqb_spec (ve_selector val) "") as [Hs|]; [|now destruct Hin].
    destruct (HasPrefix (v_id variable) valuePrefix) eqn:Hp; [|now destruct Hin].
    destruct Hin as [[= <- <-]|[]]. apply HasPrefix_inv in Hp as [rest Hrest].
    exists variable, val. rewrite Hrest, TrimPrefix_append. auto 10.
  - right. apply in_flat_map in Hin as (variable & Hvar & Hin). unfold setBinding in Hin.
    destruct (HasPrefix (sv_idref variable) valuePrefix) eqn:Hp; [|now destruct Hin].
    destruct Hin as [[= <- <-]|[]]. apply HasPrefix_inv in Hp as [rest Hrest].
    exists variable. rewrite Hrest, TrimPrefix_append. auto.
Qed.

Lemma setBinding_key (variable : SetValue) (k : string) :
  k ∈ (setBinding variable).*1 → sv_idref variable = valuePrefix +:+ k.
Proof.
  unfold setBinding. destruct (HasPrefix (sv_idref variable) valuePrefix) eqn:Hp.
  - apply HasPrefix_inv in Hp as [rest Hrest]. rewrite Hrest, TrimPrefix_append.
    simpl. intros Hin. apply list_elem_of_singleton in Hin. now subst.
  - simpl. intros Hin. now apply elem_of_nil in Hin.
Qed.

Lemma setBindings_key (l : list SetValue) (k : string) :
  k ∈ (flat_map setBinding l).*1 → ∃ variable, In variable l ∧ sv_idref variable = valuePrefix +:+ k.
Proof.
  induction l as [|sv l IH]; simpl.
  - intros Hin. now apply elem_of_nil in Hin.
  - rewrite fmap_app. intros [Hin|Hin]%elem_of_app.
    + exists sv. split; [now left | now apply setBinding_key].
    + destruct (IH Hin) as (variable & Hvar & Hid). exists variable. auto.
Qed.

End WithUtils.

(** X3: the table of the variables that [getResourcePaths] builds.  A
    [set-value] element of the profile document (the tailoring, when there
    is one) gives its id the unescaped text of the element, whatever the
    benchmark says about the id, unless a later [set-value] of the same
    document has the same id.  An id is in the table only when one of the
    two documents has a [Value] with this id (after the prefix) and a
    [value] child that is not hidden and has no selector, or a
    [set-value] for it; an id without the prefix is never registered. *)
Theorem definedValues_precedence `{Utils} (ruleDefs profileDefs : Document) :
  (∀ (before after : list SetValue) (variable : SetValue) (k : string),
      SetValues profileDefs = before ++ variable :: after →
      sv_idref variable = valuePrefix +:+ k →
      (∀ later, In later after → sv_idref later ≠ valuePrefix +:+ k) →
      definedValues ruleDefs profileDefs !! k = Some (UnescapeString (sv_text variable)))
  ∧ (∀ k v, definedValues ruleDefs profileDefs !! k = Some v →
      ∃ def, (def = ruleDefs ∨ def = profileDefs)
        ∧ ((∃ variable val, In variable (Values def) ∧ In val (v_values variable)
              ∧ v_id variable = valuePrefix +:+ k ∧ ve_hidden val ≠ "true"
              ∧ ve_selector val = "" ∧ v = UnescapeString (ve_text val))
           ∨ (∃ variable, In variable (SetValues def) ∧ sv_idref variable = valuePrefix +:+ k
                ∧ v = UnescapeString (sv_text variable)))).
Proof.
  split.
  - intros before after variable k Hsplit Hid Hlater.
    rewrite definedValues_bindings. unfold bindings at 2. rewrite Hsplit.
    rewrite flat_map_app. simpl. unfold setBinding at 2.
    rewrite Hid, HasPrefix_append, TrimPrefix_append. simpl.
    rewrite !app_assoc. apply fold_bind_last.
    intros Hin. apply setBindings_key in Hin as (later & Hin & Hid').
    now apply (Hlater later).
  - intros k v Hk. rewrite definedValues_bindings in Hk.
    assert (Hin : In (k, v) (bindings ruleDefs ++ bindings profileDefs)).
    { destruct (fold_bind_source _ _ _ _ Hk) as [Ht|Hin]; [|exact Hin].
      rewrite lookup_empty in Ht. discriminate Ht. }
    apply in_app_or in Hin as [Hin|Hin].
    + exists ruleDefs. split; [now left | now apply bindings_source].
    + exists profileDefs. split; [now right | now apply bindings_source].
Qed.

Lemma definedValues_precedence_witness :
  @definedValues Demo.demoUtils Demo.demoBenchmark Demo.demoTailoring !! "A" = Some "2".
Proof.
  destruct (@definedValues_precedence Demo.demoUtils Demo.demoBenchmark Demo.demoTailoring)
    as [Hset _].
  apply (Hset [] [mkSetValue "xccdf_org.ssgproject.content_value_B" "3"]
              (mkSetValue "xccdf_org.ssgproject.content_value_A" "2") "A").
  - reflexivity.
  - reflexivity.
  - intros later [<-|[]]. discriminate.
Defined.

End ValuesFacts.

(** ** The checks of a profile *)

Module SelectionFacts.
Import Terms.
Import GoStrings GoStringsFacts GoErrors Xccdf Discovery DiscoveryFacts.

Lemma selectedChecksOf_source (profileDefs : Document) (profile checkID : string) :
  In checkID (selectedChecksOf profileDefs profile) →
  ∃ node check, In node (Profiles profileDefs) ∧ p_id node = profile
    ∧ In check (p_selects node) ∧ sel_selected check = "true"
    ∧ sel_idref check = checkID ∧ checkID ≠ "".
Proof.
  unfold selectedChecksOf. intros (node & Hnode & Hin)%in_flat_map.
  destruct (String.eqb_spec (p_id node) profile) as [Hid|_]; [|now destruct Hin].
  simpl in Hin. apply in_flat_map in Hin as (check & Hcheck & Hin).
  unfold selectedOf in Hin.
  destruct (String.eqb_spec (sel_selected check) "true") as [Hsel|_]; [|now destruct Hin].
  destruct (String.eqb_spec (sel_idref check) "") as [|Hne]; [now destruct Hin|].
  destruct Hin as [<-|[]]. exists node, check. auto 10.
Qed.

Lemma selectedChecksOf_absent (profileDefs : Document) (profile : string) :
  (∀ node, In node (Profiles profileDefs) → p_id node ≠ profile) →
  selectedChecksOf profileDefs profile = [].
Proof.
  unfold selectedChecksOf. induction (Profiles profileDefs) as [|node l IH]; intros Habs;
    simpl; [reflexivity|].
  destruct (String.eqb_spec (p_id node) profile) as [Hid|_].
  - now destruct (Habs node (or_introl eq_refl)).
  - simpl. apply IH. intros q Hq. apply Habs. now right.
Qed.

Section WithUtils.
Context `{Utils}.

Lemma firstPaths_source (warningObjs : list string) (valuesList : gmap string string)
    (p : ResourcePath) :
  In p (firstPaths warningObjs valuesList) →
  ∃ warn, In warn warningObjs ∧ In p (GetPathFromWarningXML warn valuesList).
Proof.
  induction warningObjs as [|warn rest IH]; simpl; [intros []|].
  destruct (Nat.eqb (length (GetPathFromWarningXML warn valuesList)) 0).
  - intros Hin. destruct (IH Hin) as (w & Hw & Hp). exists w. auto.
  - intros Hin. exists warn. auto.
Qed.

Lemma pathsOfCheck_source (checkDefinitions : list Rule) (valuesList : gmap string string)
    (checkID : string) (p : ResourcePath) :
  In p (pathsOfCheck checkDefinitions valuesList checkID) →
  ∃ rule warn, In rule checkDefinitions ∧ r_id rule = checkID
    ∧ In warn (r_warnings rule) ∧ In p (GetPathFromWarningXML warn valuesList).
Proof.
  unfold pathsOfCheck, findRule.
  destruct (List.find _ checkDefinitions) as [found|] eqn:Hfind; [|intros []].
  apply find_some in Hfind as [Hin Hid]. apply String.eqb_eq in Hid.
  intros (warn & Hwarn & Hp)%firstPaths_source. exists found, warn. auto.
Qed.

(** A rule of the benchmark that no check selects, or a check without a
    rule, gives no path. *)
Lemma pathsOfCheck_missing (checkDefinitions : list Rule) (valuesList : gmap string string)
    (checkID : string) :
  (∀ rule, In rule checkDefinitions → r_id rule ≠ checkID) →
  pathsOfCheck checkDefinitions valuesList checkID = [].
Proof.
  intros Hmiss. unfold pathsOfCheck, findRule.
  destruct (List.find _ checkDefinitions) as [found|] eqn:Hfind; [|reflexivity].
  apply find_some in Hfind as [Hin Hid]. apply String.eqb_eq in Hid.
  now destruct (Hmiss found Hin).
Qed.

End WithUtils.

(** X4: [getResourcePaths] invents no path.  Every path it returns is one
    that [utils.GetPathFromWarningXML] reads, with the table it returns,
    from a [warning] of a rule of the rule document whose id is the
    [idref] of a [select] with [selected="true"] of a profile with the
    given id.  A profile that the document does not have, and a rule
    document without rules, give no path and no error; the table of the
    variables is the same whatever the profile is. *)
Theorem getResourcePaths_sound `{Utils} (σ : RangeOrder string)
    (profileDefs ruleDefs : Document) (profile : string)
    (overrideValueList : option (gmap string string)) :
  (∀ p, In p (getResourcePaths σ profileDefs ruleDefs profile overrideValueList).1 →
     ∃ node check rule warn,
       In node (Profiles profileDefs) ∧ p_id node = profile
       ∧ In check (p_selects node) ∧ sel_selected check = "true" ∧ sel_idref check ≠ ""
       ∧ In rule (Rules ruleDefs) ∧ r_id rule = sel_idref check
       ∧ In warn (r_warnings rule)
       ∧ In p (GetPathFromWarningXML warn
                 (getResourcePaths σ profileDefs ruleDefs profile overrideValueList).2))
  ∧ ((∀ node, In node (Profiles profileDefs) → p_id node ≠ profile) →
     (getResourcePaths σ profileDefs ruleDefs profile overrideValueList).1 = [])
  ∧ (Rules ruleDefs = [] →
     (getResourcePaths σ profileDefs ruleDefs profile overrideValueList).1 = [])
  ∧ (∀ other,
       (getResourcePaths σ profileDefs ruleDefs other overrideValueList).2
       = (getResourcePaths σ profileDefs ruleDefs profile overrideValueList).2).
Proof.
  rewrite getResourcePaths_eq. cbn [fst snd]. split; [|split; [|split]].
  - intros p (checkID & Hcheck & Hp)%in_flat_map.
    apply selectedChecksOf_source in Hcheck as (node & check & Hnode & Hid & Hsel & Htrue & Href & Hne).
    apply pathsOfCheck_source in Hp as (rule & warn & Hrule & Hrid & Hwarn & Hp).
    exists node, check, rule, warn. subst checkID. auto 12.
  - intros Habs. now rewrite selectedChecksOf_absent.
  - intros ->. apply pathsOfCheck_no_rules.
  - intros other. now rewrite getResourcePaths_eq.
Qed.

Lemma getResourcePaths_sound_witness :
  (@getResourcePaths Demo.demoUtils key_order Demo.demoBenchmark Demo.demoBenchmark
     "no_such_profile" None).1 = []
  ∧ (@getResourcePaths Demo.demoUtils key_order Demo.demoBenchmark Demo.demoTailoring
       "P" None).1 = [].
Proof.
  split.
  - destruct (@getResourcePaths_sound Demo.demoUtils key_order Demo.demoBenchmark
                Demo.demoBenchmark "no_such_profile" None) as (_ & Habs & _).
    apply Habs. intros node [<-|[<-|[]]]; discriminate.
  - destruct (@getResourcePaths_sound Demo.demoUtils key_order Demo.demoBenchmark
                Demo.demoTailoring "P" None) as (_ & _ & Hrules & _).
    apply Hrules. reflexivity.
Defined.

(** X5: [getExtendedProfileFromTailoring] gives the [extends] id of the
    first profile that has the given id and an [extends] id; it gives the
    empty id when no profile with the given id extends another one, in
    particular when the document has no such profile; an id that is not
    empty is always the [extends] id of a profile with the given id. *)
Theorem getExtendedProfileFromTailoring_first (ds : Document) (tailoredProfile : string) :
  (∀ before node after,
      Profiles ds = before ++ node :: after →
      p_id node = tailoredProfile → p_extends node ≠ "" →
      (∀ q, In q before → p_id q = tailoredProfile → p_extends q = "") →
      getExtendedProfileFromTailoring ds tailoredProfile = p_extends node)
  ∧ ((∀ q, In q (Profiles ds) → p_id q = tailoredProfile → p_extends q = "") →
     getExtendedProfileFromTailoring ds tailoredProfile = "")
  ∧ (getExtendedProfileFromTailoring ds tailoredProfile ≠ "" →
     ∃ node, In node (Profiles ds) ∧ p_id node = tailoredProfile
             ∧ p_extends node = getExtendedProfileFromTailoring ds tailoredProfile).
Proof.
  unfold getExtendedProfileFromTailoring.
  assert (Hskip : ∀ q, (p_id q = tailoredProfile → p_extends q = "") →
                       extendsOf tailoredProfile q = None).
  { intros q Hq. unfold extendsOf.
    destruct (String.eqb_spec (p_id q) tailoredProfile) as [Hid|_]; [|reflexivity].
    simpl. now rewrite (Hq Hid). }
  assert (Hnone : ∀ l, (∀ q, In q l → p_id q = tailoredProfile → p_extends q = "") →
                       ∀ rest, getExtendedProfileFrom (l ++ rest) tailoredProfile
                               = getExtendedProfileFrom rest tailoredProfile).
  { induction l as [|q l IH]; intros Hl rest; simpl; [reflexivity|].
    rewrite Hskip by (apply Hl; now left). apply IH. intros q' Hq'. apply Hl. now right. }
  split; [|split].
  - intros before node after -> Hid Hext Hbefore. rewrite Hnone by exact Hbefore.
    simpl. unfold extendsOf. apply String.eqb_eq in Hid. apply String.eqb_neq in Hext.
    now rewrite Hid, Hext.
  - intros Hall. rewrite <- (app_nil_r (Profiles ds)). now rewrite Hnone.
  - induction (Profiles ds) as [|q l IH]; simpl; [congruence|].
    destruct (extendsOf tailoredProfile q) as [profileID|] eqn:E.
    + intros _. exists q. split; [now left|]. unfold extendsOf in E.
      destruct (String.eqb_spec (p_id q) tailoredProfile) as [Hid|_]; [|discriminate].
      simpl in E. destruct (String.eqb (p_extends q) ""); [discriminate|].
      simpl in E. injection E as <-. auto.
    + intros Hres. destruct (IH Hres) as (node & Hin & Hn). exists node. auto.
Qed.

Lemma getExtendedProfileFromTailoring_first_witness :
  getExtendedProfileFromTailoring Demo.demoTailoring "T" = "P"
  ∧ getExtendedProfileFromTailoring Demo.demoTailoring "other" = "".
Proof.
  split.
  - destruct (getExtendedProfileFromTailoring_first Demo.demoTailoring "T") as (Hfirst & _ & _).
    apply (Hfirst [] (mkProfile "T" "P" []) []); [reflexivity | reflexivity | discriminate |].
    intros q [].
  - destruct (getExtendedProfileFromTailoring_first Demo.demoTailoring "other") as (_ & Habs & _).
    apply Habs. intros q [<-|[]]. discriminate.
Defined.

End SelectionFacts.

(** ** The loop of the fetch *)

Module FetchLoopFacts.
Import Terms.
Import GoStrings GoStringsFacts GoErrors Discovery DiscoveryFacts Fetch FetchFacts ReconcileFacts.

Section WithLibraries.
Context `{FilterEngine} `{Streamer} `{JsonDiff}.

(** One path writes at most its own DumpPath, removes nothing and appends
    at most one warning. *)
Lemma fetchOne_frame (rpath : ResourcePath) (results results' : gmap string string)
    (warnings warnings' : list string) :
  fetchOne rpath (results, warnings) = inr (results', warnings') →
  (∃ added, warnings' = warnings ++ added ∧ (length added <= 1)%nat)
  ∧ (∀ k, k ≠ DumpPath rpath → results' !! k = results !! k)
  ∧ (∀ k, is_Some (results !! k) → is_Some (results' !! k)).
Proof.
  assert (Hkeep : (∃ added : list string, warnings = warnings ++ added ∧ (length added <= 1)%nat))
    by (exists []; rewrite app_nil_r; simpl; auto).
  assert (Hadd : ∀ x : string, ∃ added, warnings ++ [x] = warnings ++ added ∧ (length added <= 1)%nat)
    by (intros x; exists [x]; simpl; auto).
  assert (Hins : ∀ v : string,
            (∀ k, k ≠ DumpPath rpath → <[DumpPath rpath := v]> results !! k = results !! k)
            ∧ (∀ k, is_Some (results !! k) → is_Some (<[DumpPath rpath := v]> results !! k))).
  { intros v. split.
    - intros k Hne. now rewrite lookup_insert_ne.
    - intros k Hk. destruct (decide (DumpPath rpath = k)) as [<-|Hne].
      + rewrite lookup_insert_eq. eauto.
      + now rewrite lookup_insert_ne. }
  unfold fetchOne. destruct (Stream (ObjPath rpath)) as [e|err|body].
  - destruct (IsNoMatchError e || IsForbidden e || IsNotFound e); [|discriminate].
    destruct (IsNotFound e); intros [= <- <-].
    + split; [apply Hadd | apply Hins].
    + split; [apply Hadd | auto].
  - discriminate.
  - destruct (Nat.eqb (String.length body) 0).
    { intros [= <- <-]. auto. }
    destruct (negb (String.eqb (Filter rpath) "")).
    + destruct (filter body (Filter rpath)) as [filteredBody [fe|]].
      * destruct (Is_MoreThanOneObjErr fe); [|discriminate].
        intros [= <- <-]. split; [apply Hadd | apply Hins].
      * intros [= <- <-]. split; [exact Hkeep | apply Hins].
    + intros [= <- <-]. split; [exact Hkeep | apply Hins].
Qed.

Lemma fetchLoop_frame (objects : list ResourcePath) (results results' : gmap string string)
    (warnings warnings' : list string) :
  fetchLoop objects (results, warnings) = inr (results', warnings') →
  (∃ added, warnings' = warnings ++ added ∧ (length added <= length objects)%nat)
  ∧ (∀ k, (∀ p, In p objects → DumpPath p ≠ k) → results' !! k = results !! k)
  ∧ (∀ k, is_Some (results !! k) → is_Some (results' !! k)).
Proof.
  revert results warnings. induction objects as [|rpath rest IH]; intros results warnings;
    cbn [fetchLoop].
  - intros [= <- <-]. split; [exists []; now rewrite app_nil_r | auto].
  - destruct (fetchOne rpath (results, warnings)) as [err|[r1 w1]] eqn:Hone; [discriminate|].
    intros Hloop.
    destruct (fetchOne_frame _ _ _ _ _ Hone) as ((a1 & -> & Hl1) & Hother1 & Hkeep1).
    destruct (IH _ _ Hloop) as ((a2 & -> & Hl2) & Hother2 & Hkeep2).
    split; [|split].
    + exists (a1 ++ a2). rewrite length_app, app_assoc. cbn [length]. split; [reflexivity | lia].
    + intros k Hk. rewrite Hother2 by (intros p Hp; apply Hk; now right).
      apply Hother1. intros E. now apply (Hk rpath (or_introl eq_refl)).
    + auto.
Qed.

Lemma fetchLoop_failure (objects : list ResourcePath) (results : gmap string string)
    (warnings ws : list string) (err : error) :
  fetchLoop objects (results, warnings) = inl (ws, err) →
  ∃ added, ws = warnings ++ added ∧ (length added < length objects)%nat.
Proof.
  revert results warnings. induction objects as [|rpath rest IH]; intros results warnings;
    cbn [fetchLoop].
  - discriminate.
  - destruct (fetchOne rpath (results, warnings)) as [e|[r1 w1]] eqn:Hone.
    + intros [= <- <-]. exists []. rewrite app_nil_r. cbn [length]. split; [reflexivity | lia].
    + intros Hloop. destruct (fetchOne_frame _ _ _ _ _ Hone) as ((a1 & -> & Hl1) & _).
      destruct (IH _ _ Hloop) as (a2 & -> & Hl2). exists (a1 ++ a2).
      rewrite length_app, app_assoc. cbn [length]. split; [reflexivity | lia].
Qed.

(** Every key of the map of the loop is the DumpPath of a path. *)
Lemma fetchLoop_keys (objects : list ResourcePath) (results' : gmap string string)
    (warnings' : list string) (k : string) :
  fetchLoop objects (∅, []) = inr (results', warnings') →
  is_Some (results' !! k) → ∃ p, In p objects ∧ DumpPath p = k.
Proof.
  intros Hloop Hk. destruct (fetchLoop_frame _ _ _ _ _ Hloop) as (_ & Hother & _).
  destruct (in_dec string_dec k (map DumpPath objects)) as [Hin|Hnot].
  - apply in_map_iff in Hin as (p & Hp & Hin). eauto.
  - rewrite Hother, lookup_empty in Hk; [now destruct Hk|].
    intros p Hp E. apply Hnot. apply in_map_iff. eauto.
Qed.

(** Without an entry that is read as a node of a role, the reconciliation
    returns what it is given. *)
Lemma reconcileLoop_no_nodes (l : list (string * string)) (st : gmap string string * list string) :
  (∀ entry, In entry l → (getRoleNodeNameFromDumpPath entry.1).1 = "") →
  reconcileLoop l st = inr st.
Proof.
  induction l as [|[k v] l IH]; intros Hl; simpl; [reflexivity|].
  rewrite reconcileOne_other by (apply (Hl (k, v)); now left).
  apply IH. intros entry Hin. apply Hl. now right.
Qed.

Lemma saveConsistentKubeletResult_no_nodes (σ : RangeOrder string)
    (result : gmap string string) (warning : list string) :
  valid_order σ →
  (∀ k v, result !! k = Some v → (getRoleNodeNameFromDumpPath k).1 = "") →
  saveConsistentKubeletResult σ result warning = (Some result, warning, None).
Proof.
  intros Hσ Hnone. unfold saveConsistentKubeletResult.
  destruct (Nat.eqb (size result) 0); [reflexivity|].
  rewrite reconcileLoop_no_nodes.
  - now rewrite (valid_order_empty σ Hσ).
  - intros [k v] Hin. apply list_elem_of_In in Hin.
    apply (elem_of_valid_order σ result k v Hσ) in Hin. simpl. now apply (Hnone k v).
Qed.

End WithLibraries.

(** X6: the loop of [fetch] only adds.  When it succeeds, the warnings it
    returns are the warnings it started with followed by at most one
    warning per path, every key that is not the DumpPath of one of the
    paths keeps its entry, and no key is removed.  When a path fails, the
    warnings returned with the error are the warnings so far, fewer new
    ones than there are paths. *)
Theorem fetchLoop_only_adds `{FilterEngine} `{Streamer}
    (objects : list ResourcePath) (results : gmap string string) (warnings : list string) :
  (∀ results' warnings',
      fetchLoop objects (results, warnings) = inr (results', warnings') →
      (∃ added, warnings' = warnings ++ added ∧ (length added <= length objects)%nat)
      ∧ (∀ k, (∀ p, In p objects → DumpPath p ≠ k) → results' !! k = results !! k)
      ∧ (∀ k, is_Some (results !! k) → is_Some (results' !! k)))
  ∧ (∀ ws err,
      fetchLoop objects (results, warnings) = inl (ws, err) →
      ∃ added, ws = warnings ++ added ∧ (length added < length objects)%nat).
Proof.
  split.
  - intros results' warnings'. apply fetchLoop_frame.
  - intros ws err. apply fetchLoop_failure.
Qed.

Lemma fetchLoop_only_adds_witness :
  ∃ results' added,
    @fetchLoop DemoFetch.demoFilter DemoFetch.demoStreamer
      [mkResourcePath "/missing" "/dump/missing" ""; mkResourcePath "/version" "/version" ""]
      ({[ "/old" := "kept" ]}, ["first"])
    = inr (results', ["first"] ++ added)
    ∧ (length added <= 2)%nat ∧ results' !! "/old" = Some "kept".
Proof.
  destruct (@fetchLoop_only_adds DemoFetch.demoFilter DemoFetch.demoStreamer
              [mkResourcePath "/missing" "/dump/missing" ""; mkResourcePath "/version" "/version" ""]
              {[ "/old" := "kept" ]} ["first"]) as [Hok _].
  destruct (Hok {[ "/old" := "kept"; "/dump/missing" := "# kube-api-error=NotFound";
                   "/version" := "{/version}" ]}
                ["first"; couldNotFetch "/missing" DemoFetch.notFoundErr])
    as ((added & Hadd & Hlen) & Hother & _).
  { vm_compute. reflexivity. }
  eexists _, added. split; [|split].
  - rewrite <- Hadd. vm_compute. reflexivity.
  - exact Hlen.
  - rewrite Hother; [reflexivity|]. intros p [<-|[<-|[]]]; discriminate.
Defined.

End FetchLoopFacts.

Module FetchPlainFacts.
Import Terms CollectorTerms.
Import GoStrings GoStringsFacts GoErrors Discovery DiscoveryFacts Fetch FetchFacts ReconcileFacts.
Import FetchLoopFacts.

Section WithLibraries.
Context `{FilterEngine} `{Streamer} `{JsonDiff}.


Lemma fetchOne_plain (rpath : ResourcePath) (body : string)
    (st : gmap string string * list string) :
  Filter rpath = "" → Stream (ObjPath rpath) = Body body → body ≠ "" →
  fetchOne rpath st = inr (<[DumpPath rpath := body]> st.1, st.2).
Proof.
  intros Hf Hs Hb. destruct st as [results warnings]. unfold fetchOne.
  rewrite Hs, Hf. destruct body as [|a body]; [now destruct Hb|]. reflexivity.
Qed.

Lemma fetchLoop_plain (objects : list ResourcePath) (results : gmap string string)
    (warnings : list string) :
  (∀ p, In p objects → plainPath p) → NoDup (map DumpPath objects) →
  ∃ results',
    fetchLoop objects (results, warnings) = inr (results', warnings)
    ∧ (∀ p body, In p objects → Stream (ObjPath p) = Body body →
         results' !! DumpPath p = Some body)
    ∧ (∀ k, (∀ p, In p objects → DumpPath p ≠ k) → results' !! k = results !! k).
Proof.
  revert results. induction objects as [|rpath rest IH]; intros results Hplain Hnd.
  - exists results. split; [reflexivity|]. split; [intros p body [] | reflexivity].
  - simpl in Hnd. apply NoDup_cons in Hnd as [Hnotin Hnd].
    destruct (Hplain rpath (or_introl eq_refl)) as (Hf & body & Hs & Hb).
    destruct (IH (<[DumpPath rpath := body]> results)) as (results' & Hloop & Hbodies & Hother).
    { intros p Hp. apply Hplain. now right. }
    { exact Hnd. }
    exists results'. cbn [fetchLoop]. rewrite (fetchOne_plain rpath body _ Hf Hs Hb).
    split; [exact Hloop|]. split.
    + intros p b [<-|Hp] Hsp.
      * rewrite Hs in Hsp. injection Hsp as <-. rewrite Hother.
        -- apply lookup_insert_eq.
        -- intros q Hq E. apply Hnotin. apply list_elem_of_In, in_map_iff. eauto.
      * now apply Hbodies.
    + intros k Hk. rewrite Hother by (intros p Hp; apply Hk; now right).
      apply lookup_insert_ne. apply (Hk rpath). now left.
Qed.

End WithLibraries.

(** X7: paths without a filter pass the fetched bytes through.  For paths
    with different DumpPaths, none of them the key of a node of a role,
    each without a filter and each with a body that is not empty, [fetch]
    succeeds without a warning in every order of the ranges, and its map
    has exactly these DumpPaths, each with the body of its path as it
    was streamed. *)
Theorem fetch_passes_plain_paths `{FilterEngine} `{Streamer} `{JsonDiff}
    (σ : RangeOrder string) (objects : list ResourcePath) :
  valid_order σ →
  (∀ p, In p objects → plainPath p) →
  NoDup (map DumpPath objects) →
  (∀ p, In p objects → (getRoleNodeNameFromDumpPath (DumpPath p)).1 = "") →
  ∃ results,
    fetch σ objects = (Some results, [], None)
    ∧ (∀ p body, In p objects → Stream (ObjPath p) = Body body →
         results !! DumpPath p = Some body)
    ∧ (∀ k, is_Some (results !! k) → ∃ p, In p objects ∧ DumpPath p = k).
Proof.
  intros Hσ Hplain Hnd Hrole.
  destruct (fetchLoop_plain objects ∅ [] Hplain Hnd) as (results & Hloop & Hbodies & Hother).
  assert (Hkeys : ∀ k, is_Some (results !! k) → ∃ p, In p objects ∧ DumpPath p = k).
  { intros k. now apply (fetchLoop_keys objects results []). }
  exists results. split; [|split; [exact Hbodies | exact Hkeys]].
  unfold fetch. rewrite Hloop. apply saveConsistentKubeletResult_no_nodes; [exact Hσ|].
  intros k v Hk. destruct (Hkeys k) as (p & Hp & <-); [eauto|]. now apply Hrole.
Qed.

Lemma fetch_passes_plain_paths_witness :
  ∃ results,
    @fetch DemoFetch.demoFilter DemoFetch.demoStreamer DemoFetch.demoJsonDiff key_order
      [mkResourcePath "/version" "/version" ""; mkResourcePath "/api/v1/nodes" "/api/v1/nodes" ""]
    = (Some results, [], None)
    ∧ results !! "/version" = Some "{/version}"
    ∧ results !! "/api/v1/nodes" = Some "{/api/v1/nodes}".
Proof.
  destruct (@fetch_passes_plain_paths DemoFetch.demoFilter DemoFetch.demoStreamer
              DemoFetch.demoJsonDiff key_order
              [mkResourcePath "/version" "/version" "";
               mkResourcePath "/api/v1/nodes" "/api/v1/nodes" ""])
    as (results & Hrun & Hbodies & _).
  - apply valid_key_order.
  - intros p [<-|[<-|[]]]; (split; [reflexivity|]); eexists; (split; [reflexivity | discriminate]).
  - repeat constructor; rewrite ?list_elem_of_In; simpl; intuition discriminate.
  - intros p [<-|[<-|[]]]; reflexivity.
  - exists results. split; [exact Hrun|]. split.
    + apply (Hbodies (mkResourcePath "/version" "/version" "")); [now left | reflexivity].
    + apply (Hbodies (mkResourcePath "/api/v1/nodes" "/api/v1/nodes" ""));
        [right; now left | reflexivity].
Defined.

(** X8: a filter that cannot be used ends the run.  For a path with a
    filter and a body that is not empty, [fetch] returns no map, the
    warnings so far and an error that wraps the cause, when the
    expression does not parse, when the body does not decode, when the
    first value of the query is an error, and when the first value cannot
    be encoded; the cause must not be the error for more than one object,
    which is the only filter error that [fetch] takes for a warning. *)
Theorem filter_failures_abort `{FilterEngine} `{Streamer} `{JsonDiff}
    (σ : RangeOrder string) (pre post : list ResourcePath) (rpath : ResourcePath)
    (body : string) (results : gmap string string) (warnings : list string) :
  fetchLoop pre (∅, []) = inr (results, warnings) →
  Stream (ObjPath rpath) = Body body → body ≠ "" → Filter rpath ≠ "" →
  let aborted cause :=
    fetch σ (pre ++ rpath :: post)
    = (None, warnings, Some (Wrapf ("couldn't filter '" +:+ body +:+ "': ") cause "")) in
  (∀ fltrErr, gojq_Parse (Filter rpath) = inl fltrErr → Is_MoreThanOneObjErr fltrErr = false →
      aborted (Wrapf ("could not create filter '" +:+ Filter rpath +:+ "': ") fltrErr ""))
  ∧ (∀ fltr unmarshallErr, gojq_Parse (Filter rpath) = inr fltr →
      json_Unmarshal body = inl unmarshallErr → Is_MoreThanOneObjErr unmarshallErr = false →
      aborted (Wrapf "Error unmarshalling json: " unmarshallErr ""))
  ∧ (∀ fltr obj err more, gojq_Parse (Filter rpath) = inr fltr → json_Unmarshal body = inr obj →
      gojq_Run fltr obj = inl err :: more → Is_MoreThanOneObjErr err = false →
      aborted err)
  ∧ (∀ fltr obj v more marshallErr, gojq_Parse (Filter rpath) = inr fltr →
      json_Unmarshal body = inr obj → gojq_Run fltr obj = inr v :: more →
      json_Marshal v = inl marshallErr → Is_MoreThanOneObjErr marshallErr = false →
      aborted (Wrapf "Error marshalling json: " marshallErr "")).
Proof.
  intros Hpre Hstream Hbody Hflt. cbv zeta.
  assert (Hone : ∀ cause out,
            filter body (Filter rpath) = (out, Some cause) → Is_MoreThanOneObjErr cause = false →
            fetch σ (pre ++ rpath :: post)
            = (None, warnings, Some (Wrapf ("couldn't filter '" +:+ body +:+ "': ") cause ""))).
  { intros cause out Hfilter Hnot.
    apply (fetch_aborts σ pre post rpath (results, warnings)); [exact Hpre|].
    unfold fetchOne. rewrite Hstream. destruct body as [|a body']; [now destruct Hbody|].
    apply String.eqb_neq in Hflt. cbn [String.length Nat.eqb]. rewrite Hflt. cbn [negb].
    rewrite Hfilter. now rewrite Hnot. }
  split; [|split; [|split]].
  - intros fltrErr Hparse Hnot. apply (Hone _ ""); [|exact Hnot].
    unfold filter. now rewrite Hparse.
  - intros fltr unmarshallErr Hparse Hdec Hnot. apply (Hone _ ""); [|exact Hnot].
    unfold filter. now rewrite Hparse, Hdec.
  - intros fltr obj err more Hparse Hdec Hrun Hnot. apply (Hone _ ""); [|exact Hnot].
    unfold filter. now rewrite Hparse, Hdec, Hrun.
  - intros fltr obj v more marshallErr Hparse Hdec Hrun Hmar Hnot.
    apply (Hone _ ""); [|exact Hnot].
    unfold filter. now rewrite Hparse, Hdec, Hrun, Hmar.
Qed.

Lemma filter_failures_abort_witness :
  @fetch DemoFetch.brokenFilter DemoFetch.demoStreamer DemoFetch.demoJsonDiff key_order
    ([] ++ mkResourcePath "/one" "/dump/one" "." :: [mkResourcePath "/version" "/version" ""])
  = (None, [],
     Some (Wrapf "couldn't filter '{/one}': "
             (Wrapf "could not create filter '.': " (New "no filter") "") "")).
Proof.
  destruct (@filter_failures_abort DemoFetch.brokenFilter DemoFetch.demoStreamer
              DemoFetch.demoJsonDiff key_order [] [mkResourcePath "/version" "/version" ""]
              (mkResourcePath "/one" "/dump/one" ".") "{/one}" ∅ []
              eq_refl eq_refl ltac:(discriminate) ltac:(discriminate))
    as (Hparse & _).
  apply (Hparse (New "no filter")); reflexivity.
Defined.

End FetchPlainFacts.


Module ReconcileMoreFacts.
Import Terms.
Import GoStrings GoStringsFacts GoErrors Discovery DiscoveryFacts Fetch FetchFacts ReconcileFacts.
Import FetchLoopFacts.

Section WithJsonDiff.
Context `{JsonDiff}.

(** A step of the first loop leaves the baselines of the other roles. *)
Lemma reconcileOne_other_role (st st' : gmap string string * list string)
    (entry : string * string) (role : string) :
  reconcileOne st entry = inr st' →
  (getRoleNodeNameFromDumpPath entry.1).1 ≠ role →
  st'.1 !! role = st.1 !! role.
Proof.
  destruct st as [roles warning], entry as [dumpPath content].
  destruct (getRoleNodeNameFromDumpPath dumpPath) as [r node] eqn:Hparse.
  cbn [fst snd]. rewrite Hparse. cbn [fst]. intros Hone Hr.
  destruct (decide (r = "")) as [->|Hne].
  - rewrite reconcileOne_other in Hone by now rewrite Hparse. now injection Hone as <-.
  - rewrite (reconcileOne_node roles warning dumpPath content r node Hparse Hne) in Hone.
    destruct (roles !! r) as [existingKC|].
    + destruct (CompareJSON existingKC content) as [err|[diff|]]; [discriminate| |].
      * destruct (JSONIntersection existingKC content) as [err|kc]; [discriminate|].
        injection Hone as <-. cbn [fst]. now apply lookup_insert_ne.
      * now injection Hone as <-.
    + injection Hone as <-. cbn [fst]. now apply lookup_insert_ne.
Qed.

(** The first loop on entries whose roles agree: every role gets the
    document of its nodes, and no warning is added. *)
Lemma reconcileLoop_agreeing (doc : string → string) (l : list (string * string))
    (st : gmap string string * list string) :
  (∀ k c, (k, c) ∈ l → (getRoleNodeNameFromDumpPath k).1 ≠ "" →
      c = doc (getRoleNodeNameFromDumpPath k).1 ∧ CompareJSON c c = inr None) →
  (∀ r c, st.1 !! r = Some c → c = doc r) →
  ∃ roles,
    reconcileLoop l st = inr (roles, st.2)
    ∧ (∀ r c, roles !! r = Some c → c = doc r)
    ∧ (∀ r, is_Some (st.1 !! r) → is_Some (roles !! r))
    ∧ (∀ k c, (k, c) ∈ l → (getRoleNodeNameFromDumpPath k).1 ≠ "" →
         is_Some (roles !! (getRoleNodeNameFromDumpPath k).1)).
Proof.
  revert st. induction l as [|[k c] l IH]; intros [roles warning] Hl Hinv.
  - exists roles. cbn. split; [reflexivity|]. split; [exact Hinv|]. split; [auto|].
    intros k c Hin. now apply elem_of_nil in Hin.
  - cbn [reconcileLoop].
    assert (Hstep : ∃ roles1, reconcileOne (roles, warning) (k, c) = inr (roles1, warning)
              ∧ (∀ r c, roles1 !! r = Some c → c = doc r)
              ∧ (∀ r, is_Some (roles !! r) → is_Some (roles1 !! r))
              ∧ ((getRoleNodeNameFromDumpPath k).1 ≠ "" →
                   is_Some (roles1 !! (getRoleNodeNameFromDumpPath k).1))).
    { destruct (getRoleNodeNameFromDumpPath k) as [r node] eqn:Hparse. cbn [fst].
      destruct (decide (r = "")) as [->|Hne].
      - exists roles. rewrite reconcileOne_other by now rewrite Hparse.
        split; [reflexivity|]. split; [exact Hinv|]. split; [auto | congruence].
      - destruct (Hl k c) as [Hc Hcmp]; [left | now rewrite Hparse |].
        rewrite Hparse in Hc. cbn [fst] in Hc.
        rewrite (reconcileOne_node roles warning k c r node Hparse Hne).
        destruct (roles !! r) as [existingKC|] eqn:Hr.
        + assert (existingKC = c) as -> by (rewrite Hc; now apply Hinv).
          rewrite Hcmp. exists roles. split; [reflexivity|]. split; [exact Hinv|].
          split; [auto|]. intros _. rewrite Hr. eauto.
        + exists (<[r := c]> roles). split; [reflexivity|]. split; [|split].
          * intros r' c' Hr'. apply lookup_insert_Some in Hr' as [[<- <-]|[_ Hr']];
              [exact Hc | now apply Hinv].
          * intros r' Hsome. destruct (decide (r = r')) as [<-|Hd].
            -- rewrite lookup_insert_eq. eauto.
            -- now rewrite lookup_insert_ne.
          * intros _. rewrite lookup_insert_eq. eauto. }
    destruct Hstep as (roles1 & Hone & Hinv1 & Hmono1 & Hhead). rewrite Hone.
    destruct (IH (roles1, warning)) as (roles2 & Hloop & Hinv2 & Hmono2 & Hall).
    { intros k' c' Hin. apply Hl. now right. }
    { exact Hinv1. }
    exists roles2. cbn [fst snd] in *. split; [exact Hloop|]. split; [exact Hinv2|].
    split; [auto|]. intros k' c' Hin Hne.
    apply elem_of_cons in Hin as [[= -> ->]|Hin]; [auto | now apply (Hall k' c')].
Qed.

(** The first loop fails when the baseline of a role cannot be compared
    with the entries of the role that are still to be visited. *)
Lemma reconcileLoop_fails_baseline (role : string) (l : list (string * string))
    (st : gmap string string * list string) (baseline : string) :
  role ≠ "" → st.1 !! role = Some baseline →
  (∀ k c, (k, c) ∈ l → (getRoleNodeNameFromDumpPath k).1 = role →
      ∃ err, CompareJSON baseline c = inl err) →
  (∃ k c, (k, c) ∈ l ∧ (getRoleNodeNameFromDumpPath k).1 = role) →
  ∃ err, reconcileLoop l st = inl err.
Proof.
  intros Hne. revert st. induction l as [|[k c] l IH]; intros [roles warning] Hbase Hcmp Hex.
  - destruct Hex as (k & c & Hin & _). now apply elem_of_nil in Hin.
  - cbn [reconcileLoop fst] in *.
    destruct (decide ((getRoleNodeNameFromDumpPath k).1 = role)) as [Hk|Hk].
    + destruct (getRoleNodeNameFromDumpPath k) as [r node] eqn:Hparse. cbn [fst] in Hk. subst r.
      destruct (Hcmp k c) as [err Herr]; [left | now rewrite Hparse |].
      rewrite (reconcileOne_node roles warning k c role node Hparse Hne), Hbase, Herr. eauto.
    + destruct (reconcileOne (roles, warning) (k, c)) as [err|st1] eqn:Hone; [eauto|].
      apply IH.
      * rewrite (reconcileOne_other_role _ _ _ role Hone Hk). exact Hbase.
      * intros k' c' Hin. apply Hcmp. now right.
      * destruct Hex as (k' & c' & Hin & Hrole).
        apply elem_of_cons in Hin as [[= -> ->]|Hin]; [contradiction | eauto].
Qed.

Lemma reconcileLoop_fails (role : string) (l : list (string * string))
    (st : gmap string string * list string) :
  role ≠ "" → st.1 !! role = None → NoDup l.*1 →
  (∀ k c k' c', (k, c) ∈ l → (k', c') ∈ l → k ≠ k' →
      (getRoleNodeNameFromDumpPath k).1 = role → (getRoleNodeNameFromDumpPath k').1 = role →
      ∃ err, CompareJSON c c' = inl err) →
  (∃ k c k' c', (k, c) ∈ l ∧ (k', c') ∈ l ∧ k ≠ k'
      ∧ (getRoleNodeNameFromDumpPath k).1 = role ∧ (getRoleNodeNameFromDumpPath k').1 = role) →
  ∃ err, reconcileLoop l st = inl err.
Proof.
  intros Hne. revert st. induction l as [|[k c] l IH]; intros [roles warning] Hnone Hnd Hcmp Hex.
  - destruct Hex as (k & c & _ & _ & Hin & _). now apply elem_of_nil in Hin.
  - cbn [fst] in Hnone. rewrite fmap_cons in Hnd. cbn [fst] in Hnd.
    apply NoDup_cons in Hnd as [Hnotin Hnd].
    assert (Hfresh : ∀ k' c', (k', c') ∈ l → k ≠ k').
    { intros k' c' Hin ->. apply Hnotin. apply list_elem_of_fmap. now exists (k', c'). }
    destruct (decide ((getRoleNodeNameFromDumpPath k).1 = role)) as [Hk|Hk].
    + cbn [reconcileLoop].
      destruct (getRoleNodeNameFromDumpPath k) as [r node] eqn:Hparse. cbn [fst] in Hk. subst r.
      rewrite (reconcileOne_node roles warning k c role node Hparse Hne), Hnone.
      apply (reconcileLoop_fails_baseline role l _ c Hne).
      * cbn [fst]. apply lookup_insert_eq.
      * intros k' c' Hin Hrole. apply (Hcmp k c k' c'); [left | now right | eauto | | exact Hrole].
        now rewrite Hparse.
      * destruct Hex as (k1 & c1 & k2 & c2 & H1 & H2 & Hd & Hr1 & Hr2).
        apply elem_of_cons in H1 as [[= -> ->]|H1]; [|eauto].
        apply elem_of_cons in H2 as [[= -> ->]|H2]; [contradiction | eauto].
    + cbn [reconcileLoop].
      destruct (reconcileOne (roles, warning) (k, c)) as [err|st1] eqn:Hone; [eauto|].
      apply IH.
      * rewrite (reconcileOne_other_role _ _ _ role Hone Hk). exact Hnone.
      * exact Hnd.
      * intros k1 c1 k2 c2 H1 H2. apply Hcmp; now right.
      * destruct Hex as (k1 & c1 & k2 & c2 & H1 & H2 & Hd & Hr1 & Hr2).
        apply elem_of_cons in H1 as [[= -> ->]|H1]; [contradiction|].
        apply elem_of_cons in H2 as [[= -> ->]|H2]; [contradiction|].
        exists k1, c1, k2, c2. auto.
Qed.

End WithJsonDiff.

(** X9: a result without kubelet configurations of nodes is left as it
    is.  When no key of the result is read as the node of a role,
    [saveConsistentKubeletResult] returns the same map and the same
    warnings, in every order of the range; no role-level key is added. *)
Theorem reconciliation_without_nodes `{JsonDiff} (σ : RangeOrder string)
    (result : gmap string string) (warning : list string) :
  valid_order σ →
  (∀ k v, result !! k = Some v → (getRoleNodeNameFromDumpPath k).1 = "") →
  saveConsistentKubeletResult σ result warning = (Some result, warning, None).
Proof.
  intros Hσ Hnone. unfold saveConsistentKubeletResult.
  destruct (Nat.eqb (size result) 0); [reflexivity|].
  rewrite reconcileLoop_no_nodes.
  - now rewrite (valid_order_empty σ Hσ).
  - intros [k v] Hin. apply list_elem_of_In in Hin.
    apply (elem_of_valid_order σ result k v Hσ) in Hin. now apply (Hnone k v).
Qed.

Lemma reconciliation_without_nodes_witness :
  @saveConsistentKubeletResult DemoFetch.demoJsonDiff rev_key_order
    {[ "/version" := "v"; "/kubeletconfig/master" := "m" ]} ["w"]
  = (Some {[ "/version" := "v"; "/kubeletconfig/master" := "m" ]}, ["w"], None).
Proof.
  apply (@reconciliation_without_nodes DemoFetch.demoJsonDiff rev_key_order
           {[ "/version" := "v"; "/kubeletconfig/master" := "m" ]} ["w"]).
  - apply valid_rev_key_order.
  - intros k v Hk. apply lookup_insert_Some in Hk as [[<- _]|[_ Hk]]; [reflexivity|].
    apply lookup_singleton_Some in Hk as [<- _]. reflexivity.
Defined.

(** X10: nodes that agree give no warning.  When the nodes of every role
    report the same bytes, and these bytes compare equal to themselves,
    [saveConsistentKubeletResult] succeeds in every order of the range
    with the warnings it was given, and the role-level key of every role
    with a node holds the bytes of its nodes. *)
Theorem agreeing_nodes_reconcile_silently `{JsonDiff} (σ : RangeOrder string)
    (doc : string → string) (result : gmap string string) (warning : list string) :
  valid_order σ →
  (∀ k c, result !! k = Some c → (getRoleNodeNameFromDumpPath k).1 ≠ "" →
      c = doc (getRoleNodeNameFromDumpPath k).1 ∧ CompareJSON c c = inr None) →
  ∃ result',
    saveConsistentKubeletResult σ result warning = (Some result', warning, None)
    ∧ ∀ k c, result !! k = Some c → (getRoleNodeNameFromDumpPath k).1 ≠ "" →
        result' !! (kubeletConfigRolePathPrefix +:+ (getRoleNodeNameFromDumpPath k).1) = Some c.
Proof.
  intros Hσ Hagree. unfold saveConsistentKubeletResult.
  destruct (Nat.eqb_spec (size result) 0) as [Hz|_].
  { apply map_size_empty_iff in Hz. subst result. exists ∅. split; [reflexivity|].
    intros k c Hk. now rewrite lookup_empty in Hk. }
  destruct (reconcileLoop_agreeing doc (σ result) (∅, warning))
    as (roles & Hloop & Hinv & _ & Hall).
  { intros k c Hin. apply Hagree. now apply (elem_of_valid_order σ result k c Hσ). }
  { intros r c Hr. cbn [fst] in Hr. now rewrite lookup_empty in Hr. }
  rewrite Hloop. cbn [snd]. eexists. split; [reflexivity|].
  intros k c Hk Hne.
  destruct (Hall k c) as [c' Hc']; [now apply (elem_of_valid_order σ result k c Hσ) | exact Hne |].
  assert (c' = c) as ->.
  { rewrite (Hinv _ _ Hc'). symmetry. now apply (Hagree k c Hk Hne). }
  apply fold_saveRole_role.
  - now apply valid_order_NoDup_fst.
  - now apply (elem_of_valid_order σ roles _ c Hσ).
  - exact Hne.
Qed.

Lemma agreeing_nodes_reconcile_silently_witness :
  ∃ result',
    @saveConsistentKubeletResult DemoDocs.demoDocs rev_key_order DemoKubelet.agreeingNodes ["w"]
    = (Some result', ["w"], None)
    ∧ result' !! "/kubeletconfig/role/worker" = Some DemoDocs.bytesA
    ∧ result' !! "/kubeletconfig/role/master" = Some DemoDocs.bytesB.
Proof.
  destruct (@agreeing_nodes_reconcile_silently DemoDocs.demoDocs rev_key_order
              DemoKubelet.agreeingDoc DemoKubelet.agreeingNodes ["w"] valid_rev_key_order)
    as (result' & Hrun & Hroles).
  - intros k c Hk. unfold DemoKubelet.agreeingNodes in Hk.
    apply lookup_insert_Some in Hk as [[<- <-]|[_ Hk]]; [intros _; split; reflexivity|].
    apply lookup_insert_Some in Hk as [[<- <-]|[_ Hk]]; [intros _; split; reflexivity|].
    apply lookup_insert_Some in Hk as [[<- <-]|[_ Hk]]; [intros _; split; reflexivity|].
    apply lookup_singleton_Some in Hk as [<- <-]. intros Hne. now destruct Hne.
  - exists result'. split; [exact Hrun|]. split.
    + apply (Hroles (nodeKey "worker" "n1") DemoDocs.bytesA); [reflexivity | discriminate].
    + apply (Hroles (nodeKey "master" "m1") DemoDocs.bytesB); [reflexivity | discriminate].
Defined.

(** X11: nodes that cannot be compared end the run without its warnings.
    When the fetched map has two entries of one role, and the comparison
    fails on every two entries of this role, [fetch] returns an error with
    no map in every order of the range, and none of the warnings of the
    fetch loop.  This is so when the streaming of one of two nodes of a
    role was not found: the marker that the loop stored for it is no
    document. *)
Theorem uncomparable_nodes_abort `{FilterEngine} `{Streamer} `{JsonDiff}
    (σ : RangeOrder string) (objects : list ResourcePath)
    (results : gmap string string) (warnings : list string) (role k1 k2 c1 c2 : string) :
  valid_order σ →
  fetchLoop objects (∅, []) = inr (results, warnings) →
  role ≠ "" → k1 ≠ k2 →
  results !! k1 = Some c1 → results !! k2 = Some c2 →
  (getRoleNodeNameFromDumpPath k1).1 = role → (getRoleNodeNameFromDumpPath k2).1 = role →
  (∀ k c k' c', results !! k = Some c → results !! k' = Some c' → k ≠ k' →
      (getRoleNodeNameFromDumpPath k).1 = role → (getRoleNodeNameFromDumpPath k').1 = role →
      ∃ err, CompareJSON c c' = inl err) →
  ∃ err, fetch σ objects = (None, [], Some err).
Proof.
  intros Hσ Hloop Hne Hd Hk1 Hk2 Hr1 Hr2 Hcmp. unfold fetch. rewrite Hloop.
  unfold saveConsistentKubeletResult.
  destruct (Nat.eqb_spec (size results) 0) as [Hz|_].
  { apply map_size_empty_iff in Hz. subst results. now rewrite lookup_empty in Hk1. }
  destruct (reconcileLoop_fails role (σ results) (∅, warnings)) as [err Herr].
  - exact Hne.
  - apply lookup_empty.
  - now apply valid_order_NoDup_fst.
  - intros k c k' c' Hin Hin'. apply Hcmp; now apply (elem_of_valid_order σ results _ _ Hσ).
  - exists k1, c1, k2, c2. repeat split; try assumption;
      now apply (elem_of_valid_order σ results _ _ Hσ).
  - rewrite Herr. eauto.
Qed.

Lemma uncomparable_nodes_abort_witness :
  @fetchLoop DemoFetch.demoFilter DemoKubelet.kubeletStreamer
    [mkResourcePath "/api/v1/nodes/n1/proxy/configz" (nodeKey "worker" "n1") "";
     mkResourcePath "/api/v1/nodes/n2/proxy/configz" (nodeKey "worker" "n2") ""] (∅, [])
  = inr ({[ nodeKey "worker" "n1" := DemoDocs.bytesA;
            nodeKey "worker" "n2" := "# kube-api-error=NotFound" ]},
         [couldNotFetch "/api/v1/nodes/n2/proxy/configz" DemoFetch.notFoundErr])
  ∧ ∃ err,
      @fetch DemoFetch.demoFilter DemoKubelet.kubeletStreamer DemoDocs.demoDocs rev_key_order
        [mkResourcePath "/api/v1/nodes/n1/proxy/configz" (nodeKey "worker" "n1") "";
         mkResourcePath "/api/v1/nodes/n2/proxy/configz" (nodeKey "worker" "n2") ""]
      = (None, [], Some err).
Proof.
  assert (Hloop : @fetchLoop DemoFetch.demoFilter DemoKubelet.kubeletStreamer
    [mkResourcePath "/api/v1/nodes/n1/proxy/configz" (nodeKey "worker" "n1") "";
     mkResourcePath "/api/v1/nodes/n2/proxy/configz" (nodeKey "worker" "n2") ""] (∅, [])
  = inr ({[ nodeKey "worker" "n1" := DemoDocs.bytesA;
            nodeKey "worker" "n2" := "# kube-api-error=NotFound" ]},
         [couldNotFetch "/api/v1/nodes/n2/proxy/configz" DemoFetch.notFoundErr]))
    by (vm_compute; reflexivity).
  split; [exact Hloop|].
  apply (@uncomparable_nodes_abort DemoFetch.demoFilter DemoKubelet.kubeletStreamer
           DemoDocs.demoDocs rev_key_order _ _ _ "worker"
           (nodeKey "worker" "n1") (nodeKey "worker" "n2")
           DemoDocs.bytesA "# kube-api-error=NotFound"
           valid_rev_key_order Hloop ltac:(discriminate) ltac:(discriminate)
           eq_refl eq_refl eq_refl eq_refl).
  intros k c k' c' Hk Hk' Hd _ _.
  apply lookup_insert_Some in Hk as [[<- <-]|[_ Hk]];
    [|apply lookup_singleton_Some in Hk as [<- <-]];
    (apply lookup_insert_Some in Hk' as [[<- <-]|[_ Hk']];
      [|apply lookup_singleton_Some in Hk' as [<- <-]]);
    try (now destruct Hd); eexists; reflexivity.
Defined.

End ReconcileMoreFacts.


Module PersistenceFacts.
Import Terms PersistenceTerms.
Import GoStrings GoStringsFacts GoErrors GoPath GoPathFacts Persist PersistFacts Persistence.
Import DiscoveryFacts ReconcileFacts.

Lemma Join_app (a b : list string) :
  a ≠ [] → b ≠ [] → Join (a ++ b) "/" = Join a "/" +:+ "/" +:+ Join b "/".
Proof.
  intros Ha Hb. induction a as [|s a IH]; [congruence|].
  destruct a as [|s' a].
  - destruct b as [|t b]; [congruence|]. reflexivity.
  - change (Join ((s :: s' :: a) ++ b) "/") with (s +:+ "/" +:+ Join ((s' :: a) ++ b) "/").
    rewrite IH by congruence.
    change (Join (s :: s' :: a) "/") with (s +:+ "/" +:+ Join (s' :: a) "/").
    now rewrite !append_assoc.
Qed.

(** The file under a directory of proper names. *)
Lemma PathJoin_file (dsegs : list string) (f : string) :
  Forall (fun s => properName s = true) dsegs → dsegs ≠ [] → properName f = true →
  PathJoin [rootedPath dsegs; f] = rootedPath (dsegs ++ [f]).
Proof.
  intros Hd Hne Hf. pose proof (properName_inv _ Hf) as (Hs & _).
  unfold PathJoin, rootedPath.
  change (String.eqb (String slash (Join dsegs "/")) "") with false. cbv iota.
  change (Join [String slash (Join dsegs "/"); f] "/")
    with (String slash (Join dsegs "/") +:+ "/" +:+ f).
  rewrite append_cons. change ("/" +:+ f) with (String slash f).
  assert (E : SplitOn slash (Join dsegs "/" +:+ String slash f) = dsegs ++ [f]).
  { rewrite SplitOn_Join_sep by (auto using proper_no_slash).
    now rewrite no_slash_SplitOn. }
  rewrite Clean_rooted_elements; rewrite E.
  - rewrite filter_nonEmpty_proper; [reflexivity|].
    apply Forall_app. split; [exact Hd | now constructor].
  - apply Forall_app. split.
    + eapply Forall_impl; [exact Hd | auto].
    + constructor; [now right | constructor].
Qed.

(** The path under the root is the root followed by the path. *)
Lemma rootedPath_app (rsegs segs : list string) :
  rsegs ≠ [] → segs ≠ [] →
  rootedPath (rsegs ++ segs) = rootedPath rsegs +:+ rootedPath segs.
Proof.
  intros Hr Hs. unfold rootedPath. rewrite Join_app by assumption.
  rewrite append_cons. reflexivity.
Qed.

Section WithFileSystem.
Context `{FileSystem}.

(** Where the loop writes the entry of a path of proper names. *)
Lemma saveLoop_proper (rsegs segs : list string) (f content : string)
    (rest : list (string * string)) (disk : Disk) :
  Forall (fun s => properName s = true) rsegs → rsegs ≠ [] →
  Forall (fun s => properName s = true) segs → properName f = true →
  saveLoop (rootedPath rsegs) ((rootedPath (segs ++ [f]), content) :: rest) disk
  = match MkdirAll (rootedPath (rsegs ++ segs)) disk with
    | (disk, Some err) => (disk, Some err)
    | (disk, None) =>
        match WriteFile (rootedPath rsegs +:+ rootedPath (segs ++ [f])) content disk with
        | (disk, Some err) => (disk, Some err)
        | (disk, None) => saveLoop (rootedPath rsegs) rest disk
        end
    end.
Proof.
  intros Hr Hne Hs Hf. cbn [saveLoop].
  assert (E : getSaveDirectoryAndFileName (rootedPath rsegs) (rootedPath (segs ++ [f]))
              = inr (rootedPath (rsegs ++ segs), f)).
  { unfold getSaveDirectoryAndFileName, rootedPath.
    rewrite Base_rooted_proper by exact Hf.
    rewrite Dir_rooted_proper by assumption.
    pose proof (properName_inv _ Hf) as (Hsl & _ & Hd & _). rewrite Hd.
    assert (String.eqb f "/" = false) as ->.
    { apply String.eqb_neq. intros ->. discriminate Hsl. }
    cbn [orb]. assert (String.eqb (String slash (Join segs "/")) "." = false) as -> by reflexivity.
    now rewrite PathJoin_rooted. }
  rewrite E.
  rewrite PathJoin_file; [| apply Forall_app; now split | now destruct rsegs | exact Hf].
  rewrite <- app_assoc.
  rewrite (rootedPath_app rsegs (segs ++ [f])); [reflexivity | exact Hne | now destruct segs].
Qed.

Variable ReadFile : string → Disk → option string.
Hypothesis MkdirAll_keeps : ∀ dir disk disk' err,
  MkdirAll dir disk = (disk', err) → ∀ p, ReadFile p disk' = ReadFile p disk.
Hypothesis WriteFile_writes : ∀ p content disk disk',
  WriteFile p content disk = (disk', None) → ReadFile p disk' = Some content.
Hypothesis WriteFile_keeps : ∀ p content disk disk' err,
  WriteFile p content disk = (disk', err) → ∀ q, q ≠ p → ReadFile q disk' = ReadFile q disk.

(** The loop on paths of proper names, all different: every entry that
    was visited is on the disk, and no other file has changed. *)
Lemma saveLoop_written (rsegs : list string) (entries : list (string * string))
    (disk disk' : Disk) (err : option error) :
  Forall (fun s => properName s = true) rsegs → rsegs ≠ [] →
  (∀ k c, (k, c) ∈ entries →
      ∃ segs f, k = rootedPath (segs ++ [f])
                ∧ Forall (fun s => properName s = true) segs ∧ properName f = true) →
  NoDup entries.*1 →
  saveLoop (rootedPath rsegs) entries disk = (disk', err) →
  (err = None → ∀ k c, (k, c) ∈ entries → ReadFile (rootedPath rsegs +:+ k) disk' = Some c)
  ∧ (∀ p, (∀ k c, (k, c) ∈ entries → p ≠ rootedPath rsegs +:+ k) →
        ReadFile p disk' = ReadFile p disk).
Proof.
  intros Hr Hne. revert disk. induction entries as [|[k c] rest IH]; intros disk Hproper Hnd Hrun.
  - cbn in Hrun. injection Hrun as <- <-. split; [|reflexivity].
    intros _ k c Hin. now apply elem_of_nil in Hin.
  - rewrite fmap_cons in Hnd. cbn [fst] in Hnd. apply NoDup_cons in Hnd as [Hnotin Hnd].
    destruct (Hproper k c) as (segs & f & -> & Hs & Hf); [left|].
    rewrite (saveLoop_proper rsegs segs f c rest disk Hr Hne Hs Hf) in Hrun.
    destruct (MkdirAll (rootedPath (rsegs ++ segs)) disk) as [disk1 e1] eqn:Hmk.
    pose proof (MkdirAll_keeps _ _ _ _ Hmk) as Hkeep1.
    destruct e1 as [e1|].
    { injection Hrun as <- <-. split; [discriminate|]. intros p _. apply Hkeep1. }
    destruct (WriteFile (rootedPath rsegs +:+ rootedPath (segs ++ [f])) c disk1)
      as [disk2 e2] eqn:Hwr.
    pose proof (WriteFile_keeps _ _ _ _ _ Hwr) as Hkeep2.
    destruct e2 as [e2|].
    { injection Hrun as <- <-. split; [discriminate|]. intros p Hp.
      rewrite Hkeep2; [apply Hkeep1|]. apply (Hp _ c). left. }
    destruct (IH disk2) as [Hall Hframe]; [| exact Hnd | exact Hrun |].
    { intros k' c' Hin. apply (Hproper k' c'). now right. }
    split.
    + intros -> k' c' Hin. apply elem_of_cons in Hin as [[= -> ->]|Hin].
      * rewrite Hframe; [now apply (WriteFile_writes _ _ _ _ Hwr)|].
        intros k' c' Hin E. apply append_inj_l in E. apply Hnotin.
        apply list_elem_of_fmap. exists (k', c'). split; [exact E | exact Hin].
      * now apply (Hall eq_refl).
    + intros p Hp. rewrite Hframe by (intros k' c' Hin; apply (Hp k' c'); now right).
      rewrite Hkeep2; [apply Hkeep1|]. apply (Hp _ c). left.
Qed.

End WithFileSystem.

(** The error of [getSaveDirectoryAndFileName] names the path. *)
Lemma getSaveDirectoryAndFileName_error (rootDir apiPath : string) (e : error) :
  getSaveDirectoryAndFileName rootDir apiPath = inl e →
  e = New ("bad object path: " +:+ apiPath).
Proof.
  unfold getSaveDirectoryAndFileName.
  destruct (_ || _); [congruence|]. destruct (String.eqb _ _); congruence.
Qed.

Section Loop.
Context `{FileSystem}.

(** The loop stops at a path that is refused, with the disk as the
    entries before it left it. *)
Lemma saveLoop_stops (rootDir : string) (pre post : list (string * string))
    (k c : string) (e : error) (disk disk1 : Disk) :
  saveLoop rootDir pre disk = (disk1, None) →
  getSaveDirectoryAndFileName rootDir k = inl e →
  saveLoop rootDir (pre ++ (k, c) :: post) disk = (disk1, Some e).
Proof.
  intros Hpre Hbad. revert disk Hpre. induction pre as [|[k' c'] pre IH]; intros disk Hpre.
  - cbn in Hpre. injection Hpre as <-. cbn [app saveLoop]. now rewrite Hbad.
  - cbn [app saveLoop] in *.
    destruct (getSaveDirectoryAndFileName rootDir k') as [e'|[saveDir saveFile]]; [discriminate|].
    destruct (MkdirAll saveDir disk) as [d1 [e1|]]; [discriminate|].
    destruct (WriteFile _ c' d1) as [d2 [e2|]]; [discriminate|].
    now apply IH.
Qed.

(** The loop fails when one of its paths is refused. *)
Lemma saveLoop_fails (rootDir : string) (entries : list (string * string))
    (k c : string) (e : error) (disk : Disk) :
  (k, c) ∈ entries → getSaveDirectoryAndFileName rootDir k = inl e →
  ∃ err, (saveLoop rootDir entries disk).2 = Some err.
Proof.
  intros Hin Hbad. revert disk. induction entries as [|[k' c'] rest IH]; intros disk.
  - now apply elem_of_nil in Hin.
  - cbn [saveLoop].
    destruct (getSaveDirectoryAndFileName rootDir k') as [e'|[saveDir saveFile]] eqn:E; [eauto|].
    destruct (MkdirAll saveDir disk) as [d1 [e1|]]; [eauto|].
    destruct (WriteFile _ c' d1) as [d2 [e2|]]; [eauto|].
    apply IH. apply elem_of_cons in Hin as [[= -> ->]|Hin]; [congruence | exact Hin].
Qed.

End Loop.

(** The pieces of lines joined with newlines are the lines. *)
Lemma oneLine_SplitOn (s : string) : oneLine s = true → SplitOn newline s = [s].
Proof.
  induction s as [|a s IH]; simpl; [reflexivity|].
  intros [Ha Hs]%andb_prop. apply negb_true_iff in Ha. rewrite Ha, (IH Hs). reflexivity.
Qed.

Lemma SplitOn_line (s t : string) :
  oneLine s = true → SplitOn newline (s +:+ String newline t) = s :: SplitOn newline t.
Proof.
  induction s as [|a s IH]; sapp; simpl.
  - reflexivity.
  - intros [Ha Hs]%andb_prop. apply negb_true_iff in Ha. rewrite Ha, (IH Hs). reflexivity.
Qed.

Lemma SplitOn_Join_lines (lines : list string) :
  Forall (fun s => oneLine s = true) lines → lines ≠ [] →
  SplitOn newline (Join lines (String newline "")) = lines.
Proof.
  induction 1 as [|s lines Hs Hall IH]; [congruence|]. intros _.
  destruct lines as [|s' lines].
  - simpl. now apply oneLine_SplitOn.
  - change (Join (s :: s' :: lines) (String newline ""))
      with (s +:+ String newline "" +:+ Join (s' :: lines) (String newline "")).
    rewrite append_cons, append_nil.
    rewrite SplitOn_line by exact Hs. f_equal. now apply IH.
Qed.

(** X12: the fetched resources can be read back from the output
    directory.  On a file system where making a directory changes no file
    and writing a file changes this file only, a run of [saveResources]
    that ends without an error, for an output root and DumpPaths made of
    proper names, leaves every resource in the file [<root><DumpPath>]
    with the bytes of the map, in every order of the range, and changes no
    other file. *)
Theorem saveResources_read_back `{FileSystem} (ReadFile : string → Disk → option string)
    (σ : RangeOrder string) (rsegs : list string) (data : gmap string string)
    (disk disk' : Disk) :
  (∀ dir disk disk' err,
      MkdirAll dir disk = (disk', err) → ∀ p, ReadFile p disk' = ReadFile p disk) →
  (∀ p content disk disk',
      WriteFile p content disk = (disk', None) → ReadFile p disk' = Some content) →
  (∀ p content disk disk' err,
      WriteFile p content disk = (disk', err) → ∀ q, q ≠ p → ReadFile q disk' = ReadFile q disk) →
  valid_order σ →
  Forall (fun s => properName s = true) rsegs → rsegs ≠ [] →
  (∀ k c, data !! k = Some c →
      ∃ segs f, k = rootedPath (segs ++ [f])
                ∧ Forall (fun s => properName s = true) segs ∧ properName f = true) →
  saveResources σ (rootedPath rsegs) data disk = (disk', None) →
  (∀ k c, data !! k = Some c → ReadFile (rootedPath rsegs +:+ k) disk' = Some c)
  ∧ (∀ p, (∀ k, is_Some (data !! k) → p ≠ rootedPath rsegs +:+ k) →
        ReadFile p disk' = ReadFile p disk).
Proof.
  intros Hmk Hww Hwk Hσ Hr Hne Hproper Hrun. unfold saveResources in Hrun.
  destruct (saveLoop_written ReadFile Hmk Hww Hwk rsegs (σ data) disk disk' None Hr Hne)
    as [Hall Hframe].
  - intros k c Hin. apply (Hproper k c). now apply (elem_of_valid_order σ data k c Hσ).
  - now apply valid_order_NoDup_fst.
  - exact Hrun.
  - split.
    + intros k c Hk. apply (Hall eq_refl). now apply (elem_of_valid_order σ data k c Hσ).
    + intros p Hp. apply Hframe. intros k c Hin. apply Hp.
      apply (elem_of_valid_order σ data k c Hσ) in Hin. eauto.
Qed.

Lemma saveResources_read_back_witness :
  ∃ disk',
    @saveResources DemoDisk.memoryDisk rev_key_order "/out"
      {[ "/version" := "v"; "/api/v1/nodes" := "n" ]} {[ "/etc/passwd" := "p" ]}
    = (disk', None)
    ∧ DemoDisk.memoryRead "/out/version" disk' = Some "v"
    ∧ DemoDisk.memoryRead "/out/api/v1/nodes" disk' = Some "n"
    ∧ DemoDisk.memoryRead "/etc/passwd" disk' = Some "p".
Proof.
  destruct (@saveResources DemoDisk.memoryDisk rev_key_order "/out"
              {[ "/version" := "v"; "/api/v1/nodes" := "n" ]} {[ "/etc/passwd" := "p" ]})
    as [disk' err] eqn:Hrun.
  assert (Herr : err = None) by (vm_compute in Hrun; congruence). subst err.
  exists disk'. split; [reflexivity|].
  destruct (@saveResources_read_back DemoDisk.memoryDisk DemoDisk.memoryRead rev_key_order
              ["out"] {[ "/version" := "v"; "/api/v1/nodes" := "n" ]}
              {[ "/etc/passwd" := "p" ]} disk') as [Hall Hframe].
  - intros dir d d' err [= <- _] p. reflexivity.
  - intros p content d d'. cbn. destruct (String.eqb p "/readonly"); [discriminate|].
    intros [= <-]. apply lookup_insert_eq.
  - intros p content d d' err. cbn. destruct (String.eqb p "/readonly").
    + intros [= <- _] q _. reflexivity.
    + intros [= <- _] q Hq. apply lookup_insert_ne. congruence.
  - apply valid_rev_key_order.
  - repeat constructor.
  - discriminate.
  - intros k c Hk. apply lookup_insert_Some in Hk as [[<- <-]|[_ Hk]].
    + exists [], "version". repeat split; constructor.
    + apply lookup_singleton_Some in Hk as [<- <-].
      exists ["api"; "v1"], "nodes". repeat split; repeat constructor.
  - exact Hrun.
  - split; [|split].
    + apply (Hall "/version" "v"). reflexivity.
    + apply (Hall "/api/v1/nodes" "n"). reflexivity.
    + rewrite Hframe; [reflexivity|]. intros k [c Hk].
      apply lookup_insert_Some in Hk as [[<- <-]|[_ Hk]]; [discriminate|].
      apply lookup_singleton_Some in Hk as [<- <-]. discriminate.
Defined.

(** X13: one path that is refused fails the whole save, after a part of
    it.  When a key of the map has no directory or no file name for
    [getSaveDirectoryAndFileName], [saveResources] returns an error in
    every order of the range and on every file system; the entries that
    the range visits before this key are written first, and the error
    then is the one that names the key. *)
Theorem saveResources_bad_path `{FileSystem} (σ : RangeOrder string) (rootDir : string)
    (data : gmap string string) (k c : string) (e : error) (disk : Disk) :
  valid_order σ →
  data !! k = Some c →
  getSaveDirectoryAndFileName rootDir k = inl e →
  (∃ err, (saveResources σ rootDir data disk).2 = Some err)
  ∧ (∀ pre post disk1,
        σ data = pre ++ (k, c) :: post →
        saveLoop rootDir pre disk = (disk1, None) →
        saveResources σ rootDir data disk
        = (disk1, Some (New ("bad object path: " +:+ k)))).
Proof.
  intros Hσ Hk Hbad. split.
  - apply (saveLoop_fails rootDir (σ data) k c e disk); [|exact Hbad].
    now apply (elem_of_valid_order σ data k c Hσ).
  - intros pre post disk1 Hsplit Hpre. unfold saveResources. rewrite Hsplit.
    rewrite (saveLoop_stops rootDir pre post k c e disk disk1 Hpre Hbad).
    now rewrite (getSaveDirectoryAndFileName_error rootDir k e Hbad).
Qed.

Lemma saveResources_bad_path_witness :
  @saveResources DemoDisk.memoryDisk key_order "/out" DemoDisk.brokenData ∅
  = ({[ "/out/version" := "v" ]}, Some (New "bad object path: version"))
  ∧ ∃ err, (@saveResources DemoDisk.memoryDisk rev_key_order "/out"
              DemoDisk.brokenData ∅).2 = Some err.
Proof.
  split.
  - destruct (@saveResources_bad_path DemoDisk.memoryDisk key_order "/out"
                DemoDisk.brokenData "version" "x"
                (New "bad object path: version") ∅ valid_key_order
                ltac:(vm_compute; reflexivity) ltac:(vm_compute; reflexivity))
      as [_ Hpart].
    apply (Hpart [("/version", "v")] []); vm_compute; reflexivity.
  - destruct (@saveResources_bad_path DemoDisk.memoryDisk rev_key_order "/out"
                DemoDisk.brokenData "version" "x"
                (New "bad object path: version") ∅ valid_rev_key_order
                ltac:(vm_compute; reflexivity) ltac:(vm_compute; reflexivity))
      as [Hfail _].
    exact Hfail.
Defined.

(** X14: the warnings file has one warning per line.  Without warnings
    [SaveWarningsIfAny] writes nothing.  With warnings that are each one
    line, a call that ends without an error leaves a file whose lines, the
    pieces between its newlines, are the warnings in their order. *)
Theorem SaveWarningsIfAny_lines `{FileSystem} (ReadFile : string → Disk → option string)
    (warnings : list string) (outputFile : string) (disk disk' : Disk) :
  (∀ p content disk disk',
      WriteFile p content disk = (disk', None) → ReadFile p disk' = Some content) →
  Forall (fun w => oneLine w = true) warnings →
  SaveWarningsIfAny warnings outputFile disk = (disk', None) →
  (warnings = [] → disk' = disk)
  ∧ (warnings ≠ [] →
       ∃ content, ReadFile outputFile disk' = Some content
                  ∧ SplitOn newline content = warnings).
Proof.
  intros Hww Hlines Hrun. unfold SaveWarningsIfAny in Hrun. split.
  - intros ->. cbn in Hrun. congruence.
  - intros Hne. destruct warnings as [|w ws]; [congruence|]. cbn [length Nat.eqb] in Hrun.
    exists (Join (w :: ws) (String newline "")). split.
    + now apply (Hww _ _ _ _ Hrun).
    + now apply SplitOn_Join_lines.
Qed.

Lemma SaveWarningsIfAny_lines_witness :
  ∃ disk' content,
    @SaveWarningsIfAny DemoDisk.memoryDisk
      ["could not fetch /missing"; "more than one object"] "/out/warnings" ∅ = (disk', None)
    ∧ DemoDisk.memoryRead "/out/warnings" disk' = Some content
    ∧ SplitOn newline content = ["could not fetch /missing"; "more than one object"].
Proof.
  destruct (@SaveWarningsIfAny DemoDisk.memoryDisk
              ["could not fetch /missing"; "more than one object"] "/out/warnings" ∅)
    as [disk' err] eqn:Hrun.
  assert (Herr : err = None) by (vm_compute in Hrun; congruence). subst err.
  destruct (@SaveWarningsIfAny_lines DemoDisk.memoryDisk DemoDisk.memoryRead
              ["could not fetch /missing"; "more than one object"] "/out/warnings" ∅ disk')
    as [_ Hlines].
  - intros p content d d'. cbn. destruct (String.eqb p "/readonly"); [discriminate|].
    intros [= <-]. apply lookup_insert_eq.
  - repeat constructor.
  - exact Hrun.
  - destruct (Hlines ltac:(discriminate)) as (content & Hread & Hsplit).
    exists disk', content. auto.
Defined.

End PersistenceFacts.


Module MachineConfigFacts.
Import GoStrings GoStringsFacts GoErrors MachineConfigs MachineConfigTerms.

Section WithApi.
Context `{MachineConfigTypes} `{!MachineConfigApi}.

Lemma ltb_length (s : string) : Nat.ltb 0 (String.length s) = false ↔ s = "".
Proof. destruct s; cbn; split; intros E; first [reflexivity | discriminate E]. Qed.

Lemma filterMc_stripped (mc mc' : MachineConfig) :
  filterMc mc = inr mc' → stripped mc mc'.
Proof.
  unfold filterMc, stripped. destruct (Nat.ltb 0 (String.length (Raw mc))) eqn:E.
  - assert (Hne : Raw mc ≠ "") by (intros Hz; apply ltb_length in Hz; congruence).
    destruct (ParseAndConvertConfig (Raw mc)) as [err|ign] eqn:Hp; [discriminate|].
    destruct (json_Marshal_Ignition _) as [err|raw] eqn:Hm; [discriminate|].
    intros [= <-]. cbn. repeat split; [contradiction|]. intros _. eauto.
  - apply ltb_length in E. intros [= <-]. repeat split; [auto | contradiction].
Qed.

Lemma filterMcItems_stripped (items acc out : list MachineConfig) :
  filterMcItems items acc = inr out →
  ∃ items', out = acc ++ items' ∧ Forall2 stripped items items'.
Proof.
  revert acc. induction items as [|mc rest IH]; intros acc; cbn [filterMcItems].
  - intros [= <-]. exists []. split; [now rewrite app_nil_r | constructor].
  - destruct (filterMc mc) as [err|mc'] eqn:Hmc; [discriminate|]. intros Hrest.
    destruct (IH _ Hrest) as (items' & -> & Hall). exists (mc' :: items'). split.
    + now rewrite <- app_assoc.
    + constructor; [now apply filterMc_stripped | exact Hall].
Qed.

Lemma filterMcItems_first_error (pre post acc : list MachineConfig) (mc : MachineConfig)
    (err : error) :
  Forall (fun m => ∃ m', filterMc m = inr m') pre → filterMc mc = inl err →
  filterMcItems (pre ++ mc :: post) acc = inl err.
Proof.
  intros Hpre Hmc. revert acc. induction Hpre as [|m pre [m' Hm] _ IH]; intros acc.
  - cbn [app filterMcItems]. now rewrite Hmc.
  - cbn [app filterMcItems]. rewrite Hm. apply IH.
Qed.

Lemma filterMcItems_total (items acc : list MachineConfig) :
  Forall (fun m => ∃ m', filterMc m = inr m') items →
  ∃ out, filterMcItems items acc = inr out.
Proof.
  intros Hall. revert acc. induction Hall as [|m items [m' Hm] _ IH]; intros acc.
  - eauto.
  - cbn [filterMcItems]. rewrite Hm. apply IH.
Qed.

(** The rounds of the loop on pages that are served and pass the
    filter, when the last of them has a continue token. *)
Lemma streamPages_rounds (pages filtered : list MachineConfigList) (token next : string)
    (items : list MachineConfig) (fuel : nat) :
  follows token pages next → (pages ≠ [] → next ≠ "") →
  Forall2 (fun page batch => filterMcList page = inr batch) pages filtered →
  streamPages (length pages + fuel) token items
  = streamPages fuel next (items ++ concat (map Items filtered)).
Proof.
  intros Hserved Hnext Hfiltered. revert token items Hserved Hnext.
  induction Hfiltered as [|page batch pages filtered Hbatch Hrest IH];
    intros token items Hserved Hnext.
  - cbn in Hserved. subst next. cbn. now rewrite app_nil_r.
  - cbn [follows] in Hserved. destruct Hserved as [Hpage Hmore].
    cbn [length Nat.add streamPages]. rewrite Hpage, Hbatch.
    cbn [map concat]. rewrite app_assoc. destruct pages as [|page' pages].
    + subst next. apply Forall2_nil_inv_l in Hrest. subst filtered.
      assert (E : String.eqb (Continue (listListMeta page)) "" = false).
      { apply String.eqb_neq. now apply Hnext. }
      rewrite E. cbn. now rewrite !app_nil_r.
    + destruct Hmore as [Hne Hmore].
      assert (E : String.eqb (Continue (listListMeta page)) "" = false)
        by now apply String.eqb_neq.
      rewrite E. apply IH; [exact Hmore|]. intros _. apply Hnext. discriminate.
Qed.

(** The loop ends with the page that has no continue token. *)
Lemma streamPages_ends (pages filtered : list MachineConfigList) (token : string)
    (items : list MachineConfig) (fuel : nat) :
  follows token pages "" → pages ≠ [] →
  Forall2 (fun page batch => filterMcList page = inr batch) pages filtered →
  streamPages (length pages + fuel) token items
  = Some (inr (items ++ concat (map Items filtered))).
Proof.
  intros Hserved Hne Hfiltered. revert token items Hserved Hne.
  induction Hfiltered as [|page batch pages filtered Hbatch Hrest IH];
    intros token items Hserved Hne; [congruence|].
  cbn [follows] in Hserved. destruct Hserved as [Hpage Hmore].
  cbn [length Nat.add streamPages]. rewrite Hpage, Hbatch.
  cbn [map concat]. rewrite app_assoc. destruct pages as [|page' pages].
  - apply Forall2_nil_inv_l in Hrest. subst filtered. rewrite Hmore.
    cbn. now rewrite !app_nil_r.
  - destruct Hmore as [Hcont Hmore].
    assert (E : String.eqb (Continue (listListMeta page)) "" = false)
      by now apply String.eqb_neq.
    rewrite E. apply IH; [exact Hmore | discriminate].
Qed.

(** With less fuel than pages the loop does not end. *)
Lemma streamPages_short (pages filtered : list MachineConfigList) (token next : string)
    (items : list MachineConfig) (fuel : nat) :
  follows token pages next → (fuel < length pages)%nat →
  Forall2 (fun page batch => filterMcList page = inr batch) pages filtered →
  streamPages fuel token items = None.
Proof.
  intros Hserved Hfuel Hfiltered. revert token items fuel Hserved Hfuel.
  induction Hfiltered as [|page batch pages filtered Hbatch Hrest IH];
    intros token items fuel Hserved Hfuel; [cbn in Hfuel; lia|].
  destruct fuel as [|fuel]; [reflexivity|].
  cbn [follows] in Hserved. destruct Hserved as [Hpage Hmore].
  cbn [length] in Hfuel. cbn [streamPages]. rewrite Hpage, Hbatch.
  destruct pages as [|page' pages]; [cbn in Hfuel; lia|].
  destruct Hmore as [Hcont Hmore].
  assert (E : String.eqb (Continue (listListMeta page)) "" = false)
    by now apply String.eqb_neq.
  rewrite E. apply IH; [exact Hmore | lia].
Qed.

Lemma streamPages_endless (fuel : nat) (token : string) (items : list MachineConfig) :
  (∀ token, ∃ page batch,
      client_List pageSize token = inr page ∧ filterMcList page = inr batch
      ∧ Continue (listListMeta page) ≠ "") →
  streamPages fuel token items = None.
Proof.
  intros Hmore. revert token items. induction fuel as [|fuel IH]; intros token items.
  - reflexivity.
  - cbn [streamPages]. destruct (Hmore token) as (page & batch & -> & -> & Hne).
    apply String.eqb_neq in Hne. rewrite Hne. apply IH.
Qed.

End WithApi.

(** X15: [filterMcList] changes nothing but the raw configurations.  When
    it succeeds, the list has the metadata of its input and as many
    MachineConfigs, in the same order and with the same names and other
    fields; an empty raw configuration is left empty, and any other is
    the encoding of the parsed configuration with no file in its storage.
    It succeeds when every configuration that is not empty parses and can
    be encoded again; the first MachineConfig that does not parse gives
    the error, with its name. *)
Theorem filterMcList_strips_files `{MachineConfigTypes} `{!MachineConfigApi}
    (mcListIn : MachineConfigList) :
  (∀ out, filterMcList mcListIn = inr out →
      listTypeMeta out = listTypeMeta mcListIn
      ∧ listListMeta out = listListMeta mcListIn
      ∧ Forall2 stripped (Items mcListIn) (Items out))
  ∧ (Forall (fun mc => Raw mc ≠ "" →
               ∃ ign raw, ParseAndConvertConfig (Raw mc) = inr ign
                          ∧ json_Marshal_Ignition {| StorageFiles := []; ignRest := ignRest ign |}
                            = inr raw) (Items mcListIn) →
       ∃ out, filterMcList mcListIn = inr out)
  ∧ (∀ pre mc post err,
       Items mcListIn = pre ++ mc :: post →
       Forall (fun m => ∃ m', filterMc m = inr m') pre →
       Raw mc ≠ "" → ParseAndConvertConfig (Raw mc) = inl err →
       filterMcList mcListIn = inl (Wrapf ("cannot parse MC " +:+ Name mc +:+ ": ") err "")).
Proof.
  split; [|split].
  - intros out. unfold filterMcList.
    destruct (filterMcItems (Items mcListIn) []) as [err|items] eqn:Hitems; [discriminate|].
    intros [= <-]. cbn. repeat split.
    destruct (filterMcItems_stripped _ _ _ Hitems) as (items' & -> & Hall). exact Hall.
  - intros Hall. unfold filterMcList.
    destruct (filterMcItems_total (Items mcListIn) []) as [out Hout].
    + eapply Forall_impl; [exact Hall|]. intros mc Hmc. unfold filterMc.
      destruct (Nat.ltb 0 (String.length (Raw mc))) eqn:E; [|eauto].
      destruct Hmc as (ign & raw & -> & ->); [|eauto].
      intros Hz. apply ltb_length in Hz. congruence.
    + rewrite Hout. eauto.
  - intros pre mc post err Hsplit Hpre Hne Hparse. unfold filterMcList. rewrite Hsplit.
    rewrite (filterMcItems_first_error pre post [] mc
               (Wrapf ("cannot parse MC " +:+ Name mc +:+ ": ") err "")); [reflexivity | exact Hpre |].
    unfold filterMc. destruct (Nat.ltb 0 (String.length (Raw mc))) eqn:E.
    + now rewrite Hparse.
    + apply ltb_length in E. contradiction.
Qed.

Lemma filterMcList_strips_files_witness :
  @filterMcList DemoMachineConfigs.demoTypes DemoMachineConfigs.demoApi DemoMachineConfigs.page1
  = inr DemoMachineConfigs.page1NoFiles
  ∧ @filterMcList DemoMachineConfigs.demoTypes DemoMachineConfigs.demoApi
      DemoMachineConfigs.badPage
    = inl (Wrapf "cannot parse MC 50-bad: " (New "parsing Ignition config failed") "").
Proof.
  split.
  - destruct (@filterMcList_strips_files DemoMachineConfigs.demoTypes DemoMachineConfigs.demoApi
                DemoMachineConfigs.page1) as (_ & Htotal & _).
    destruct Htotal as [out Hout].
    + repeat constructor; intros _; eexists; eexists; split; reflexivity.
    + rewrite Hout. vm_compute in Hout. injection Hout as <-. reflexivity.
  - destruct (@filterMcList_strips_files DemoMachineConfigs.demoTypes DemoMachineConfigs.demoApi
                DemoMachineConfigs.badPage)
      as (_ & _ & Hfirst).
    apply (Hfirst [DemoMachineConfigs.mc "00-worker" ""] (DemoMachineConfigs.mc "50-bad" "broken")
             [DemoMachineConfigs.mc "99-worker-ssh" "ign-b"]).
    + reflexivity.
    + repeat constructor. eexists. reflexivity.
    + discriminate.
    + reflexivity.
Defined.

(** X16: [mcStreamer.Stream] returns the MachineConfigs of all pages in
    the order in which they were served.  When the cluster serves the
    pages one after the other, each page but the last with a continue
    token that is passed to the next call, and every page passes
    [filterMcList], the stream is the encoding of one list with the
    filtered MachineConfigs of the first page, then those of the second,
    and so on: the loop takes one round for each page, so it does not end
    with less fuel than pages and ends with this result with any more.  An
    error of the listing after these pages ends the run with this error
    and none of the pages. *)
Theorem mcStream_collects_pages `{MachineConfigTypes} `{!MachineConfigApi}
    (pages filtered : list MachineConfigList) (next : string) :
  follows "" pages next →
  Forall2 (fun page batch => filterMcList page = inr batch) pages filtered →
  (pages ≠ [] → next = "" →
     ∀ fuel, (length pages <= fuel)%nat →
       mcStream fuel
       = Some (match Encode (collected filtered) with
               | inl err => inl (Wrapf "failed to serialize MC list: " err "")
               | inr buf => inr buf
               end))
  ∧ (∀ fuel, (fuel < length pages)%nat → mcStream fuel = None)
  ∧ (∀ err, (pages ≠ [] → next ≠ "") → client_List pageSize next = inl err →
       ∀ fuel, (length pages < fuel)%nat →
         mcStream fuel = Some (inl (Wrapf "failed to list MachineConfigs: " err ""))).
Proof.
  intros Hserved Hfiltered. split; [|split].
  - intros Hne -> fuel Hfuel. unfold mcStream.
    replace fuel with (length pages + (fuel - length pages))%nat by lia.
    rewrite (streamPages_ends pages filtered "" [] _ Hserved Hne Hfiltered).
    cbn [app]. fold (collected filtered). now destruct (Encode (collected filtered)).
  - intros fuel Hfuel. unfold mcStream.
    now rewrite (streamPages_short pages filtered "" next [] fuel Hserved Hfuel Hfiltered).
  - intros err Hnext Hlist fuel Hfuel. unfold mcStream.
    replace fuel with (length pages + S (fuel - S (length pages)))%nat by lia.
    rewrite (streamPages_rounds pages filtered "" next [] _ Hserved Hnext Hfiltered).
    cbn [streamPages]. now rewrite Hlist.
Qed.

Lemma mcStream_collects_pages_witness :
  @mcStream DemoMachineConfigs.demoTypes DemoMachineConfigs.demoApi 2
  = Some (inr "00-master=ign-a;00-worker=;99-worker-ssh=ign-b")
  ∧ @mcStream DemoMachineConfigs.demoTypes DemoMachineConfigs.demoApi 1 = None.
Proof.
  destruct (@mcStream_collects_pages DemoMachineConfigs.demoTypes DemoMachineConfigs.demoApi
              [DemoMachineConfigs.page1; DemoMachineConfigs.page2]
              [DemoMachineConfigs.page1; DemoMachineConfigs.page2] "")
    as (Hends & Hshort & _).
  - cbn. repeat split. discriminate.
  - repeat constructor.
  - split.
    + rewrite (Hends ltac:(discriminate) eq_refl 2%nat); [reflexivity | cbn; lia].
    + apply Hshort. cbn. lia.
Defined.

(** X17: the loop of [mcStreamer.Stream] has no bound of its own.  When
    every page that the cluster serves has a continue token (and passes
    the filter), the loop does not end, whatever the fuel. *)
Theorem mcStream_needs_a_last_page `{MachineConfigTypes} `{!MachineConfigApi} :
  (∀ token, ∃ page batch,
      client_List pageSize token = inr page ∧ filterMcList page = inr batch
      ∧ Continue (listListMeta page) ≠ "") →
  ∀ fuel, mcStream fuel = None.
Proof.
  intros Hmore fuel. unfold mcStream. now rewrite streamPages_endless.
Qed.

Lemma mcStream_needs_a_last_page_witness :
  @mcStream DemoMachineConfigs.demoTypes DemoMachineConfigs.endlessApi 1000 = None.
Proof.
  apply (@mcStream_needs_a_last_page DemoMachineConfigs.demoTypes DemoMachineConfigs.endlessApi).
  intros token. exists DemoMachineConfigs.page1. eexists.
  split; [reflexivity|]. split; [reflexivity | discriminate].
Defined.

End MachineConfigFacts.


Module CollectorFacts.
Import Terms CollectorTerms PersistenceTerms.
Import GoStrings GoStringsFacts GoErrors GoPath GoPathFacts Persist PersistFacts Persistence.
Import Discovery DiscoveryFacts Fetch FetchFacts ReconcileFacts FetchLoopFacts FetchPlainFacts.
Import PersistenceFacts Collector.

(** X18: what was fetched is what is saved.  For paths without a filter,
    with bodies that are not empty and with different DumpPaths made of
    proper names, none of them the key of a node of a role,
    [FetchResources] succeeds without a warning, and a run of
    [SaveResources] after it that ends without an error leaves the body
    of every path in the file [<root><DumpPath>], whatever the orders of
    the ranges; the file system is one where making a directory changes
    no file and writing a file changes this file only.  When
    [FetchResources] fails, the staging object is left as it was, so that
    [SaveResources] on an object that has fetched nothing before writes
    nothing. *)
Theorem fetched_resources_are_saved `{FilterEngine} `{Streamer} `{JsonDiff} `{FileSystem}
    (ReadFile : string → Disk → option string)
    (σ σ' : RangeOrder string) (rsegs : list string) (c : staging) :
  (∀ dir disk disk' err,
      MkdirAll dir disk = (disk', err) → ∀ p, ReadFile p disk' = ReadFile p disk) →
  (∀ p content disk disk',
      WriteFile p content disk = (disk', None) → ReadFile p disk' = Some content) →
  (∀ p content disk disk' err,
      WriteFile p content disk = (disk', err) → ∀ q, q ≠ p → ReadFile q disk' = ReadFile q disk) →
  valid_order σ → valid_order σ' →
  Forall (fun s => properName s = true) rsegs → rsegs ≠ [] →
  (∀ p, In p (resources c) → plainPath p) →
  NoDup (map DumpPath (resources c)) →
  (∀ p, In p (resources c) → (getRoleNodeNameFromDumpPath (DumpPath p)).1 = "") →
  (∀ p, In p (resources c) →
      ∃ segs f, DumpPath p = rootedPath (segs ++ [f])
                ∧ Forall (fun s => properName s = true) segs ∧ properName f = true) →
  (∃ c', FetchResources σ c = (c', [], None)
         ∧ resources c' = resources c
         ∧ ∀ disk disk',
             SaveResources σ' (rootedPath rsegs) c' disk = (disk', None) →
             ∀ p body, In p (resources c) → Stream (ObjPath p) = Body body →
               ReadFile (rootedPath rsegs +:+ DumpPath p) disk' = Some body)
  ∧ (∀ objects warnings err disk,
        fetch σ objects = (None, warnings, Some err) →
        FetchResources σ (mkStaging objects ∅) = (mkStaging objects ∅, warnings, Some err)
        ∧ SaveResources σ' (rootedPath rsegs) (mkStaging objects ∅) disk = (disk, None)).
Proof.
  intros Hmk Hww Hwk Hσ Hσ' Hr Hne Hplain Hnd Hrole Hproper. split.
  - destruct (fetchLoop_plain (resources c) ∅ [] Hplain Hnd) as (results & Hloop & Hbodies & _).
    assert (Hkeys : ∀ k, is_Some (results !! k) → ∃ p, In p (resources c) ∧ DumpPath p = k).
    { intros k. now apply (fetchLoop_keys (resources c) results []). }
    assert (Hfetch : fetch σ (resources c) = (Some results, [], None)).
    { unfold fetch. rewrite Hloop. apply saveConsistentKubeletResult_no_nodes; [exact Hσ|].
      intros k v Hk. destruct (Hkeys k) as (p & Hp & <-); [eauto|]. now apply Hrole. }
    exists (mkStaging (resources c) results). unfold FetchResources. rewrite Hfetch.
    split; [reflexivity|]. split; [reflexivity|].
    intros disk disk' Hsave p body Hp Hstream. unfold SaveResources in Hsave.
    cbn [found] in Hsave. unfold saveResources in Hsave.
    destruct (saveLoop_written ReadFile Hmk Hww Hwk rsegs (σ' results) disk disk' None Hr Hne)
      as [Hall _].
    + intros k v Hin. apply (elem_of_valid_order σ' results k v Hσ') in Hin.
      destruct (Hkeys k) as (q & Hq & <-); [eauto|]. now apply Hproper.
    + now apply valid_order_NoDup_fst.
    + exact Hsave.
    + apply (Hall eq_refl). apply (elem_of_valid_order σ' results _ _ Hσ').
      now apply Hbodies.
  - intros objects warnings err disk Hfetch. unfold FetchResources, SaveResources.
    cbn [resources found]. rewrite Hfetch. split; [reflexivity|].
    unfold saveResources. now rewrite (valid_order_empty σ' Hσ').
Qed.

Lemma fetched_resources_are_saved_witness :
  ∃ c',
    @FetchResources DemoFetch.demoFilter DemoFetch.demoStreamer DemoFetch.demoJsonDiff key_order
      (mkStaging [mkResourcePath "/version" "/version" "";
                  mkResourcePath "/api/v1/nodes" "/api/v1/nodes" ""] ∅)
    = (c', [], None)
    ∧ ∀ disk',
        @SaveResources DemoDisk.memoryDisk rev_key_order "/out" c' ∅ = (disk', None) →
        DemoDisk.memoryRead "/out/version" disk' = Some "{/version}"
        ∧ DemoDisk.memoryRead "/out/api/v1/nodes" disk' = Some "{/api/v1/nodes}".
Proof.
  destruct (@fetched_resources_are_saved DemoFetch.demoFilter DemoFetch.demoStreamer
              DemoFetch.demoJsonDiff DemoDisk.memoryDisk DemoDisk.memoryRead
              key_order rev_key_order ["out"]
              (mkStaging [mkResourcePath "/version" "/version" "";
                          mkResourcePath "/api/v1/nodes" "/api/v1/nodes" ""] ∅))
    as [(c' & Hfetch & _ & Hsaved) _].
  - intros dir d d' err [= <- _] p. reflexivity.
  - intros p content d d'. cbn. destruct (String.eqb p "/readonly"); [discriminate|].
    intros [= <-]. apply lookup_insert_eq.
  - intros p content d d' err. cbn. destruct (String.eqb p "/readonly").
    + intros [= <- _] q _. reflexivity.
    + intros [= <- _] q Hq. apply lookup_insert_ne. congruence.
  - apply valid_key_order.
  - apply valid_rev_key_order.
  - repeat constructor.
  - discriminate.
  - intros p [<-|[<-|[]]]; (split; [reflexivity|]); eexists; (split; [reflexivity | discriminate]).
  - repeat constructor; rewrite ?list_elem_of_In; simpl; intuition discriminate.
  - intros p [<-|[<-|[]]]; reflexivity.
  - intros p [<-|[<-|[]]].
    + exists [], "version". repeat split; constructor.
    + exists ["api"; "v1"], "nodes". repeat split; repeat constructor.
  - exists c'. split; [exact Hfetch|]. intros disk' Hsave. split.
    + apply (Hsaved ∅ disk' Hsave (mkResourcePath "/version" "/version" ""));
        [now left | reflexivity].
    + apply (Hsaved ∅ disk' Hsave (mkResourcePath "/api/v1/nodes" "/api/v1/nodes" ""));
        [right; now left | reflexivity].
Defined.

End CollectorFacts.

Module FigureResourcesFacts.
Import Terms.
Import GoStrings GoStringsFacts GoErrors Xccdf Discovery DiscoveryFacts.

Section WithUtils.
Context `{Utils}.

(** A document without a profile of this name selects nothing and
    extends nothing. *)
Lemma selectedChecksOf_unknown (profileDefs : Document) (profile : string) :
  Forall (fun node => p_id node ≠ profile) (Profiles profileDefs) →
  selectedChecksOf profileDefs profile = [].
Proof.
  unfold selectedChecksOf. induction 1 as [|node nodes Hne _ IH]; [reflexivity|].
  cbn [flat_map]. apply String.eqb_neq in Hne. rewrite Hne. cbn [negb]. exact IH.
Qed.

Lemma getExtendedProfileFrom_unknown (nodes : list Profile) (tailoredProfile : string) :
  Forall (fun node => p_id node ≠ tailoredProfile) nodes →
  getExtendedProfileFrom nodes tailoredProfile = "".
Proof.
  induction 1 as [|node nodes Hne _ IH]; [reflexivity|].
  cbn [getExtendedProfileFrom]. unfold extendsOf.
  apply String.eqb_neq in Hne. rewrite Hne. cbn [negb]. exact IH.
Qed.

Lemma getResourcePaths_unknown (σ : RangeOrder string) (profileDefs ruleDefs : Document)
    (profile : string) (overrideValueList : option (gmap string string)) :
  Forall (fun node => p_id node ≠ profile) (Profiles profileDefs) →
  (getResourcePaths σ profileDefs ruleDefs profile overrideValueList).1 = [].
Proof.
  intros Hnone. unfold getResourcePaths. rewrite selectedChecksOf_unknown by exact Hnone.
  now destruct (Nat.eqb _ _).
Qed.

Lemma getResourcePaths_no_rules (σ : RangeOrder string) (profileDefs ruleDefs : Document)
    (profile : string) (overrideValueList : option (gmap string string)) :
  Rules ruleDefs = [] →
  (getResourcePaths σ profileDefs ruleDefs profile overrideValueList).1 = [].
Proof. intros Hnone. unfold getResourcePaths. now rewrite Hnone. Qed.

End WithUtils.

(** X19: what [FigureResources] makes of a cluster or of documents that
    give it nothing.  An error of the listing of the nodes is its only
    error, and is returned wrapped.  When the nodes are listed and no
    profile has the name that is asked for (in the tailoring when there is
    one, whatever the benchmark holds; in the benchmark when there is
    none), or when the benchmark has no rule, it succeeds with the fixed
    paths and the kubelet configuration paths alone. *)
Theorem FigureResources_without_profile `{Utils}
    (σr : RangeOrder (list string)) (σv : RangeOrder string)
    (c : scapContentDataStream) (profile : string) :
  (∀ err, clientListNodes c = inl err →
      FigureResources σr σv c profile = inl (Wrapf "failed to list nodes: " err ""))
  ∧ (∀ items, valid_order σr → clientListNodes c = inr items →
       (∃ paths, FigureResources σr σv c profile = inr (stagedPaths σr items ++ paths))
       ∧ (Forall (fun node => p_id node ≠ profile)
                 (Profiles (default (dataStream c) (tailoring c))) →
            FigureResources σr σv c profile = inr (stagedPaths σr items))
       ∧ (Rules (dataStream c) = [] →
            FigureResources σr σv c profile = inr (stagedPaths σr items))).
Proof.
  split.
  - intros err Herr. unfold FigureResources, fetchNodesWithRole. now rewrite Herr.
  - intros items Hσ Hitems.
    rewrite (FigureResources_unfold σr σv c profile items Hσ Hitems).
    split; [eauto|]. split.
    + intros Hnone. destruct (tailoring c) as [t|]; cbn [default] in Hnone; cbv zeta.
      * unfold getExtendedProfileFromTailoring.
        rewrite getExtendedProfileFrom_unknown by exact Hnone. cbn [String.eqb].
        rewrite getResourcePaths_unknown by exact Hnone. now rewrite app_nil_r.
      * rewrite getResourcePaths_unknown by exact Hnone. now rewrite app_nil_r.
    + intros Hrules. destruct (tailoring c) as [t|]; cbv zeta.
      * rewrite !getResourcePaths_no_rules by exact Hrules.
        destruct (String.eqb _ _); now rewrite app_nil_r.
      * rewrite getResourcePaths_no_rules by exact Hrules. now rewrite app_nil_r.
Qed.

Lemma FigureResources_without_profile_witness :
  @FigureResources Demo.demoUtils key_order key_order Demo.demoContent "P"
  = inr (@stagedPaths Demo.demoUtils key_order Demo.demoNodes)
  ∧ @FigureResources Demo.demoUtils key_order key_order Demo.twoRoleContent "T"
    = inr (@stagedPaths Demo.demoUtils key_order Demo.twoNodes).
Proof.
  split.
  - destruct (@FigureResources_without_profile Demo.demoUtils key_order key_order
                Demo.demoContent "P") as [_ Hlisted].
    destruct (Hlisted Demo.demoNodes valid_key_order eq_refl) as (_ & Hnone & _).
    apply Hnone. repeat constructor; discriminate.
  - destruct (@FigureResources_without_profile Demo.demoUtils key_order key_order
                Demo.twoRoleContent "T") as [_ Hlisted].
    destruct (Hlisted Demo.twoNodes valid_key_order eq_refl) as (_ & Hnone & _).
    apply Hnone. repeat constructor; discriminate.
Defined.

End FigureResourcesFacts.

(** ** The error policy and the reconciliation *)

Module FetchPolicyClaim.
Import Terms.
Import GoStrings GoStringsFacts GoErrors Discovery DiscoveryFacts Fetch FetchFacts ReconcileFacts.
Import ReconcileMoreFacts.

(** C4: the code does not keep the claim for the kubelet configuration of
    a node.  The paths are the two that discovery builds for two nodes of
    one role; the kubelet of the first node answers with a configuration
    that passes the filter, the one of the second node is not found.  The
    loop of [fetch] does what the claim says: it goes on to the end, with
    one warning for the second node and the error marker at its DumpPath.
    The reconciliation that [fetch] runs on this map then hands the marker
    to [CompareJSON] as the configuration of the second node; with a
    comparison that fails on the marker, which is no document, [fetch]
    returns an error, no map and no warning, in every order of the
    range: the not-found has ended the run. *)
Theorem not_found_node_aborts_the_run `{FilterEngine} `{Streamer} `{JsonDiff}
    (σ : RangeOrder string) (role n1 n2 body out : string) (e : ApiErr)
    (fltr : Query) (obj : JsonObject) (v : JsonValue) :
  valid_order σ →
  role ≠ "" → no_slash role = true → no_slash n1 = true → no_slash n2 = true → n1 ≠ n2 →
  Stream (ObjPath (kubeletConfigPath role n1)) = Body body → body ≠ "" →
  gojq_Parse kubeletConfigFilter = inr fltr → json_Unmarshal body = inr obj →
  gojq_Run fltr obj = [inr v] → json_Marshal v = inr out →
  Stream (ObjPath (kubeletConfigPath role n2)) = StreamFailed e → IsNotFound e = true →
  (∃ err, CompareJSON out ("# kube-api-error=" +:+ ReasonForError e) = inl err) →
  (∃ err, CompareJSON ("# kube-api-error=" +:+ ReasonForError e) out = inl err) →
  fetchLoop [kubeletConfigPath role n1; kubeletConfigPath role n2] (∅, [])
  = inr (<[DumpPath (kubeletConfigPath role n2) := "# kube-api-error=" +:+ ReasonForError e]>
           (<[DumpPath (kubeletConfigPath role n1) := out]> ∅),
         [couldNotFetch (ObjPath (kubeletConfigPath role n2)) e])
  ∧ ∃ err, fetch σ [kubeletConfigPath role n1; kubeletConfigPath role n2] = (None, [], Some err).
Proof.
  intros Hσ Hrole Hsr Hs1 Hs2 Hn Hbody Hne Hparse Hdec Hrun Hmar Hmissing Hnf Hcmp Hcmp'.
  set (marker := "# kube-api-error=" +:+ ReasonForError e) in *.
  set (k1 := DumpPath (kubeletConfigPath role n1)).
  set (k2 := DumpPath (kubeletConfigPath role n2)).
  assert (Hfirst : fetchOne (kubeletConfigPath role n1) (∅, []) = inr (<[k1 := out]> ∅, [])).
  { unfold fetchOne. rewrite Hbody.
    destruct body as [|a body']; [now destruct Hne|]. cbn [String.length Nat.eqb].
    assert (String.eqb (Filter (kubeletConfigPath role n1)) "" = false) as -> by reflexivity.
    cbn [negb]. unfold filter. cbn [Filter kubeletConfigPath].
    now rewrite Hparse, Hdec, Hrun, Hmar. }
  assert (Hsecond : fetchOne (kubeletConfigPath role n2) (<[k1 := out]> ∅, [])
                    = inr (<[k2 := marker]> (<[k1 := out]> ∅),
                           [couldNotFetch (ObjPath (kubeletConfigPath role n2)) e])).
  { unfold fetchOne. rewrite Hmissing, Hnf, !orb_true_r. cbn [Error app].
    unfold couldNotFetch. now rewrite append_empty_r, !append_assoc. }
  assert (Hloop : fetchLoop [kubeletConfigPath role n1; kubeletConfigPath role n2] (∅, [])
                  = inr (<[k2 := marker]> (<[k1 := out]> ∅),
                         [couldNotFetch (ObjPath (kubeletConfigPath role n2)) e])).
  { cbn [fetchLoop]. rewrite Hfirst, Hsecond. reflexivity. }
  split; [exact Hloop|].
  assert (Hr1 : getRoleNodeNameFromDumpPath k1 = (role, n1))
    by now apply getRoleNodeNameFromDumpPath_node.
  assert (Hr2 : getRoleNodeNameFromDumpPath k2 = (role, n2))
    by now apply getRoleNodeNameFromDumpPath_node.
  assert (Hk : k1 ≠ k2).
  { unfold k1, k2. cbn [DumpPath kubeletConfigPath]. intros E.
    rewrite <- !append_assoc in E. apply append_inj_l in E. contradiction. }
  assert (Hentries : ∀ k c,
             <[k2 := marker]> (<[k1 := out]> (∅ : gmap string string)) !! k = Some c →
                       (k = k1 ∧ c = out) ∨ (k = k2 ∧ c = marker)).
  { intros k c Hkc. apply lookup_insert_Some in Hkc as [[<- <-]|[_ Hkc]]; [now right|].
    apply lookup_insert_Some in Hkc as [[<- <-]|[_ Hkc]]; [now left|].
    now rewrite lookup_empty in Hkc. }
  unfold fetch. rewrite Hloop. unfold saveConsistentKubeletResult.
  destruct (Nat.eqb_spec (size (<[k2 := marker]> (<[k1 := out]> (∅ : gmap string string)))) 0)
    as [Hz|_].
  { apply map_size_empty_iff in Hz. apply (f_equal (lookup k2)) in Hz.
    rewrite lookup_insert_eq, lookup_empty in Hz. discriminate Hz. }
  destruct (reconcileLoop_fails role (σ (<[k2 := marker]> (<[k1 := out]> ∅)))
              (∅, [couldNotFetch (ObjPath (kubeletConfigPath role n2)) e])) as [err Herr].
  - exact Hrole.
  - apply lookup_empty.
  - now apply valid_order_NoDup_fst.
  - intros k c k' c' Hin Hin' Hd _ _.
    apply (elem_of_valid_order σ _ _ _ Hσ) in Hin, Hin'.
    destruct (Hentries _ _ Hin) as [[-> ->]|[-> ->]],
             (Hentries _ _ Hin') as [[-> ->]|[-> ->]];
      first [now destruct Hd | exact Hcmp | exact Hcmp'].
  - exists k1, out, k2, marker. repeat split.
    + apply (elem_of_valid_order σ _ _ _ Hσ).
      rewrite lookup_insert_ne by (intros E; now apply Hk). apply lookup_insert_eq.
    + apply (elem_of_valid_order σ _ _ _ Hσ). apply lookup_insert_eq.
    + exact Hk.
    + now rewrite Hr1.
    + now rewrite Hr2.
  - rewrite Herr. eauto.
Qed.

Lemma not_found_node_aborts_the_run_witness :
  @fetchLoop DemoKubeletFilter.wholeObject DemoKubelet.kubeletStreamer
    [kubeletConfigPath "worker" "n1"; kubeletConfigPath "worker" "n2"] (∅, [])
  = inr ({[ "/kubeletconfig/worker/n2" := "# kube-api-error=NotFound";
            "/kubeletconfig/worker/n1" := DemoDocs.bytesA ]},
         [couldNotFetch "/api/v1/nodes/n2/proxy/configz" DemoFetch.notFoundErr])
  ∧ (∃ err, @fetch DemoKubeletFilter.wholeObject DemoKubelet.kubeletStreamer DemoDocs.demoDocs
              key_order [kubeletConfigPath "worker" "n1"; kubeletConfigPath "worker" "n2"]
            = (None, [], Some err))
  ∧ (∃ err, @fetch DemoKubeletFilter.wholeObject DemoKubelet.kubeletStreamer DemoDocs.demoDocs
              rev_key_order [kubeletConfigPath "worker" "n1"; kubeletConfigPath "worker" "n2"]
            = (None, [], Some err)).
Proof.
  assert (Hany : ∀ σ : RangeOrder string, valid_order σ →
            @fetchLoop DemoKubeletFilter.wholeObject DemoKubelet.kubeletStreamer
              [kubeletConfigPath "worker" "n1"; kubeletConfigPath "worker" "n2"] (∅, [])
            = inr ({[ "/kubeletconfig/worker/n2" := "# kube-api-error=NotFound";
                      "/kubeletconfig/worker/n1" := DemoDocs.bytesA ]},
                   [couldNotFetch "/api/v1/nodes/n2/proxy/configz" DemoFetch.notFoundErr])
            ∧ ∃ err, @fetch DemoKubeletFilter.wholeObject DemoKubelet.kubeletStreamer
                       DemoDocs.demoDocs σ
                       [kubeletConfigPath "worker" "n1"; kubeletConfigPath "worker" "n2"]
                     = (None, [], Some err)).
  { intros σ Hσ.
    apply (@not_found_node_aborts_the_run DemoKubeletFilter.wholeObject
             DemoKubelet.kubeletStreamer DemoDocs.demoDocs σ "worker" "n1" "n2"
             DemoDocs.bytesA DemoDocs.bytesA DemoFetch.notFoundErr
             kubeletConfigFilter DemoDocs.bytesA DemoDocs.bytesA Hσ
             ltac:(discriminate) eq_refl eq_refl eq_refl ltac:(discriminate)
             eq_refl ltac:(discriminate) eq_refl eq_refl eq_refl eq_refl eq_refl eq_refl).
    - eexists. reflexivity.
    - eexists. reflexivity. }
  destruct (Hany key_order valid_key_order) as [Hloop Hkey].
  destruct (Hany rev_key_order valid_rev_key_order) as [_ Hrev].
  auto.
Defined.

(** The run at this input, in the two orders of the keys: the error names
    the node that is visited second. *)
Example not_found_node_run :
  @fetch DemoKubeletFilter.wholeObject DemoKubelet.kubeletStreamer DemoDocs.demoDocs
    key_order [kubeletConfigPath "worker" "n1"; kubeletConfigPath "worker" "n2"]
  = (None, [], Some (Wrapf "couldn't compare kubelet configs: " (New "invalid character")
                       " for n2"))
  ∧ @fetch DemoKubeletFilter.wholeObject DemoKubelet.kubeletStreamer DemoDocs.demoDocs
      rev_key_order [kubeletConfigPath "worker" "n1"; kubeletConfigPath "worker" "n2"]
    = (None, [], Some (Wrapf "couldn't compare kubelet configs: " (New "invalid character")
                         " for n1")).
Proof. split; vm_compute; reflexivity. Qed.

End FetchPolicyClaim.
